(** * protoviewer: the text-format parser and its tree operations

    A shallow embedding of [protoviewer.js]: the cursor helpers, the
    recursive-descent parser ([parse_proto], [parse_body], [parse_token],
    [parse_string], [parse_value], [parse_list]), the tree-info engine
    ([make_proto_info], [get_depth_info], [get_expand_info]),
    [filter_proto], [proto_slice], [matches_pattern], [slice_by_pattern],
    [format], and [convert], [convert_list] and [discourse_convert].  The
    functions that draw the tree in the page are not modelled.

    Modelling conventions.
    - A JavaScript string is the list of its UTF-16 code units ([str]).
    - A position is a natural number; the guards [if (!ii) ii = 0] of the
      source are the identity on such positions.
    - An object literal is the list of its own fields in the order in which
      [for (key in obj)] enumerates them: array-index keys first, in
      ascending numeric order, then the other keys in insertion order.
      [key in obj] is true for these own fields and also for the names
      that every object inherits from [Object.prototype] ([inherited]).
    - A call returns a value or throws ([outcome]); the exception of this
      code is the TypeError of a push on an inherited member, or of
      [key in paths] when [paths] is undefined.
    - Every error message of the source is a non-empty string, so the
      truthiness tests [if (result.error)] are tests against [null]. *)

From Stdlib Require Import String Ascii.
From Stdlib Require Import List NArith ZArith Arith Lia Bool.
Import ListNotations.

Set Implicit Arguments.
Set Warnings "-register-all".

(* ------------------------------------------------------------------ *)
(** * JavaScript strings *)

Definition str := list N.

(** The code units of an ASCII literal. *)
Definition lit (s : string) : str :=
  map N_of_ascii (list_ascii_of_string s).

Definition dquote : str := [34%N].
Definition squote : str := [39%N].
Definition backslash : str := [92%N].
Definition newline : str := [10%N].

Fixpoint eqs (a b : str) : bool :=
  match a, b with
  | [], [] => true
  | x :: a', y :: b' => N.eqb x y && eqs a' b'
  | _, _ => false
  end.

(** [text.charAt(ii)]: the one-unit string at [ii], empty out of range. *)
Definition charAt (text : str) (ii : nat) : str :=
  match nth_error text ii with
  | Some c => [c]
  | None => []
  end.

(** [text.substr(start, len)]: a negative [start] counts from the end. *)
Definition substr (text : str) (start len : Z) : str :=
  let size := Z.of_nat (length text) in
  let from := if (start <? 0)%Z then Z.max (size + start) 0 else start in
  firstn (Z.to_nat len) (skipn (Z.to_nat from) text).

Fixpoint uint_str (d : Decimal.uint) : str :=
  match d with
  | Decimal.Nil => []
  | Decimal.D0 d => 48%N :: uint_str d
  | Decimal.D1 d => 49%N :: uint_str d
  | Decimal.D2 d => 50%N :: uint_str d
  | Decimal.D3 d => 51%N :: uint_str d
  | Decimal.D4 d => 52%N :: uint_str d
  | Decimal.D5 d => 53%N :: uint_str d
  | Decimal.D6 d => 54%N :: uint_str d
  | Decimal.D7 d => 55%N :: uint_str d
  | Decimal.D8 d => 56%N :: uint_str d
  | Decimal.D9 d => 57%N :: uint_str d
  end.

(** String conversion of a non-negative integer, as in [" at: " + ii]. *)
Definition number_to_string (n : N) : str := uint_str (N.to_uint n).

(** ** Character classes of the regular expressions *)

Definition in_range (lo hi c : N) : bool := (N.leb lo c && N.leb c hi)%bool.

(** [/\s/] *)
Definition is_space (c : N) : bool :=
  in_range 9 13 c || N.eqb c 32 || N.eqb c 160 || N.eqb c 5760
  || in_range 8192 8202 c || N.eqb c 8232 || N.eqb c 8233 || N.eqb c 8239
  || N.eqb c 8287 || N.eqb c 12288 || N.eqb c 65279.

(** [/\w/] *)
Definition is_word (c : N) : bool :=
  in_range 48 57 c || in_range 65 90 c || in_range 97 122 c || N.eqb c 95.

(** [/[\w\.\-\+\/]/] *)
Definition token_re (c : N) : bool :=
  is_word c || N.eqb c 46 || N.eqb c 45 || N.eqb c 43 || N.eqb c 47.

(** [/[\w\.\[\]\-\+\/]/] *)
Definition name_re (c : N) : bool :=
  is_word c || N.eqb c 46 || N.eqb c 91 || N.eqb c 93 || N.eqb c 45
  || N.eqb c 43 || N.eqb c 47.

(* ------------------------------------------------------------------ *)
(** * JavaScript objects used as ordered maps *)

Definition obj (V : Type) := list (str * V).

Definition is_digit (c : N) : bool := in_range 48 57 c.

Definition decimal_value (key : str) : N :=
  fold_left (fun n c => (10 * n + (c - 48))%N) key 0%N.

(** An array index is the canonical decimal form of an integer below
    [2^32 - 1]; such keys are enumerated first, in numeric order. *)
Definition array_index (key : str) : option N :=
  let n := decimal_value key in
  if forallb is_digit key && N.ltb n 4294967295 && eqs key (number_to_string n)
  then Some n else None.

Definition obj_has {V} (key : str) (o : obj V) : bool :=
  existsb (fun kv => eqs (fst kv) key) o.

Fixpoint obj_get {V} (key : str) (o : obj V) : option V :=
  match o with
  | [] => None
  | (k, v) :: o' => if eqs k key then Some v else obj_get key o'
  end.

(** Overwrite the value of a field that is present. *)
Fixpoint obj_update {V} (key : str) (f : V -> V) (o : obj V) : obj V :=
  match o with
  | [] => []
  | (k, v) :: o' =>
      if eqs k key then (k, f v) :: o' else (k, v) :: obj_update key f o'
  end.

(** Place a new array-index key [n] among the array-index keys. *)
Fixpoint obj_insert {V} (key : str) (n : N) (v : V) (o : obj V) : obj V :=
  match o with
  | [] => [(key, v)]
  | (k, w) :: o' =>
      match array_index k with
      | Some m => if N.ltb m n then (k, w) :: obj_insert key n v o'
                  else (key, v) :: o
      | None => (key, v) :: o
      end
  end.

(** [o[key] = v] *)
Definition obj_set {V} (key : str) (v : V) (o : obj V) : obj V :=
  if obj_has key o then obj_update key (fun _ => v) o
  else match array_index key with
       | Some n => obj_insert key n v o
       | None => o ++ [(key, v)]
       end.

(** The names of the members that an object literal inherits from
    [Object.prototype], in a browser and in Node.js.  For such a name
    [key in obj] is true although [obj] has no field of that name of its
    own, [obj[key]] is the inherited member (a function, or the prototype
    itself for [__proto__]), and [for (key in obj)] does not enumerate
    it. *)
Definition inherited_names : list str :=
  [lit "constructor"; lit "hasOwnProperty"; lit "isPrototypeOf";
   lit "propertyIsEnumerable"; lit "toLocaleString"; lit "toString";
   lit "valueOf"; lit "__proto__"; lit "__defineGetter__";
   lit "__defineSetter__"; lit "__lookupGetter__"; lit "__lookupSetter__"].

Definition inherited (key : str) : bool := existsb (eqs key) inherited_names.

(** [key in o] *)
Definition obj_in {V} (key : str) (o : obj V) : bool :=
  obj_has key o || inherited key.

(* ------------------------------------------------------------------ *)
(** * Parsed values and parse results *)

(** Every element of a ProtoList is a string, a ProtoObject or, for a
    bracketed list of the input, an array of such elements. *)
Inductive node : Type :=
  | Scalar (s : str)
  | Object (fields : obj (list node))
  | Arr (items : list node).

Abbreviation ProtoList := (list node) (only parsing).
Abbreviation ProtoObject := (obj (list node)) (only parsing).

(** The return value of the [parse_...] functions and of [consume_regexp]. *)
Record result (V : Type) : Type := mk_result {
  value : V;
  position : nat;
  error : option str
}.

Arguments mk_result {V} _ _ _.

(** How a call ends: it returns a value or it throws a TypeError.  The
    code catches no exception, so a TypeError ends every caller too. *)
Inductive outcome (A : Type) : Type :=
  | Returns (a : A)
  | TypeError.

Arguments Returns {A} a.
Arguments TypeError {A}.

Definition is_defined {V} (x : option V) : bool :=
  match x with Some _ => true | None => false end.

(** [typeof obj === 'object'], true for arrays as well. *)
Definition is_object (x : node) : bool :=
  match x with Scalar _ => false | _ => true end.

Definition is_array (x : node) : bool :=
  match x with Arr _ => true | _ => false end.

Definition is_sub_proto (x : node) : bool := is_object x && negb (is_array x).

(* ------------------------------------------------------------------ *)
(** * Cursor *)

Definition make_error (message text : str) (ii : nat) (len : option nat) : str :=
  let len := match len with Some (S n) => S n | _ => 10 end in
  message ++ lit " at: " ++ number_to_string (N.of_nat ii) ++ lit " = "
  ++ charAt text ii ++ lit " ("
  ++ substr text (Z.of_nat ii - Z.of_nat len) (Z.of_nat (len * 2)) ++ lit ")".

(** The loop of [consume_regexp]: [rest] is the text from [jj] on. *)
Fixpoint scan (regexp : N -> bool) (rest : str) (jj : nat) : nat :=
  match rest with
  | c :: rest' => if regexp c then scan regexp rest' (S jj) else jj
  | [] => jj
  end.

Definition consume_regexp (text : str) (ii : nat) (regexp : N -> bool)
  : result str :=
  let jj := scan regexp (skipn ii text) ii in
  {| value := substr text (Z.of_nat ii) (Z.of_nat (jj - ii));
     position := jj;
     error := None |}.

Definition consume_whitespace (text : str) (ii : nat) : nat :=
  position (consume_regexp text ii is_space).

(** [while (ii < text.length && text.charAt(ii++) != "\n") {}] *)
Fixpoint skip_line (rest : str) (ii : nat) : nat :=
  match rest with
  | [] => ii
  | c :: rest' => if eqs [c] newline then S ii else skip_line rest' (S ii)
  end.

(** The outer loop of [consume_comments]; every round consumes at least
    the [#] it starts on, so [length text] rounds are never exhausted. *)
Fixpoint comments_loop (rounds : nat) (text : str) (ii : nat) : nat :=
  match rounds with
  | 0 => ii
  | S rounds' =>
      if (ii <? length text) && eqs (charAt text ii) (lit "#") then
        let ii := skip_line (skipn ii text) ii in
        let ii := consume_whitespace text ii in
        comments_loop rounds' text ii
      else ii
  end.

Definition consume_comments (text : str) (ii : nat) : nat :=
  let ii := consume_whitespace text ii in
  comments_loop (length text) text ii.

(* ------------------------------------------------------------------ *)
(** * Tokens and quoted strings *)

(** The [for] loop of [parse_string]: [rest] is the text from [jj] on;
    the result is the accumulated value and the final [jj]. *)
Fixpoint string_loop (quote rest : str) (jj : nat) (escape : bool)
  (value : str) : str * nat :=
  match rest with
  | [] => (value, jj)
  | c :: rest' =>
      let value := value ++ [c] in
      if negb escape && eqs [c] quote then (value, jj)
      else
        let escape := negb escape && eqs [c] backslash in
        string_loop quote rest' (S jj) escape value
  end.

Definition parse_string (text : str) (ii : nat) : result str :=
  let quote := charAt text ii in
  if negb (eqs (charAt text ii) squote) && negb (eqs (charAt text ii) dquote)
  then {| value := [];
          position := ii;
          error := Some (lit "Invalid string, doesn't start with quote: "
                         ++ quote) |}
  else
    let '(value, jj) :=
      string_loop quote (skipn (ii + 1) text) (ii + 1) false (charAt text ii) in
    if length text <=? jj then
      {| value := value;
         position := jj;
         error := Some (lit "No end of string found: "
                        ++ number_to_string (N.of_nat ii)) |}
    else if eqs (charAt text jj) quote then
      {| value := value;
         position := consume_comments text (jj + 1);
         error := None |}
    else {| value := value; position := jj; error := None |}.

Definition parse_token (text : str) (ii : nat) (should_include_brackets : bool)
  : result str :=
  let result :=
    if eqs (charAt text ii) dquote || eqs (charAt text ii) squote then
      parse_string text ii
    else
      let regexp := if should_include_brackets then name_re else token_re in
      let r := consume_regexp text ii regexp in
      {| value := value r; position := position r; error := None |} in
  if negb (is_defined (Some (value result))) then
    {| value := value result;
       position := position result;
       error := Some (make_error (lit "Error parsing token") text ii None) |}
  else result.

(* ------------------------------------------------------------------ *)
(** * Parser *)

(** [if (!(key in o)) o[key] = []; o[key].push(v)].  For a name that [o]
    inherits and does not have as a field of its own, no array is made,
    [o[key]] is the inherited member, which has no [push], and the call
    of [push] throws a TypeError. *)
Definition obj_push {V} (key : str) (v : V) (o : obj (list V))
  : outcome (obj (list V)) :=
  let o' := if negb (obj_in key o) then obj_set key [] o else o in
  if obj_has key o' then Returns (obj_update key (fun l => l ++ [v]) o')
  else TypeError.

(** [!filter_func || !filter_func(name)] *)
Definition keeps (filter_func : option (str -> bool)) (name : str) : bool :=
  match filter_func with
  | None => true
  | Some f => negb (f name)
  end.

(** The code after the loop of [parse_list]. *)
Definition parse_list_end (text : str) (items : list node) (ii : nat)
  (err : option str) : result node :=
  if length text <=? ii then
    {| value := Arr items;
       position := ii;
       error := Some (lit "No end of list found: ") |}
  else if eqs (charAt text ii) (lit "]") then
    {| value := Arr items;
       position := consume_comments text (S ii);
       error := err |}
  else {| value := Arr items; position := ii; error := err |}.

(** The parser proper.  The functions call one another and loop; [fuel]
    bounds the depth of calls and loop rounds, and [None] means that it ran
    out ([parse_total] below shows that [fuel_for text] is always enough).
    A call that ends returns a result or throws: the push of [parse_body]
    throws a TypeError on a field name that objects inherit.
    [parse_body_loop] and [parse_list_loop] are the [while] loops of
    [parse_body] and [parse_list], with the loop variables as arguments. *)
Fixpoint parse_proto (fuel : nat) (text : str) (ii : nat)
  (filter_func : option (str -> bool)) {struct fuel}
  : option (outcome (result node)) :=
  match fuel with
  | 0 => None
  | S fuel =>
      let ii := consume_comments text ii in
      let has_braces := eqs (charAt text ii) (lit "{") in
      let ii := if has_braces then S ii else ii in
      match parse_body fuel text ii filter_func with
      | Some (Returns res) =>
          match error res with
          | Some _ => Some (Returns res)
          | None =>
              if has_braces then
                let ii := position res in
                let ii := consume_comments text ii in
                let closed := eqs (charAt text ii) (lit "}") in
                let err :=
                  if negb closed then Some (lit "Missing Closing Brace")
                  else None in
                let ii := if negb closed then ii else S ii in
                let ii := consume_comments text ii in
                Some (Returns {| value := value res;
                                 position := ii;
                                 error := err |})
              else Some (Returns res)
          end
      | stopped => stopped
      end
  end

with parse_body (fuel : nat) (text : str) (ii : nat)
  (filter_func : option (str -> bool)) {struct fuel}
  : option (outcome (result node)) :=
  match fuel with
  | 0 => None
  | S fuel => parse_body_loop fuel text filter_func ii []
  end

with parse_body_loop (fuel : nat) (text : str)
  (filter_func : option (str -> bool)) (ii : nat) (fields : ProtoObject)
  {struct fuel} : option (outcome (result node)) :=
  match fuel with
  | 0 => None
  | S fuel =>
      if (ii <? length text) && negb (eqs (charAt text ii) (lit "}")) then
        let old_ii := ii in
        let ii := consume_comments text ii in
        let name := parse_token text ii true in
        match error name with
        | Some e =>
            Some (Returns {| value := Object fields;
                             position := ii;
                             error := Some e |})
        | None =>
            let ii := position name in
            let ii := consume_comments text ii in
            let ii := if eqs (charAt text ii) (lit ":") then S ii else ii in
            let ii := consume_comments text ii in
            match parse_value fuel text ii filter_func with
            | Some (Returns val) =>
                let ii := if position val =? 0 then ii else position val in
                let ii := consume_comments text ii in
                match
                  (if keeps filter_func (value name)
                   then obj_push (value name) (value val) fields
                   else Returns fields)
                with
                | TypeError => Some TypeError
                | Returns fields =>
                    match error val with
                    | Some e =>
                        Some (Returns {| value := Object fields;
                                         position := ii;
                                         error := Some e |})
                    | None =>
                        let ii :=
                          if eqs (charAt text ii) (lit ",")
                          then consume_comments text (S ii) else ii in
                        if ii =? old_ii then
                          Some (Returns
                                  {| value := Object fields;
                                     position := ii;
                                     error :=
                                       Some (make_error
                                               (lit "Internal error!  Infinite loop")
                                               text ii None) |})
                        else parse_body_loop fuel text filter_func ii fields
                    end
                end
            | stopped => stopped
            end
        end
      else Some (Returns {| value := Object fields;
                            position := ii;
                            error := None |})
  end

with parse_value (fuel : nat) (text : str) (ii : nat)
  (filter_func : option (str -> bool)) {struct fuel}
  : option (outcome (result node)) :=
  match fuel with
  | 0 => None
  | S fuel =>
      if eqs (charAt text ii) (lit "{") then
        parse_proto fuel text ii filter_func
      else if eqs (charAt text ii) (lit "[") then
        parse_list fuel text ii filter_func
      else
        let tok := parse_token text ii false in
        Some (Returns {| value := Scalar (value tok);
                         position := position tok;
                         error := error tok |})
  end

with parse_list (fuel : nat) (text : str) (ii : nat)
  (filter_func : option (str -> bool)) {struct fuel}
  : option (outcome (result node)) :=
  match fuel with
  | 0 => None
  | S fuel =>
      let ii :=
        if eqs (charAt text ii) (lit "[")
        then consume_comments text (S ii) else ii in
      parse_list_loop fuel text filter_func ii []
  end

with parse_list_loop (fuel : nat) (text : str)
  (filter_func : option (str -> bool)) (ii : nat) (items : list node)
  {struct fuel} : option (outcome (result node)) :=
  match fuel with
  | 0 => None
  | S fuel =>
      if (ii <? length text) && negb (eqs (charAt text ii) (lit "]")) then
        let old_ii := ii in
        match parse_value fuel text ii filter_func with
        | Some (Returns item) =>
            match error item with
            | Some _ =>
                Some (Returns {| value := Arr items;
                                 position := position item;
                                 error := None |})
            | None =>
                let ii := position item in
                let ii := consume_comments text ii in
                let items := items ++ [value item] in
                let ii :=
                  if (ii <? length text) && eqs (charAt text ii) (lit ",")
                  then consume_comments text (S ii) else ii in
                if old_ii =? ii then
                  Some (Returns
                          (parse_list_end text items ii
                             (Some (make_error
                                      (lit "Error parsing list, unrecognized character")
                                      text ii None))))
                else parse_list_loop fuel text filter_func ii items
            end
        | stopped => stopped
        end
      else Some (Returns (parse_list_end text items ii None))
  end.

(** Fuel that suffices for every call on [text]. *)
Definition fuel_for (text : str) : nat := 4 * length text + 4.


(* ------------------------------------------------------------------ *)
(** * Tree-info engine *)

Section ProtoInfo.

(** The type of the attribute values. *)
Variable A : Type.

Record attribute : Type := {
  leaf_function : str -> nat -> str -> A;
  aggregator : str -> list A -> A
}.

(** [{values: ..., data: {attr: [...]}, total: {attr: ...}}] *)
Record info_of (T : Type) : Type := {
  values : T;
  data : obj (list A);
  total : obj A
}.

(** An element of the [values] array of an AttrProtoList: the attributes
    of a leaf, or the AttrProtoDict of a sub-object. *)
Inductive proto_info : Type :=
  | LeafInfo (attrs : obj A)
  | DictInfo (d : info_of (obj (info_of (list proto_info)))).

Definition attr_list : Type := info_of (list proto_info).
Definition attr_dict : Type := info_of (obj attr_list).

Variable attributes : obj attribute.

(** The values pushed on [data[attr]], one per element or per field. *)
Definition collect (attr : str) (pushed : list (obj A)) : list A :=
  flat_map (fun m => match obj_get attr m with
                     | Some v => [v]
                     | None => []
                     end) pushed.

(** One round of the loop over [proto[name]]: the entry of [values] and
    the attribute values pushed on [data]. *)
Definition info_item (rec : node -> option attr_dict) (name : str)
  (ii : nat) (e : node) : option (proto_info * obj A) :=
  match e with
  | Scalar s =>
      let attrs :=
        map (fun af => (fst af, leaf_function (snd af) name ii s))
            attributes in
      Some (LeafInfo attrs, attrs)
  | _ =>
      match rec e with
      | Some d => Some (DictInfo d, total d)
      | None => None
      end
  end.

Fixpoint info_items (rec : node -> option attr_dict) (name : str)
  (ii : nat) (elems : list node) : option (list (proto_info * obj A)) :=
  match elems with
  | [] => Some []
  | e :: elems' =>
      match info_item rec name ii e, info_items rec name (S ii) elems' with
      | Some x, Some xs => Some (x :: xs)
      | _, _ => None
      end
  end.

(** The AttrProtoList of one field. *)
Definition info_list (rec : node -> option attr_dict) (name : str)
  (elems : list node) : option attr_list :=
  match info_items rec name 0 elems with
  | Some xs =>
      let data :=
        map (fun af => (fst af, collect (fst af) (map snd xs))) attributes in
      Some {| values := map fst xs;
              data := data;
              total :=
                map (fun af =>
                       (fst af,
                        aggregator (snd af) (lit "list")
                          (collect (fst af) (map snd xs))))
                    attributes |}
  | None => None
  end.

(** The AttrProtoDict built from the AttrProtoLists of the fields. *)
Definition info_dict (lists : obj attr_list) : attr_dict :=
  {| values := lists;
     data :=
       map (fun af => (fst af, collect (fst af) (map (fun nl => total (snd nl)) lists)))
           attributes;
     total :=
       map (fun af =>
              (fst af,
               aggregator (snd af) (lit "map")
                 (collect (fst af) (map (fun nl => total (snd nl)) lists))))
           attributes |}.

Fixpoint all_some {T} (l : list (str * option T)) : option (obj T) :=
  match l with
  | [] => Some []
  | (k, Some v) :: l' =>
      match all_some l' with
      | Some r => Some ((k, v) :: r)
      | None => None
      end
  | (_, None) :: _ => None
  end.

(** The elements [x[0] .. x[x.length - 1]] of an element [x] of an array,
    which the loop over [proto[name]] walks when [proto] is an array: the
    one-unit strings of a string, the elements of an array, nothing for
    an object without a field [length].  For an object with such a
    field the bound of the loop is the number conversion of an array;
    the model stops there ([None]). *)
Definition indexed_fields (rec : node -> option attr_dict)
  (items : list node) : list (str * option attr_list) :=
  (fix walk (i : nat) (l : list node) : list (str * option attr_list) :=
     match l with
     | [] => []
     | x :: l' =>
         let name := number_to_string (N.of_nat i) in
         (name,
          match x with
          | Scalar s =>
              info_list (fun _ => None) name (map (fun c => Scalar [c]) s)
          | Arr a => info_list rec name a
          | Object o =>
              if obj_has (lit "length") o then None
              else info_list rec name []
          end) :: walk (S i) l'
     end) 0 items.

Fixpoint make_proto_info (proto : node) : option attr_dict :=
  match proto with
  | Object fields =>
      match all_some
              (map (fun kv =>
                      (fst kv, info_list make_proto_info (fst kv) (snd kv)))
                   fields) with
      | Some lists => Some (info_dict lists)
      | None => None
      end
  | Arr items =>
      match all_some (indexed_fields make_proto_info items) with
      | Some lists => Some (info_dict lists)
      | None => None
      end
  | Scalar s =>
      match all_some
              (indexed_fields (fun _ => None) (map (fun c => Scalar [c]) s))
      with
      | Some lists => Some (info_dict lists)
      | None => None
      end
  end.

End ProtoInfo.

Definition depth_attribute : attribute nat :=
  {| leaf_function := fun _ _ _ => 0;
     aggregator := fun name infos =>
       fold_left
         (fun depth val =>
            let val := if eqs name (lit "map") then val + 1 else val in
            if depth <? val then val else depth)
         infos 0 |}.

Definition get_depth_info (proto : ProtoObject) : option (attr_dict nat) :=
  make_proto_info [(lit "depth", depth_attribute)] (Object proto).

(* ------------------------------------------------------------------ *)
(** * Tree transforms *)

(** The body of [filter_proto]; [rec] is the recursive call on a
    sub-proto.  [new_proto[key] = []] followed by the pushes of the inner
    loop sets [key] to the list of the pushed elements. *)
Definition filter_fields (rec : node -> node)
  (should_filter_func : str -> bool) (proto : ProtoObject) : ProtoObject :=
  fold_left
    (fun new_proto kv =>
       if should_filter_func (fst kv) then new_proto
       else obj_set (fst kv)
              (map (fun e => if is_sub_proto e then rec e else e) (snd kv))
              new_proto)
    proto [].

Fixpoint filter_node (should_filter_func : str -> bool) (x : node) : node :=
  match x with
  | Object proto =>
      Object (filter_fields (filter_node should_filter_func)
                should_filter_func proto)
  | _ => x
  end.

Definition filter_proto (proto : ProtoObject) (should_filter_func : str -> bool)
  : ProtoObject :=
  filter_fields (filter_node should_filter_func) should_filter_func proto.

(** The body of [proto_slice]; [rec] is the recursive call on a sub-proto.
    Both pushes throw on a field name that objects inherit. *)
Definition slice_fields (rec : node -> outcome node)
  (should_keep_slice_func : str -> node -> bool) (proto : ProtoObject)
  : outcome ProtoObject :=
  fold_left
    (fun new_proto kv =>
       fold_left
         (fun new_proto e =>
            match new_proto with
            | TypeError => TypeError
            | Returns new_proto =>
                if is_sub_proto e then
                  match rec e with
                  | Returns sub => obj_push (fst kv) sub new_proto
                  | TypeError => TypeError
                  end
                else if should_keep_slice_func (fst kv) e
                     then obj_push (fst kv) e new_proto
                     else Returns new_proto
            end)
         (snd kv) new_proto)
    proto (Returns []).

Fixpoint slice_node (should_keep_slice_func : str -> node -> bool) (x : node)
  : outcome node :=
  match x with
  | Object proto =>
      match slice_fields (slice_node should_keep_slice_func)
              should_keep_slice_func proto with
      | Returns new_proto => Returns (Object new_proto)
      | TypeError => TypeError
      end
  | _ => Returns x
  end.

Definition proto_slice (proto : ProtoObject)
  (should_keep_slice_func : str -> node -> bool) : outcome ProtoObject :=
  slice_fields (slice_node should_keep_slice_func) should_keep_slice_func proto.

(* ------------------------------------------------------------------ *)
(** * Serializer *)

(** String conversion of a list element, as in [str += proto[key][ii][jj]]. *)
Fixpoint to_string (x : node) : str :=
  match x with
  | Scalar s => s
  | Object _ => lit "[object Object]"
  | Arr items =>
      (fix join (l : list node) : str :=
         match l with
         | [] => []
         | y :: l' =>
             to_string y
             ++ match l' with [] => [] | _ => lit "," ++ join l' end
         end) items
  end.

(** The loop over [jj] of [format]. *)
Fixpoint format_items (items : list node) : str :=
  match items with
  | [] => []
  | x :: items' =>
      to_string x
      ++ (match items' with [] => [] | _ => lit ", " end)
      ++ format_items items'
  end.

(** What [format] appends for one element after the field name; [rec] is
    the recursive call with the deeper indent. *)
Definition format_elem (rec : node -> str) (flat : bool) (indent : str)
  (e : node) : str :=
  match e with
  | Arr items => lit ": [ " ++ format_items items ++ lit " ]"
  | Object _ =>
      lit " { " ++ (if flat then [] else newline) ++ rec e
      ++ (if flat then [] else indent) ++ lit " }"
  | Scalar s => lit ": " ++ s
  end.

(** The loop over [ii] of [format]. *)
Fixpoint format_seq (rec : node -> str) (flat : bool) (indent key : str)
  (elems : list node) : str :=
  match elems with
  | [] => []
  | e :: elems' =>
      (if flat then [] else indent) ++ key ++ format_elem rec flat indent e
      ++ (match elems' with
          | [] => []
          | _ => if flat then lit " " else newline
          end)
      ++ format_seq rec flat indent key elems'
  end.

(** The loop over [key] of [format]. *)
Fixpoint format_fields (rec : node -> str) (flat : bool) (indent : str)
  (proto : ProtoObject) : str :=
  match proto with
  | [] => []
  | (key, elems) :: proto' =>
      format_seq rec flat indent key elems
      ++ (if flat then lit " " else newline)
      ++ format_fields rec flat indent proto'
  end.

Fixpoint format_node (flat : bool) (x : node) (indent : str) : str :=
  match x with
  | Object proto =>
      format_fields (fun e => format_node flat e (indent ++ lit "  "))
        flat indent proto
  | _ => []
  end.

Definition format (proto : ProtoObject) (flat : bool) (indent : option str) : str :=
  let indent := match indent with Some i => i | None => [] end in
  format_fields (fun e => format_node flat e (indent ++ lit "  "))
    flat indent proto.

(* ------------------------------------------------------------------ *)
(** * The expand attribute *)

(** The attribute of [get_expand_info]; [match(str, pattern)] is
    [str == pattern]. *)
Definition expand_attribute (pattern : str) : attribute bool :=
  {| leaf_function := fun name _ value => eqs name pattern || eqs value pattern;
     aggregator := fun name infos =>
       if existsb (fun info => info) infos then true else eqs name pattern |}.

Definition get_expand_info (proto : ProtoObject) (pattern : str)
  : option (attr_dict bool) :=
  make_proto_info [(lit "expand", expand_attribute pattern)] (Object proto).

(* ------------------------------------------------------------------ *)
(** * Renaming and splicing fields *)

(** The [paths] argument of [convert]: under a field name, the new name
    of the field ([None] for [null]: drop this level of the tree) and the
    paths for the elements of the field. *)
Inductive paths : Type :=
  | Paths (entries : obj (option str * paths)).

Definition entries_of (p : paths) : obj (option str * paths) :=
  match p with Paths entries => entries end.

(** [convert_list]; [rec] is the call of [convert] on an element with the
    same paths. *)
Definition convert_list_with (rec : node -> option (outcome node))
  (items : list node) : option (outcome (list node)) :=
  fold_left
    (fun retval e =>
       match retval with
       | Some (Returns l) =>
           if is_object e then
             match rec e with
             | Some (Returns c) => Some (Returns (l ++ [c]))
             | Some TypeError => Some TypeError
             | None => None
             end
           else Some (Returns (l ++ [e]))
       | stopped => stopped
       end)
    items (Some (Returns [])).

(** The loop over [newlist] for a [null] path: the fields of the objects
    are set on [retval], the strings are dropped.  A converted list holds
    no array. *)
Definition splice (newlist : list node) (retval : ProtoObject) : ProtoObject :=
  fold_left
    (fun retval e =>
       match e with
       | Object fields =>
           fold_left (fun retval kv => obj_set (fst kv) (snd kv) retval)
             fields retval
       | _ => retval
       end)
    newlist retval.

(** The loop of [convert]; [rec] is the recursive call through
    [convert_list], and [p] is [None] when [paths] is undefined: the test
    [key in paths] then throws a TypeError.  For a name that [paths]
    inherits and does not have as an entry of its own, [key in paths] is
    true and [paths[key]] is the inherited member, whose elements [0] and
    [1] are undefined: the field is set under the name [undefined], and
    its elements are converted with undefined paths. *)
Definition convert_fields (rec : option paths -> node -> option (outcome node))
  (p : option paths) (proto : ProtoObject) : option (outcome ProtoObject) :=
  fold_left
    (fun retval kv =>
       match retval with
       | Some (Returns retval) =>
           match p with
           | None => Some TypeError
           | Some (Paths entries) =>
               match obj_get (fst kv) entries with
               | Some (Some name, sub) =>
                   match convert_list_with (rec (Some sub)) (snd kv) with
                   | Some (Returns l) => Some (Returns (obj_set name l retval))
                   | Some TypeError => Some TypeError
                   | None => None
                   end
               | Some (None, sub) =>
                   match convert_list_with (rec (Some sub)) (snd kv) with
                   | Some (Returns newlist) =>
                       Some (Returns (splice newlist retval))
                   | Some TypeError => Some TypeError
                   | None => None
                   end
               | None =>
                   if inherited (fst kv) then
                     match convert_list_with (rec None) (snd kv) with
                     | Some (Returns l) =>
                         Some (Returns (obj_set (lit "undefined") l retval))
                     | Some TypeError => Some TypeError
                     | None => None
                     end
                   else Some (Returns (obj_set (fst kv) (snd kv) retval))
               end
           end
       | stopped => stopped
       end)
    proto (Some (Returns [])).

(** [convert] on an element of a list.  An array is an object for
    [is_object]: [for (key in proto)] enumerates its indices, so an empty
    array gives the empty object, and an array with elements throws when
    the paths are undefined and gives otherwise an object that maps the
    indices to the elements, which is not a ProtoObject: the model stops
    there ([None]), as it does for a string, on which [convert_list] does
    not call [convert]. *)
Fixpoint convert_node (x : node) (p : option paths) {struct x}
  : option (outcome node) :=
  match x with
  | Object proto =>
      match convert_fields (fun sub e => convert_node e sub) p proto with
      | Some (Returns retval) => Some (Returns (Object retval))
      | Some TypeError => Some TypeError
      | None => None
      end
  | Arr [] => Some (Returns (Object []))
  | Arr (_ :: _) =>
      match p with
      | None => Some TypeError
      | Some _ => None
      end
  | Scalar _ => None
  end.

Definition convert (proto : ProtoObject) (p : paths)
  : option (outcome ProtoObject) :=
  convert_fields (fun sub e => convert_node e sub) (Some p) proto.

Definition convert_list (items : list node) (p : paths)
  : option (outcome (list node)) :=
  convert_list_with (fun e => convert_node e (Some p)) items.

Definition discourse_paths : paths :=
  Paths
    [(lit "dialog_turn_intent",
      (Some (lit "dialog_context"),
       Paths
         [(lit "user_turn_feature",
           (Some (lit "dialog_feature"),
            Paths [(lit "feature_name", (Some (lit "name"), Paths []));
                   (lit "feature_weight", (Some (lit "value"), Paths []))]));
          (lit "[quality.dialog_manager.DialogCoreConfig.dialog_core_config]",
           (None,
            Paths [(lit "user_turn_field",
                    (Some (lit "dialog_field"), Paths []))]));
          (lit "advance", (None, Paths []));
          (lit "conversation_id", (None, Paths []));
          (lit "initial_trigger", (None, Paths []));
          (lit "issued_system_turn_count", (None, Paths []))]))].

Definition discourse_convert (proto : ProtoObject)
  : option (outcome ProtoObject) :=
  convert proto discourse_paths.

(* ------------------------------------------------------------------ *)
(** * Searching by pattern *)

(** [s.toLowerCase()] for a string of ASCII characters: the letters [A]
    to [Z] become [a] to [z].  The case mapping of the other characters
    is outside the model ([None]). *)
Definition is_ascii (s : str) : bool := forallb (fun c => N.ltb c 128) s.

Definition lower_unit (c : N) : N :=
  if in_range 65 90 c then (c + 32)%N else c.

Definition toLowerCase (s : str) : option str :=
  if is_ascii s then Some (map lower_unit s) else None.

(** [s.includes(pattern)] *)
Fixpoint starts_with (pattern s : str) : bool :=
  match pattern, s with
  | [], _ => true
  | x :: pattern', y :: s' => N.eqb x y && starts_with pattern' s'
  | _ :: _, [] => false
  end.

Fixpoint includes (s pattern : str) : bool :=
  starts_with pattern s
  || match s with
     | [] => false
     | _ :: s' => includes s' pattern
     end.

Definition matches_pattern (string pattern : str) (case_sensitive : bool)
  : option bool :=
  if case_sensitive then Some (includes string pattern)
  else
    match toLowerCase string, toLowerCase pattern with
    | Some s, Some p => Some (includes s p)
    | _, _ => None
    end.

(** The keys [0], [1], ... of a string or of an array, each with its
    value. *)
Definition indexed {T} (l : list T) : list (str * T) :=
  (fix walk (i : nat) (l : list T) : list (str * T) :=
     match l with
     | [] => []
     | x :: l' => (number_to_string (N.of_nat i), x) :: walk (S i) l'
     end) 0 l.

(** The elements [x[0] .. x[x.length - 1]] of a value [x], as the loop
    over [proto[key]] of [format] walks them: the one-unit strings of a
    string, the elements of an array, nothing for an object without a
    field [length] (with such a field the model stops, as in
    [make_proto_info]). *)
Definition elements_of (x : node) : option (list node) :=
  match x with
  | Scalar s => Some (map (fun c => Scalar [c]) s)
  | Arr a => Some a
  | Object o => if obj_has (lit "length") o then None else Some []
  end.

(** What [for (key in proto)] and [proto[key]] give when [format] is
    called on a value that is not a ProtoObject: the indices of a string
    or of an array, each with the elements of the value at that index. *)
Definition as_proto (val : node) : option ProtoObject :=
  match val with
  | Object o => Some o
  | Scalar s => Some (indexed (map (fun c => [Scalar [c]]) s))
  | Arr items => all_some (indexed (map elements_of items))
  end.

(** [format(val)], with [flat] and [indent] undefined. *)
Definition format_value (val : node) : option str :=
  match as_proto val with
  | Some proto => Some (format proto false None)
  | None => None
  end.

(** The function that [slice_by_pattern] passes to [proto_slice]. *)
Definition matches_formatted (pattern : str) (name : str) (val : node)
  : option bool :=
  match format_value val with
  | Some text => matches_pattern text pattern false
  | None => None
  end.

(** The calls of [should_keep_slice_func] that [proto_slice] makes, or
    would make if no push threw, all stay inside the model. *)
Fixpoint calls_modelled (keep : str -> node -> option bool) (x : node)
  : bool :=
  match x with
  | Object proto =>
      forallb (fun kv =>
                 forallb (fun e => match e with
                                   | Object _ => calls_modelled keep e
                                   | _ => is_defined (keep (fst kv) e)
                                   end) (snd kv)) proto
  | _ => true
  end.

Definition slice_by_pattern (proto : ProtoObject) (pattern : str)
  : option (outcome ProtoObject) :=
  if calls_modelled (matches_formatted pattern) (Object proto) then
    Some (proto_slice proto
            (fun name val =>
               match matches_formatted pattern name val with
               | Some b => b
               | None => false
               end))
  else None.
(* ------------------------------------------------------------------ *)
(** * Example inputs *)

Definition quoted (s : string) : str := dquote ++ lit s ++ dquote.

(** [a: 1 b: "x" ] *)
Definition text_ab : str := lit "a: 1 b: " ++ quoted "x" ++ lit " ".

(** A quoted string with an escaped quote inside, followed by [ c]:
    the quote, [a], a backslash, the quote, [b], the quote. *)
Definition text_escaped : str :=
  dquote ++ lit "a" ++ backslash ++ dquote ++ lit "b" ++ dquote ++ lit " c".


(** [a { b: 1 } a { b: 2 }] *)
Definition text_repeated : str := lit "a { b: 1 } a { b: 2 }".

(** [a: [1, 2, 3]] *)
Definition text_list : str := lit "a: [1, 2, 3]".

(** An opening bracket, then a string that is never closed. *)
Definition text_bad_list : str := lit "[" ++ dquote ++ lit "abc".

(** [info.total.depth] of [get_depth_info(proto)] *)
Definition depth_total (proto : ProtoObject) : option nat :=
  match get_depth_info proto with
  | Some info => obj_get (lit "depth") (total info)
  | None => None
  end.

(** All the elements of all the fields are strings. *)
Definition scalars_only (proto : ProtoObject) : bool :=
  forallb (fun kv => forallb (fun e => negb (is_object e)) (snd kv)) proto.

(** One round of the loop of the depth aggregator. *)
Definition depth_step (name : str) (depth val : nat) : nat :=
  let val := if eqs name (lit "map") then val + 1 else val in
  if depth <? val then val else depth.

(** The attributes argument that [get_depth_info] passes on. *)
Definition depth_attrs : obj (attribute nat) :=
  [(lit "depth", depth_attribute)].

(** [{a: ["1"]}] *)
Definition tree_a1 : ProtoObject := [(lit "a", [Scalar (lit "1")])].

(** [{a: [{b: ["1"]}]}] *)
Definition tree_a_b1 : ProtoObject :=
  [(lit "a", [Object [(lit "b", [Scalar (lit "1")])]])].

(* ------------------------------------------------------------------ *)
(** * Objects as they are enumerated *)

(** [key_before a b]: when [a] was inserted before [b], [a] is still
    enumerated before [b]. *)
Definition key_before (a b : str) : bool :=
  match array_index a, array_index b with
  | Some x, Some y => N.ltb x y
  | Some _, None => true
  | None, Some _ => false
  | None, None => negb (eqs a b)
  end.

(** The keys are listed in the order of [for (key in obj)]: array
    indices ascending, then the other keys, without repetition. *)
Fixpoint ordered (keys : list str) : bool :=
  match keys with
  | [] => true
  | k :: keys' => forallb (key_before k) keys' && ordered keys'
  end.

(** Every object of the tree lists its fields in enumeration order. *)
Fixpoint tree_ok (x : node) : bool :=
  match x with
  | Scalar _ => true
  | Object fields =>
      ordered (map fst fields)
      && forallb (fun kv => forallb tree_ok (snd kv)) fields
  | Arr items => forallb tree_ok items
  end.

(** The filter as the specification words it: the fields whose name the
    predicate rejects are left out, the others stay in their order, their
    elements in their order, sub-objects filtered in turn and all other
    elements unchanged. *)
Fixpoint filter_spec_fields (rec : node -> node) (p : str -> bool)
  (T : ProtoObject) : ProtoObject :=
  match T with
  | [] => []
  | (key, elems) :: T' =>
      if p key then filter_spec_fields rec p T'
      else (key, map rec elems) :: filter_spec_fields rec p T'
  end.

Fixpoint filter_spec_node (p : str -> bool) (x : node) : node :=
  match x with
  | Object T => Object (filter_spec_fields (filter_spec_node p) p T)
  | _ => x
  end.


(** Some field reached through fields and their object-valued elements
    has a name that satisfies [p]. *)
Fixpoint has_field (p : str -> bool) (x : node) : bool :=
  match x with
  | Object T => existsb (fun kv => p (fst kv) || existsb (has_field p) (snd kv)) T
  | _ => false
  end.

(** The same, looking into the elements of arrays as well. *)
Fixpoint has_field_anywhere (p : str -> bool) (x : node) : bool :=
  match x with
  | Object T =>
      existsb (fun kv => p (fst kv) || existsb (has_field_anywhere p) (snd kv)) T
  | Arr items => existsb (has_field_anywhere p) items
  | Scalar _ => false
  end.



(** [b: [{c: 2}]] and its parse [{b: [[{c: ["2"]}]]}] *)
Definition text_list_of_objects : str := lit "b: [{c: 2}]".

Definition tree_list_of_objects : ProtoObject :=
  [(lit "b", [Arr [Object [(lit "c", [Scalar (lit "2")])]]])].

(* ------------------------------------------------------------------ *)
(** * Fuel *)

(** What [obj_push] returns when it does not throw: the push on an own
    field, made first when it is missing. *)
Definition own_push {V} (key : str) (v : V) (o : obj (list V))
  : obj (list V) :=
  let o := if negb (obj_has key o) then obj_set key [] o else o in
  obj_update key (fun l => l ++ [v]) o.

(** The value of a call that has returned. *)
Definition returned_value (r : option (outcome (result node)))
  : option node :=
  match r with
  | Some (Returns res) => Some (value res)
  | _ => None
  end.

(** The call ends: it throws, or it returns at a position that is not
    before [ii]. *)
Definition ends (ii : nat) (r : option (outcome (result node))) : Prop :=
  exists o, r = Some o
            /\ match o with
               | Returns res => ii <= position res
               | TypeError => True
               end.

(** How much fuel each function needs at a position. *)
Definition total_at (text : str) (ff : option (str -> bool)) (fuel : nat)
  : Prop :=
  (forall ii, 4 * (length text - ii) + 1 <= fuel ->
              ends ii (parse_value fuel text ii ff))
  /\ (forall ii,
         (eqs (charAt text (consume_comments text ii)) (lit "{") = true
          /\ 4 * (length text - consume_comments text ii) <= fuel)
         \/ 4 * (length text - consume_comments text ii) + 4 <= fuel ->
         ends ii (parse_proto fuel text ii ff))
  /\ (forall ii, 4 * (length text - ii) + 3 <= fuel ->
                 ends ii (parse_body fuel text ii ff))
  /\ (forall ii fields, 4 * (length text - ii) + 2 <= fuel ->
                        ends ii (parse_body_loop fuel text ff ii fields))
  /\ (forall ii,
         (eqs (charAt text ii) (lit "[") = true
          /\ 4 * (length text - ii) <= fuel)
         \/ 4 * (length text - ii) + 3 <= fuel ->
         ends ii (parse_list fuel text ii ff))
  /\ (forall ii items, 4 * (length text - ii) + 2 <= fuel ->
                       ends ii (parse_list_loop fuel text ff ii items)).

(** More fuel gives the same result. *)
Definition mono_at (text : str) (ff : option (str -> bool)) (fuel : nat)
  : Prop :=
  (forall ii r, parse_value fuel text ii ff = Some r ->
                parse_value (S fuel) text ii ff = Some r)
  /\ (forall ii r, parse_proto fuel text ii ff = Some r ->
                   parse_proto (S fuel) text ii ff = Some r)
  /\ (forall ii r, parse_body fuel text ii ff = Some r ->
                   parse_body (S fuel) text ii ff = Some r)
  /\ (forall ii fields r, parse_body_loop fuel text ff ii fields = Some r ->
                          parse_body_loop (S fuel) text ff ii fields = Some r)
  /\ (forall ii r, parse_list fuel text ii ff = Some r ->
                   parse_list (S fuel) text ii ff = Some r)
  /\ (forall ii items r, parse_list_loop fuel text ff ii items = Some r ->
                         parse_list_loop (S fuel) text ff ii items = Some r).

(* ------------------------------------------------------------------ *)
(** * The rounds of the body loop *)

(** The rounds of the loop of [parse_body] that reach [parse_value]: the
    name read and the result of [parse_value], round after round. *)
Fixpoint body_rounds (fuel : nat) (text : str)
  (filter_func : option (str -> bool)) (ii : nat)
  : list (str * result node) :=
  match fuel with
  | 0 => []
  | S fuel =>
      if (ii <? length text) && negb (eqs (charAt text ii) (lit "}")) then
        let old_ii := ii in
        let ii := consume_comments text ii in
        let name := parse_token text ii true in
        match error name with
        | Some _ => []
        | None =>
            let ii := position name in
            let ii := consume_comments text ii in
            let ii := if eqs (charAt text ii) (lit ":") then S ii else ii in
            let ii := consume_comments text ii in
            match parse_value fuel text ii filter_func with
            | Some (Returns val) =>
                let ii := if position val =? 0 then ii else position val in
                let ii := consume_comments text ii in
                (value name, val)
                :: match error val with
                   | Some _ => []
                   | None =>
                       let ii :=
                         if eqs (charAt text ii) (lit ",")
                         then consume_comments text (S ii) else ii in
                       if ii =? old_ii then []
                       else body_rounds fuel text filter_func ii
                   end
            | _ => []
            end
        end
      else []
  end.

(** What one round does to the object under construction when its push
    does not throw. *)
Definition push_round (filter_func : option (str -> bool))
  (fields : ProtoObject) (round : str * result node) : ProtoObject :=
  if keeps filter_func (fst round)
  then own_push (fst round) (value (snd round)) fields
  else fields.

(** The sequence of a field, empty when the field is absent. *)
Definition field_values (name : str) (fields : ProtoObject) : list node :=
  match obj_get name fields with
  | Some l => l
  | None => []
  end.

(** Where the body of a proto starts. *)
Definition body_start (text : str) (ii : nat) : nat :=
  let ii := consume_comments text ii in
  if eqs (charAt text ii) (lit "{") then S ii else ii.


(** The rounds of the body loop of [parse_proto(text, ii, filter_func)]. *)
Definition proto_rounds (text : str) (ii : nat)
  (filter_func : option (str -> bool)) : list (str * result node) :=
  body_rounds (fuel_for text) text filter_func (body_start text ii).

(** [a: 1 b: {c: 2]: the value of [b] misses its closing brace. *)
Definition text_unclosed : str := lit "a: 1 b: {c: 2".

(** [constructor: 1 constructor: 2]: a repeated field whose name every
    object inherits. *)
Definition text_constructor : str := lit "constructor: 1 constructor: 2".

(** [valueOf: {a: 1]: a value that misses its closing brace, under a name
    that every object inherits. *)
Definition text_value_of : str := lit "valueOf: {a: 1".

(* ------------------------------------------------------------------ *)
(** * The shape of a text *)

(** A character on which [consume_comments] stops. *)
Definition stop_char (c : N) : bool := negb (is_space c) && negb (N.eqb c 35).

(** The text is over or goes on with a character that satisfies [p]. *)
Definition starts (p : N -> bool) (rest : str) : bool :=
  match rest with
  | [] => true
  | c :: _ => p c
  end.

(** [rest] runs up to its first unescaped quote [q], which is its last
    character. *)
Fixpoint closes_at_end (q : N) (rest : str) (escape : bool) : bool :=
  match rest with
  | [] => false
  | c :: rest' =>
      if negb escape && N.eqb c q
      then match rest' with [] => true | _ => false end
      else closes_at_end q rest' (negb escape && N.eqb c 92)
  end.

(** A complete quoted string: a quote, then the text up to the first
    unescaped occurrence of the same quote. *)
Definition quoted_ok (s : str) : bool :=
  match s with
  | q :: rest => (N.eqb q 34 || N.eqb q 39) && closes_at_end q rest false
  | [] => false
  end.

(** What [parse_token] returns without error: a run of the character
    class or a complete quoted string. *)
Definition lexeme (regexp : N -> bool) (s : str) : bool :=
  forallb regexp s || quoted_ok s.

Definition nonempty {T} (l : list T) : bool :=
  match l with [] => false | _ => true end.

Definition token_class (should_include_brackets : bool) : N -> bool :=
  if should_include_brackets then name_re else token_re.

(** A scalar that [format] and the parser agree on. *)
Definition scalar_ok (x : node) : bool :=
  match x with
  | Scalar s => lexeme token_re s && nonempty s
  | _ => false
  end.

(** The text from one element of a list to the closing bracket. *)
Fixpoint list_tail (items : list node) : str :=
  match items with
  | [] => []
  | x :: items' =>
      to_string x
      ++ (match items' with [] => lit " " | _ => lit ", " end)
      ++ list_tail items'
  end.

(* ------------------------------------------------------------------ *)
(** * Printed trees *)

(** The elements of a tree in the order in which [format] prints them,
    each with the name of its field. *)
Definition flatten (T : ProtoObject) : list (str * node) :=
  flat_map (fun kv => map (pair (fst kv)) (snd kv)) T.

(** The pushes of the body loop for a list of named elements, none of
    which throws. *)
Definition push_all (items : list (str * node)) (acc : ProtoObject)
  : ProtoObject :=
  fold_left (fun o ke => own_push (fst ke) (snd ke) o) items acc.

(** A field that the serializer prints and the parser reads back: a
    non-empty name that objects do not inherit, a non-empty sequence. *)
Definition field_ok (elem_ok : node -> bool) (kv : str * list node) : bool :=
  lexeme name_re (fst kv) && nonempty (fst kv)
  && nonempty (snd kv) && forallb elem_ok (snd kv)
  && negb (inherited (fst kv)).

(** An element that the serializer prints and the parser reads back: a
    non-empty scalar, a list of such scalars, or an object with at least
    one field, whose fields are in enumeration order and printable. *)
Fixpoint printable (x : node) : bool :=
  match x with
  | Scalar s => lexeme token_re s && nonempty s
  | Arr items => forallb scalar_ok items
  | Object fields =>
      nonempty fields && ordered (map fst fields)
      && forallb (field_ok printable) fields
  end.

Definition proto_printable (T : ProtoObject) : bool :=
  ordered (map fst T) && forallb (field_ok printable) T.

(** What [format] prints between a name and its element, the element
    itself, and a whole line. *)
Definition separator (e : node) : str :=
  match e with
  | Object _ => lit " "
  | _ => lit ": "
  end.

Definition val_text (indent : str) (e : node) : str :=
  match e with
  | Scalar s => s
  | Arr items => lit "[ " ++ format_items items ++ lit " ]"
  | Object _ =>
      lit "{ " ++ newline ++ format_node false e (indent ++ lit "  ")
      ++ indent ++ lit " }"
  end.

Definition line (ws indent : str) (ke : str * node) : str :=
  ws ++ fst ke ++ separator (snd ke) ++ val_text indent (snd ke) ++ newline.

Definition lines (indent : str) (items : list (str * node)) : str :=
  concat (map (line indent indent) items).

(** The lines of [items], the first one after the white space [ws]
    instead of the indent. *)
Definition body_text (ws indent : str) (items : list (str * node)) : str :=
  match items with
  | [] => []
  | ke :: items' => line ws indent ke ++ lines indent items'
  end.


(** A named element that is printed and read back. *)
Definition item_ok (ke : str * node) : bool :=
  lexeme name_re (fst ke) && nonempty (fst ke) && printable (snd ke)
  && negb (inherited (fst ke)).

(** [parse_value] reads the printed element [e] back, whatever the text
    around it: when the call ends, it has returned [e]. *)
Definition reads_back (e : node) : Prop :=
  forall indent fuel text ii ws rest r,
    printable e = true -> forallb is_space indent = true ->
    skipn ii text = val_text indent e ++ ws ++ rest ->
    forallb is_space ws = true -> starts stop_char rest = true ->
    starts (fun c => negb (token_re c)) (ws ++ rest) = true ->
    parse_value fuel text ii None = Some r ->
    exists p,
      r = Returns {| value := e; position := p; error := None |}
      /\ ii + length (val_text indent e) <= p
      /\ consume_comments text p
         = ii + length (val_text indent e) + length ws.

(* ------------------------------------------------------------------ *)
(** * Parsed trees *)

(** What holds of every field that the parser builds. *)
Definition field_parsed (elem_ok : node -> bool) (kv : str * list node)
  : bool :=
  lexeme name_re (fst kv) && nonempty (snd kv) && forallb elem_ok (snd kv)
  && negb (inherited (fst kv)).

(** What holds of every value that the parser returns without error:
    names and scalars are lexemes, no name is one that objects inherit,
    objects list their fields in enumeration order and no field has an
    empty sequence. *)
Fixpoint parsed (x : node) : bool :=
  match x with
  | Scalar s => lexeme token_re s
  | Arr items => forallb parsed items
  | Object fields =>
      ordered (map fst fields) && forallb (field_parsed parsed) fields
  end.

(** The trees on which printing and parsing agree: no empty name, no
    empty scalar, no nested object without a field, and only scalars in
    lists. *)
Definition plain_scalar (x : node) : bool :=
  match x with
  | Scalar s => nonempty s
  | _ => false
  end.

Definition field_plain (elem_ok : node -> bool) (kv : str * list node)
  : bool :=
  nonempty (fst kv) && forallb elem_ok (snd kv).

Fixpoint plain (x : node) : bool :=
  match x with
  | Scalar s => nonempty s
  | Arr items => forallb plain_scalar items
  | Object fields => nonempty fields && forallb (field_plain plain) fields
  end.

Definition plain_proto (T : ProtoObject) : bool :=
  forallb (field_plain plain) T.

(** Without error, the parser returns parsed values. *)
Definition parsed_at (text : str) (ff : option (str -> bool)) (fuel : nat)
  : Prop :=
  (forall ii r, parse_value fuel text ii ff = Some (Returns r) ->
                error r = None -> parsed (value r) = true)
  /\ (forall ii r, parse_proto fuel text ii ff = Some (Returns r) ->
                   error r = None -> parsed (value r) = true)
  /\ (forall ii r, parse_body fuel text ii ff = Some (Returns r) ->
                   error r = None -> parsed (value r) = true)
  /\ (forall ii fields r,
         parse_body_loop fuel text ff ii fields = Some (Returns r) ->
         parsed (Object fields) = true ->
         error r = None -> parsed (value r) = true)
  /\ (forall ii r, parse_list fuel text ii ff = Some (Returns r) ->
                   parsed (value r) = true)
  /\ (forall ii items r,
         parse_list_loop fuel text ff ii items = Some (Returns r) ->
         forallb parsed items = true -> parsed (value r) = true).



(** [x { y: 1 } x: [2, 3] z: 'p q'] and its parse *)
Definition text_mixed : str := lit "x { y: 1 } x: [2, 3] z: 'p q'".

Definition tree_mixed : ProtoObject :=
  [(lit "x", [Object [(lit "y", [Scalar (lit "1")])];
              Arr [Scalar (lit "2"); Scalar (lit "3")]]);
   (lit "z", [Scalar (lit "'p q'")])].

(* ------------------------------------------------------------------ *)
(** * Positions inside the text *)

(** A call from [ii] returns a position up to the end of the text (up to
    [ii] itself when [ii] is already past the end). *)
Definition within (text : str) (ii : nat)
  (r : option (outcome (result node))) : Prop :=
  forall res, r = Some (Returns res) ->
              position res <= Nat.max ii (length text).

Definition bounded_at (text : str) (ff : option (str -> bool)) (fuel : nat)
  : Prop :=
  (forall ii, within text ii (parse_value fuel text ii ff))
  /\ (forall ii, within text ii (parse_proto fuel text ii ff))
  /\ (forall ii, within text ii (parse_body fuel text ii ff))
  /\ (forall ii fields,
         within text ii (parse_body_loop fuel text ff ii fields))
  /\ (forall ii, within text ii (parse_list fuel text ii ff))
  /\ (forall ii items,
         within text ii (parse_list_loop fuel text ff ii items)).

(* ------------------------------------------------------------------ *)
(** * Well-formed trees *)

(** Every object lists its fields in enumeration order, without
    repetition, and no field has an empty sequence. *)
Fixpoint well_formed (x : node) : bool :=
  match x with
  | Scalar _ => true
  | Arr items => forallb well_formed items
  | Object fields =>
      ordered (map fst fields)
      && forallb (fun kv => nonempty (snd kv) && forallb well_formed (snd kv))
           fields
  end.

(** Whatever the parser returns is well formed, error or not. *)
Definition well_formed_at (text : str) (ff : option (str -> bool))
  (fuel : nat) : Prop :=
  (forall ii r, parse_value fuel text ii ff = Some (Returns r) ->
                well_formed (value r) = true)
  /\ (forall ii r, parse_proto fuel text ii ff = Some (Returns r) ->
                   well_formed (value r) = true)
  /\ (forall ii r, parse_body fuel text ii ff = Some (Returns r) ->
                   well_formed (value r) = true)
  /\ (forall ii fields r,
         parse_body_loop fuel text ff ii fields = Some (Returns r) ->
         well_formed (Object fields) = true ->
         well_formed (value r) = true)
  /\ (forall ii r, parse_list fuel text ii ff = Some (Returns r) ->
                   well_formed (value r) = true)
  /\ (forall ii items r,
         parse_list_loop fuel text ff ii items = Some (Returns r) ->
         forallb well_formed items = true -> well_formed (value r) = true).

(* ------------------------------------------------------------------ *)
(** * Filtering while parsing *)

(** The tree without the fields whose name satisfies [f], at every
    depth, inside lists as well. *)
Fixpoint prune (f : str -> bool) (x : node) : node :=
  match x with
  | Scalar s => Scalar s
  | Arr items => Arr (map (prune f) items)
  | Object fields => Object (filter_spec_fields (prune f) f fields)
  end.

(** The result of a call without filter, as the call with the filter [f]
    returns it. *)
Definition pruned (f : str -> bool) (r : result node) : result node :=
  {| value := prune f (value r); position := position r; error := error r |}.

Definition filtered_at (text : str) (f : str -> bool) (fuel : nat) : Prop :=
  (forall ii r, parse_value fuel text ii None = Some (Returns r) ->
                parse_value fuel text ii (Some f) = Some (Returns (pruned f r)))
  /\ (forall ii r, parse_proto fuel text ii None = Some (Returns r) ->
                   parse_proto fuel text ii (Some f) = Some (Returns (pruned f r)))
  /\ (forall ii r, parse_body fuel text ii None = Some (Returns r) ->
                   parse_body fuel text ii (Some f) = Some (Returns (pruned f r)))
  /\ (forall ii fields r,
         parse_body_loop fuel text None ii fields = Some (Returns r) ->
         well_formed (Object fields) = true ->
         parse_body_loop fuel text (Some f) ii
           (filter_spec_fields (prune f) f fields)
         = Some (Returns (pruned f r)))
  /\ (forall ii r, parse_list fuel text ii None = Some (Returns r) ->
                   parse_list fuel text ii (Some f) = Some (Returns (pruned f r)))
  /\ (forall ii items r,
         parse_list_loop fuel text None ii items = Some (Returns r) ->
         parse_list_loop fuel text (Some f) ii (map (prune f) items)
         = Some (Returns (pruned f r))).

(** No element of the tree is a list, at any depth. *)
Fixpoint no_arrays (x : node) : bool :=
  match x with
  | Scalar _ => true
  | Arr _ => false
  | Object fields => forallb (fun kv => forallb no_arrays (snd kv)) fields
  end.

(** The keys of [o] are not array indices below [n]. *)
Definition from_index (n : N) (o : ProtoObject) : bool :=
  forallb (fun kv => match array_index (fst kv) with
                     | Some m => negb (N.ltb m n)
                     | None => true
                     end) o.

(* ------------------------------------------------------------------ *)
(** * Texts without content *)

(** The text holds only white space and comments; [in_comment] tells
    whether it starts inside a comment, which runs to the end of the
    line. *)
Fixpoint blank (in_comment : bool) (text : str) : bool :=
  match text with
  | [] => true
  | c :: text' =>
      if in_comment then blank (negb (N.eqb c 10)) text'
      else if N.eqb c 35 then blank true text'
           else is_space c && blank false text'
  end.

(** A character that starts neither a name nor a value and is no
    punctuation of the format: not white space, not [#], not a character
    of a name, not a brace, a colon, a comma or a quote. *)
Definition unrecognized (c : N) : bool :=
  stop_char c && negb (name_re c)
  && negb (N.eqb c 123) && negb (N.eqb c 125) && negb (N.eqb c 58)
  && negb (N.eqb c 44) && negb (N.eqb c 34) && negb (N.eqb c 39).

(** [a: 1 } b: 2]: a closing brace that nothing opened. *)
Definition text_stray_brace : str := lit "a: 1 } b: 2".

(** [{ a: 1 } # done] *)
Definition text_braced : str := lit "{ a: 1 } # done".

(** White space and two comments. *)
Definition text_blank : str :=
  lit "  # first" ++ newline ++ lit " # second".

(** White space and comments, every comment closed by its line break:
    [in_comment] tells whether the text starts inside a comment. *)
Fixpoint gap (in_comment : bool) (text : str) : bool :=
  match text with
  | [] => negb in_comment
  | c :: text' =>
      if in_comment then gap (negb (N.eqb c 10)) text'
      else if N.eqb c 35 then gap true text'
           else is_space c && gap false text'
  end.

(** [x: 1  # one], a line break, [ # two], a line break, [y: 2] *)
Definition text_commented : str :=
  lit "x: 1  # one" ++ newline ++ lit " # two" ++ newline ++ lit "y: 2".

(* ------------------------------------------------------------------ *)
(** * Quoted strings that are not closed *)

(** No unescaped quote [q] occurs in [rest]. *)
Fixpoint open_string (q : N) (rest : str) (escape : bool) : bool :=
  match rest with
  | [] => true
  | c :: rest' =>
      if negb escape && N.eqb c q then false
      else open_string q rest' (negb escape && N.eqb c 92)
  end.

(** [n: "a\"], the closing quote escaped. *)
Definition text_open_string : str :=
  lit "n: " ++ dquote ++ lit "a" ++ backslash ++ dquote.

(* ------------------------------------------------------------------ *)
(** * Slices *)

(** What holds of every slice: through fields and their object-valued
    elements, no field has an empty sequence and every element that is
    not an object satisfies [keep] with the name of its field. *)
Fixpoint sliced (keep : str -> node -> bool) (x : node) : bool :=
  match x with
  | Object fields =>
      forallb (fun kv =>
                 nonempty (snd kv)
                 && forallb (fun e => match e with
                                      | Object _ => sliced keep e
                                      | _ => keep (fst kv) e
                                      end) (snd kv)) fields
  | _ => true
  end.

(* ------------------------------------------------------------------ *)
(** * The total of one attribute *)

Section OneAttribute.
Variable A : Type.
Variable attr : attribute A.

(** The values that the elements of a field contribute to its list. *)
Fixpoint elem_values (rec : node -> A) (name : str) (ii : nat)
  (elems : list node) : list A :=
  match elems with
  | [] => []
  | e :: elems' =>
      match e with
      | Scalar s => leaf_function attr name ii s
      | _ => rec e
      end :: elem_values rec name (S ii) elems'
  end.

(** The total of an object: the aggregate over its fields of the
    aggregates over their elements. *)
Fixpoint fold_info (x : node) : A :=
  match x with
  | Object fields =>
      aggregator attr (lit "map")
        (map (fun kv =>
                aggregator attr (lit "list")
                  (elem_values fold_info (fst kv) 0 (snd kv))) fields)
  | _ => aggregator attr (lit "map") []
  end.

End OneAttribute.

(** The number of field levels on the longest path of the tree. *)
Fixpoint levels (x : node) : nat :=
  match x with
  | Object fields =>
      list_max (map (fun kv => S (list_max (map levels (snd kv)))) fields)
  | _ => 0
  end.

(** [info.total.expand] of [get_expand_info(proto, pattern)] *)
Definition expand_total (proto : ProtoObject) (pattern : str) : option bool :=
  match get_expand_info proto pattern with
  | Some info => obj_get (lit "expand") (total info)
  | None => None
  end.

(** Some string element, reached through fields and their object-valued
    elements, equals [pattern] or stands in a field named [pattern]. *)
Fixpoint leaf_matches (pattern : str) (x : node) : bool :=
  match x with
  | Object fields =>
      existsb (fun kv =>
                 existsb (fun e => match e with
                                   | Scalar s =>
                                       eqs (fst kv) pattern || eqs s pattern
                                   | _ => leaf_matches pattern e
                                   end) (snd kv)) fields
  | _ => false
  end.

(** [{a: [{b: ["1"]}, "x"], c: [{}]}] *)
Definition tree_nested : ProtoObject :=
  [(lit "a", [Object [(lit "b", [Scalar (lit "1")])]; Scalar (lit "x")]);
   (lit "c", [Object []])].

(* ------------------------------------------------------------------ *)
(** * Converted trees *)








(** The paths that [discourse_convert] applies below [dialog_turn_intent]. *)
Definition discourse_intent_paths : paths :=
  match obj_get (lit "dialog_turn_intent") (entries_of discourse_paths) with
  | Some (_, sub) => sub
  | None => Paths []
  end.

(* ------------------------------------------------------------------ *)
(** * Characters of a tree *)

(** The character [c] occurs in a field name or in a string of the tree,
    at any depth. *)
Fixpoint mentions (c : N) (x : node) : bool :=
  match x with
  | Scalar s => existsb (N.eqb c) s
  | Arr items => existsb (mentions c) items
  | Object fields =>
      existsb (fun kv => existsb (N.eqb c) (fst kv)
                         || existsb (mentions c) (snd kv)) fields
  end.

(* ------------------------------------------------------------------ *)
(** * Pieces of the text *)

(** [s] is a contiguous piece of [text]. *)
Definition piece_of (text s : str) : bool :=
  existsb (fun i => eqs (firstn (length s) (skipn i text)) s)
    (seq 0 (S (length text))).

(** Every field name and every string of the tree is a piece of the
    text. *)
Fixpoint copied_from (text : str) (x : node) : bool :=
  match x with
  | Scalar s => piece_of text s
  | Arr items => forallb (copied_from text) items
  | Object fields =>
      forallb (fun kv => piece_of text (fst kv)
                         && forallb (copied_from text) (snd kv)) fields
  end.

Definition copied_at (text : str) (ff : option (str -> bool)) (fuel : nat)
  : Prop :=
  (forall ii r, parse_value fuel text ii ff = Some (Returns r) ->
                copied_from text (value r) = true)
  /\ (forall ii r, parse_proto fuel text ii ff = Some (Returns r) ->
                   copied_from text (value r) = true)
  /\ (forall ii r, parse_body fuel text ii ff = Some (Returns r) ->
                   copied_from text (value r) = true)
  /\ (forall ii fields r,
         parse_body_loop fuel text ff ii fields = Some (Returns r) ->
         copied_from text (Object fields) = true ->
         copied_from text (value r) = true)
  /\ (forall ii r, parse_list fuel text ii ff = Some (Returns r) ->
                   copied_from text (value r) = true)
  /\ (forall ii items r,
         parse_list_loop fuel text ff ii items = Some (Returns r) ->
         forallb (copied_from text) items = true ->
         copied_from text (value r) = true).

(** One of the names that objects inherit is a piece of the text. *)
Definition holds_inherited (text : str) : bool :=
  existsb (piece_of text) inherited_names.

(** The call ends within its fuel: it returns at a position between
    [ii] and the end of the text ([ii] itself when it is past the end),
    or it throws and the text holds a name that objects inherit. *)
Definition ends_inside (text : str) (ii : nat)
  (r : option (outcome (result node))) : Prop :=
  match r with
  | Some (Returns res) => ii <= position res <= Nat.max ii (length text)
  | Some TypeError => holds_inherited text = true
  | None => False
  end.

(** A call throws only on a text that holds an inherited name. *)
Definition thrown_at (text : str) (ff : option (str -> bool)) (fuel : nat)
  : Prop :=
  (forall ii, parse_value fuel text ii ff = Some TypeError ->
              holds_inherited text = true)
  /\ (forall ii, parse_proto fuel text ii ff = Some TypeError ->
                 holds_inherited text = true)
  /\ (forall ii, parse_body fuel text ii ff = Some TypeError ->
                 holds_inherited text = true)
  /\ (forall ii fields,
         parse_body_loop fuel text ff ii fields = Some TypeError ->
         holds_inherited text = true)
  /\ (forall ii, parse_list fuel text ii ff = Some TypeError ->
                 holds_inherited text = true)
  /\ (forall ii items,
         parse_list_loop fuel text ff ii items = Some TypeError ->
         holds_inherited text = true).

(* ------------------------------------------------------------------ *)
(** * Flat texts *)

(** What [format] prints in flat mode for an element, for a field name
    with one of its elements, and for a list of these. *)
Definition flat_val (e : node) : str :=
  match e with
  | Scalar s => s
  | Arr items => lit "[ " ++ format_items items ++ lit " ]"
  | Object _ => lit "{ " ++ format_node true e [] ++ lit " }"
  end.

Definition flat_item (ke : str * node) : str :=
  fst ke ++ separator (snd ke) ++ flat_val (snd ke) ++ lit " ".

Definition flat_items (items : list (str * node)) : str :=
  concat (map flat_item items).

(** [parse_value] reads the element [e] back from its flat text,
    whatever the text around it: when the call ends, it has returned
    [e]. *)
Definition reads_back_flat (e : node) : Prop :=
  forall fuel text ii ws rest r,
    printable e = true ->
    skipn ii text = flat_val e ++ ws ++ rest ->
    forallb is_space ws = true -> starts stop_char rest = true ->
    starts (fun c => negb (token_re c)) (ws ++ rest) = true ->
    parse_value fuel text ii None = Some r ->
    exists p,
      r = Returns {| value := e; position := p; error := None |}
      /\ ii + length (flat_val e) <= p
      /\ consume_comments text p = ii + length (flat_val e) + length ws.

(** ** Searching by pattern *)

(** A letter [A] to [Z] or [a] to [z]. *)
Definition is_letter (c : N) : bool := in_range 65 90 c || in_range 97 122 c.

(** Every string value of the tree is made of ASCII characters. *)
Fixpoint ascii_values (x : node) : bool :=
  match x with
  | Scalar s => is_ascii s
  | Arr items => forallb ascii_values items
  | Object fields => forallb (fun kv => forallb ascii_values (snd kv)) fields
  end.

(** In [l] every letter is directly followed by a line break. *)
Fixpoint letters_end_lines (l : str) : bool :=
  match l with
  | [] => true
  | a :: l' =>
      (negb (is_letter a)
       || match l' with
          | b :: _ => N.eqb b 10
          | [] => false
          end)
      && letters_end_lines l'
  end.

(** A tree of two levels with words as values. *)
Definition tree_words : ProtoObject :=
  [(lit "name", [Scalar (lit "hello")]);
   (lit "sub", [Object [(lit "kind", [Scalar (lit "Hello World")])]])].
(* ------------------------------------------------------------------ *)
(** * Strings and cursor: basic facts *)

Unset Implicit Arguments.

Lemma eqs_true (a b : str) : eqs a b = true <-> a = b.
Proof.
  revert b; induction a as [|x a IH]; intros [|y b]; simpl; split;
    try congruence; try reflexivity.
  - rewrite andb_true_iff, N.eqb_eq, IH. intros [-> ->]; reflexivity.
  - intros E; injection E as -> ->.
    rewrite N.eqb_refl. simpl. apply IH. reflexivity.
Qed.

Lemma eqs_refl (a : str) : eqs a a = true.
Proof. apply eqs_true; reflexivity. Qed.

Lemma eqs_false (a b : str) : eqs a b = false <-> a <> b.
Proof.
  rewrite <- eqs_true. destruct (eqs a b); split; congruence.
Qed.

Lemma charAt_eqs (text : str) (ii : nat) (c : N) :
  eqs (charAt text ii) [c] = true <-> nth_error text ii = Some c.
Proof.
  rewrite eqs_true. unfold charAt.
  destruct (nth_error text ii); split; congruence.
Qed.

Lemma firstn_snoc {T} (l : list T) (k : nat) (x : T) :
  nth_error l k = Some x -> firstn (S k) l = firstn k l ++ [x].
Proof.
  revert k; induction l as [|y l IH]; intros [|k] E; simpl in *;
    try discriminate.
  - injection E as ->. reflexivity.
  - rewrite <- IH by assumption. reflexivity.
Qed.

Lemma skipn_nth_cons {T} (l : list T) (k : nat) (x : T) :
  nth_error l k = Some x -> skipn k l = x :: skipn (S k) l.
Proof.
  revert k; induction l as [|y l IH]; intros [|k] E; simpl in *;
    try discriminate.
  - injection E as ->. reflexivity.
  - apply IH. assumption.
Qed.

(** [string_loop] either runs to the end of the text or stops on the
    first unescaped quote, having copied every unit it passed. *)
Lemma string_loop_spec (q : N) (rest : str) :
  forall jj escape acc v jj',
    string_loop [q] rest jj escape acc = (v, jj') ->
    (jj' = jj + length rest /\ v = acc ++ rest)
    \/ (exists k, jj' = jj + k /\ nth_error rest k = Some q
                  /\ v = acc ++ firstn (S k) rest).
Proof.
  induction rest as [|c rest IH]; intros jj escape acc v jj' E;
    cbn [string_loop] in E.
  - injection E as <- <-. left. split; [simpl; lia | now rewrite app_nil_r].
  - destruct (negb escape && eqs [c] [q]) eqn:Hq.
    + injection E as <- <-. right. exists 0.
      apply andb_true_iff in Hq as [_ Hq]. apply eqs_true in Hq.
      assert (c = q) as -> by congruence.
      simpl. split; [lia | split; reflexivity].
    + apply IH in E as [[-> ->] | (k & -> & Hk & ->)].
      * left. split; [simpl; lia | now rewrite <- app_assoc].
      * right. exists (S k).
        split; [lia | split; [exact Hk | now rewrite <- app_assoc]].
Qed.

(* ------------------------------------------------------------------ *)
(** * Pushes *)

Lemma obj_has_insert {V} (key : str) (n : N) (v : V) (o : obj V) :
  obj_has key (obj_insert key n v o) = true.
Proof.
  unfold obj_has.
  induction o as [|[k w] o IH]; cbn [obj_insert existsb fst];
    [now rewrite eqs_refl|].
  destruct (array_index k) as [m|]; [destruct (N.ltb m n)|];
    cbn [existsb fst]; rewrite ?eqs_refl, ?IH, ?orb_true_r; reflexivity.
Qed.

Lemma obj_has_set {V} (key : str) (v : V) (o : obj V) :
  obj_has key (obj_set key v o) = true.
Proof.
  unfold obj_set. destruct (obj_has key o) eqn:H.
  - induction o as [|[k w] o IH]; simpl in *; [discriminate|].
    destruct (eqs k key) eqn:E; simpl; rewrite E; [reflexivity|].
    exact (IH H).
  - destruct (array_index key); [apply obj_has_insert|].
    unfold obj_has. rewrite existsb_app. simpl. rewrite eqs_refl.
    now rewrite orb_true_r.
Qed.

(** [obj_push] throws on a name that the object inherits and does not
    have as a field of its own, and is [own_push] otherwise. *)
Lemma obj_push_own {V} (key : str) (v : V) (o : obj (list V)) :
  obj_push key v o
  = if negb (obj_has key o) && inherited key then TypeError
    else Returns (own_push key v o).
Proof.
  unfold obj_push, own_push, obj_in.
  destruct (obj_has key o) eqn:H; cbn [negb orb andb]; [now rewrite H|].
  destruct (inherited key); cbn [negb]; [now rewrite H|].
  now rewrite obj_has_set.
Qed.

Lemma obj_push_returns {V} (key : str) (v : V) (o o' : obj (list V)) :
  obj_push key v o = Returns o' ->
  o' = own_push key v o /\ (negb (obj_has key o) && inherited key) = false.
Proof.
  rewrite obj_push_own.
  destruct (negb (obj_has key o) && inherited key); [discriminate|].
  intros E. injection E as <-. split; reflexivity.
Qed.

Lemma obj_push_fresh {V} (key : str) (v : V) (o : obj (list V)) :
  inherited key = false -> obj_push key v o = Returns (own_push key v o).
Proof. intros H. rewrite obj_push_own, H. now rewrite andb_false_r. Qed.

(** The push of [parse_body] when it does not throw. *)
Lemma kept_push (ff : option (str -> bool)) (name : str) (v : node)
  (fields fields' : ProtoObject) :
  (if keeps ff name then obj_push name v fields else Returns fields)
  = Returns fields' ->
  fields' = (if keeps ff name then own_push name v fields else fields)
  /\ (keeps ff name && negb (obj_has name fields) && inherited name) = false.
Proof.
  destruct (keeps ff name); cbn [andb].
  - apply obj_push_returns.
  - intros E. injection E as <-. split; reflexivity.
Qed.

(* ------------------------------------------------------------------ *)
(** * Quoted strings and tokens *)

Lemma charAt_quote (text : str) (ii : nat) :
  (negb (eqs (charAt text ii) squote) && negb (eqs (charAt text ii) dquote)) = false ->
  exists q, (q = 34%N \/ q = 39%N) /\ nth_error text ii = Some q.
Proof.
  intros H. apply andb_false_iff in H as [H | H];
    apply negb_false_iff in H; apply charAt_eqs in H; eauto.
Qed.

Lemma parse_string_value (text : str) (ii : nat) :
  error (parse_string text ii) = None ->
  exists q k,
    (q = 34%N \/ q = 39%N)
    /\ nth_error text ii = Some q
    /\ nth_error (skipn (S ii) text) k = Some q
    /\ value (parse_string text ii) = q :: firstn (S k) (skipn (S ii) text)
    /\ position (parse_string text ii) = consume_comments text (S (S (ii + k))).
Proof.
  unfold parse_string.
  destruct (negb (eqs (charAt text ii) squote) && negb (eqs (charAt text ii) dquote)) eqn:Hq;
    [discriminate|].
  apply charAt_quote in Hq as (q & Hq & Hii).
  assert (Hc : charAt text ii = [q]) by (unfold charAt; now rewrite Hii).
  rewrite Hc. replace (ii + 1) with (S ii) by lia.
  destruct (string_loop [q] (skipn (S ii) text) (S ii) false [q]) as [v jj] eqn:Hloop.
  apply string_loop_spec in Hloop.
  assert (Hlen : ii < length text) by (apply nth_error_Some; congruence).
  destruct (length text <=? jj) eqn:Hend; [discriminate|].
  apply Nat.leb_gt in Hend.
  destruct Hloop as [[-> _] | (k & -> & Hk & ->)].
  - rewrite length_skipn in Hend. lia.
  - intros _. exists q, k.
    assert (Hj : nth_error text (S ii + k) = Some q).
    { rewrite <- Hk. rewrite nth_error_skipn. reflexivity. }
    assert (Hcj : charAt text (S ii + k) = [q]) by (unfold charAt; now rewrite Hj).
    rewrite Hcj, eqs_refl. simpl.
    repeat split; try assumption.
    f_equal. lia.
Qed.

(** C8: where the current character is not a quote, [parse_token] never
    sets an error: on zero matched characters it returns the empty string
    with error null, as on the text [:]. *)
Theorem parse_token_empty_is_silent :
  forall (text : str) (ii : nat) (should_include_brackets : bool),
    eqs (charAt text ii) dquote || eqs (charAt text ii) squote = false ->
    error (parse_token text ii should_include_brackets) = None
    /\ parse_token (lit ":") 0 should_include_brackets
       = {| value := []; position := 0; error := None |}.
Proof.
  intros text ii b H. unfold parse_token. rewrite H.
  split; [reflexivity|]. destruct b; reflexivity.
Qed.

Lemma parse_token_empty_is_silent_witness :
  error (parse_token (lit ":") 0 false) = None
  /\ parse_token (lit ":") 0 false
     = {| value := []; position := 0; error := None |}.
Proof.
  apply (parse_token_empty_is_silent (lit ":") 0 false). reflexivity.
Defined.

(* ------------------------------------------------------------------ *)
(** * Lists *)

(** C5 (as amended): parsing [a: [1, 2, 3]] gives error null and the value
    [{a: [["1", "2", "3"]]}]: the bracketed list is one array-valued
    element of the sequence of [a]. *)
Theorem parse_list_is_one_element :
  parse_proto (fuel_for text_list) text_list 0 None
  = Some (Returns {| value := Object [(lit "a", [Arr [Scalar (lit "1");
                                                      Scalar (lit "2");
                                                      Scalar (lit "3")]])];
                     position := 12;
                     error := None |}).
Proof. vm_compute. reflexivity. Qed.

(** C5 (as stated) fails: the value is not [{a: ["1", "2", "3"]}]. *)
Lemma parse_list_not_flattened :
  returned_value (parse_proto (fuel_for text_list) text_list 0 None)
  <> Some (Object [(lit "a", [Scalar (lit "1"); Scalar (lit "2");
                              Scalar (lit "3")])]).
Proof. vm_compute. intros H. discriminate H. Qed.

(** Whenever an element fails, the loop of [parse_list] returns at once
    with the position of the element, the elements read before it and no
    error. *)
Lemma parse_list_loop_item_error (fuel : nat) (text : str)
  (ff : option (str -> bool)) (ii : nat) (items : list node)
  (item : result node) (e : str) :
  (ii <? length text) && negb (eqs (charAt text ii) (lit "]")) = true ->
  parse_value fuel text ii ff = Some (Returns item) -> error item = Some e ->
  parse_list_loop (S fuel) text ff ii items
  = Some (Returns {| value := Arr items;
                     position := position item;
                     error := None |}).
Proof.
  intros Hc Hv He. cbn [parse_list_loop]. rewrite Hc, Hv, He. reflexivity.
Qed.

(** C7: on a list whose element fails to parse, [parse_list] returns the
    position reported by the element and the elements read so far, but
    with error null: the error of the element is dropped. *)
Theorem parse_list_drops_item_error :
  parse_value (fuel_for text_bad_list) text_bad_list 1 None
  = Some (Returns {| value := Scalar (dquote ++ lit "abc");
                     position := 5;
                     error := Some (lit "No end of string found: 1") |})
  /\ parse_list (fuel_for text_bad_list) text_bad_list 0 None
     = Some (Returns {| value := Arr []; position := 5; error := None |}).
Proof. split; vm_compute; reflexivity. Qed.

(* ------------------------------------------------------------------ *)
(** * Slicing *)

(** C9: a sub-object whose slice is empty is still pushed under its field:
    slicing [{a: [{b: ["1"]}]}] with a predicate that keeps nothing gives
    [{a: [{}]}], not the empty object. *)
Theorem proto_slice_keeps_empty_objects :
  proto_slice tree_a_b1 (fun _ _ => false)
  = Returns [(lit "a", [Object []])].
Proof. vm_compute. reflexivity. Qed.

(* ------------------------------------------------------------------ *)
(** * Depth *)

Lemma depth_aggregator_fold (name : str) (infos : list nat) :
  aggregator depth_attribute name infos = fold_left (depth_step name) infos 0.
Proof. reflexivity. Qed.

Lemma depth_list_zeros (n d : nat) :
  fold_left (depth_step (lit "list")) (repeat 0 n) d = d.
Proof.
  revert d; induction n as [|n IH]; intros d; simpl; [reflexivity|].
  rewrite IH. unfold depth_step. simpl. reflexivity.
Qed.

Lemma depth_map_zeros (n d : nat) :
  fold_left (depth_step (lit "map")) (repeat 0 n) d =
  match n with 0 => d | S _ => Nat.max d 1 end.
Proof.
  revert d; induction n as [|n IH]; intros d; simpl; [reflexivity|].
  rewrite IH.
  assert (E : depth_step (lit "map") d 0 = Nat.max d 1).
  { unfold depth_step. simpl. destruct (d <? 1) eqn:H;
      [apply Nat.ltb_lt in H | apply Nat.ltb_ge in H]; lia. }
  rewrite E. destruct n; lia.
Qed.

Lemma info_items_scalars (rec : node -> option (attr_dict nat)) (name : str)
  (elems : list node) :
  forallb (fun e => negb (is_object e)) elems = true ->
  forall ii, exists xs,
    info_items depth_attrs rec name ii elems = Some xs
    /\ map snd xs = repeat [(lit "depth", 0)] (length elems).
Proof.
  induction elems as [|e elems IH]; intros H ii; simpl in *.
  - exists []. split; reflexivity.
  - apply andb_true_iff in H as [He H].
    destruct (IH H (S ii)) as (xs & -> & Hxs).
    destruct e as [s| |]; try discriminate. simpl.
    eexists. split; [reflexivity|]. simpl. now rewrite Hxs.
Qed.

Lemma collect_depth_repeat (n v : nat) :
  collect (lit "depth") (repeat [(lit "depth", v)] n) = repeat v n.
Proof.
  induction n as [|n IH]; [reflexivity|].
  cbn [repeat]. unfold collect in *. cbn [flat_map]. rewrite IH.
  reflexivity.
Qed.

Lemma info_list_scalars (rec : node -> option (attr_dict nat)) (name : str)
  (elems : list node) :
  forallb (fun e => negb (is_object e)) elems = true ->
  exists l, info_list depth_attrs rec name elems = Some l
            /\ total l = [(lit "depth", 0)].
Proof.
  intros H. unfold info_list.
  destruct (info_items_scalars rec name elems H 0) as (xs & -> & Hxs).
  eexists. split; [reflexivity|].
  unfold depth_attrs. cbn [total map fst snd].
  rewrite Hxs, collect_depth_repeat, depth_aggregator_fold, depth_list_zeros.
  reflexivity.
Qed.

Lemma fields_info_scalars (rec : node -> option (attr_dict nat))
  (T : ProtoObject) :
  scalars_only T = true ->
  exists lists,
    all_some (map (fun kv => (fst kv, info_list depth_attrs rec (fst kv) (snd kv))) T)
    = Some lists
    /\ map (fun nl => total (snd nl)) lists
       = repeat [(lit "depth", 0)] (length T).
Proof.
  induction T as [|[key elems] T IH]; intros H; simpl in *.
  - exists []. split; reflexivity.
  - apply andb_true_iff in H as [He H].
    destruct (IH H) as (lists & Hl & Ht).
    destruct (info_list_scalars rec key elems He) as (l & -> & Hlt).
    rewrite Hl. eexists. split; [reflexivity|]. simpl. now rewrite Hlt, Ht.
Qed.

Lemma make_proto_info_scalars (T : ProtoObject) :
  scalars_only T = true ->
  exists info,
    make_proto_info depth_attrs (Object T) = Some info
    /\ total info = [(lit "depth", match T with [] => 0 | _ => 1 end)].
Proof.
  intros H. cbn [make_proto_info].
  destruct (fields_info_scalars (make_proto_info depth_attrs) T H)
    as (lists & -> & Ht).
  eexists. split; [reflexivity|].
  unfold info_dict, depth_attrs. cbn [total map fst snd].
  rewrite Ht, collect_depth_repeat, depth_aggregator_fold, depth_map_zeros.
  destruct T; reflexivity.
Qed.

(** C2 (as amended): with the depth attribute, the root total of a tree
    whose fields hold only scalars is 1 (0 when the tree has no field at
    all), and the root total of a tree with one field holding one nested
    object that itself holds only scalars is 2 (1 when the nested object
    has no field): every level of fields counts one. *)
Theorem depth_counts_field_levels :
  (forall T : ProtoObject,
      scalars_only T = true ->
      depth_total T = Some (match T with [] => 0 | _ => 1 end))
  /\ (forall (key : str) (U : ProtoObject),
         scalars_only U = true ->
         depth_total [(key, [Object U])]
         = Some (match U with [] => 1 | _ => 2 end)).
Proof.
  split.
  - intros T H. unfold depth_total, get_depth_info.
    destruct (make_proto_info_scalars T H) as (info & E & Ht).
    fold depth_attrs. rewrite E, Ht. reflexivity.
  - intros key U H. unfold depth_total, get_depth_info. fold depth_attrs.
    destruct (make_proto_info_scalars U H) as (info & E & Ht).
    cbn [make_proto_info map fst snd all_some].
    unfold info_list. cbn [info_items info_item]. rewrite E.
    cbn. rewrite Ht. destruct U; reflexivity.
Qed.

Lemma depth_counts_field_levels_witness :
  depth_total tree_a1 = Some 1 /\ depth_total tree_a_b1 = Some 2.
Proof.
  split.
  - apply (proj1 depth_counts_field_levels tree_a1). reflexivity.
  - apply (proj2 depth_counts_field_levels (lit "a")
             [(lit "b", [Scalar (lit "1")])]).
    reflexivity.
Defined.

(** C2 (as stated) fails: the fields of [{a: ["1"]}] hold only scalars and
    its depth total is not 0. *)
Lemma depth_of_scalar_tree_not_zero :
  scalars_only tree_a1 = true /\ depth_total tree_a1 <> Some 0.
Proof. split; [reflexivity|]. vm_compute. intros H. discriminate H. Qed.

(* ------------------------------------------------------------------ *)
(** * Filtering *)

Lemma node_induction (P : node -> Prop) :
  (forall s, P (Scalar s)) ->
  (forall fields, Forall (fun kv => Forall P (snd kv)) fields -> P (Object fields)) ->
  (forall items, Forall P items -> P (Arr items)) ->
  forall x, P x.
Proof.
  intros HS HO HA.
  fix IH 1. intros [s|fields|items].
  - apply HS.
  - apply HO. induction fields as [|[k elems] fields IHf]; constructor.
    + simpl. induction elems as [|e elems IHe]; constructor.
      * apply IH.
      * exact IHe.
    + exact IHf.
  - apply HA. induction items as [|e items IHe]; constructor.
    + apply IH.
    + exact IHe.
Qed.

Lemma key_before_irrefl (k : str) : key_before k k = false.
Proof.
  unfold key_before. destruct (array_index k).
  - apply N.ltb_irrefl.
  - now rewrite eqs_refl.
Qed.

Lemma obj_has_false {V} (key : str) (o : obj V) :
  forallb (fun kv => key_before (fst kv) key) o = true -> obj_has key o = false.
Proof.
  induction o as [|[k v] o IH]; simpl; [reflexivity|].
  intros H. apply andb_true_iff in H as [Hk H].
  rewrite (IH H), orb_false_r. apply eqs_false. intros ->.
  rewrite key_before_irrefl in Hk. discriminate.
Qed.

Lemma obj_set_last {V} (key : str) (v : V) (o : obj V) :
  forallb (fun kv => key_before (fst kv) key) o = true ->
  obj_set key v o = o ++ [(key, v)].
Proof.
  intros H. unfold obj_set. rewrite (obj_has_false _ _ H).
  destruct (array_index key) as [n|] eqn:Hn; [|reflexivity].
  induction o as [|[k w] o IH]; simpl in *; [reflexivity|].
  apply andb_true_iff in H as [Hk H].
  unfold key_before in Hk. rewrite Hn in Hk.
  destruct (array_index k) as [m|]; [|discriminate].
  rewrite Hk, (IH H). reflexivity.
Qed.

Section FilterFold.
Variable rec : node -> node.
Variable p : str -> bool.

Let g (kv : str * list node) : str * list node :=
  (fst kv, map (fun e => if is_sub_proto e then rec e else e) (snd kv)).

Lemma filter_fold_ordered (rest : ProtoObject) :
  forall acc : ProtoObject,
    ordered (map fst rest) = true ->
    forallb (fun a => forallb (fun r => key_before (fst a) (fst r)) rest) acc = true ->
    fold_left
      (fun new_proto kv =>
         if p (fst kv) then new_proto
         else obj_set (fst kv)
                (map (fun e => if is_sub_proto e then rec e else e) (snd kv))
                new_proto)
      rest acc
    = acc ++ map g (filter (fun kv => negb (p (fst kv))) rest).
Proof.
  induction rest as [|[k elems] rest IH]; intros acc Hord Hacc; simpl.
  - now rewrite app_nil_r.
  - simpl in Hord. apply andb_true_iff in Hord as [Hk Hord].
    assert (Hacc' : forallb (fun a => forallb (fun r => key_before (fst a) (fst r)) rest) acc = true).
    { apply forallb_forall. intros a Ha.
      rewrite forallb_forall in Hacc. specialize (Hacc a Ha). simpl in Hacc.
      now apply andb_true_iff in Hacc as [_ Hacc]. }
    destruct (p k); simpl.
    + apply IH; assumption.
    + rewrite obj_set_last.
      * rewrite IH; [now rewrite <- app_assoc | assumption |].
        apply forallb_forall. intros a Ha.
        apply in_app_or in Ha as [Ha | [<- | []]].
        -- rewrite forallb_forall in Hacc'. now apply Hacc'.
        -- apply forallb_forall. intros r Hr.
           rewrite forallb_forall in Hk. apply Hk. now apply in_map.
      * apply forallb_forall. intros a Ha.
        rewrite forallb_forall in Hacc. specialize (Hacc a Ha). simpl in Hacc.
        now apply andb_true_iff in Hacc as [Hacc _].
Qed.
End FilterFold.

Lemma filter_node_spec (p : str -> bool) (x : node) :
  tree_ok x = true -> filter_node p x = filter_spec_node p x.
Proof.
  induction x as [s|fields IH|items IH] using node_induction; intros Hok;
    try reflexivity.
  cbn [filter_node filter_spec_node]. f_equal.
  cbn [tree_ok] in Hok. apply andb_true_iff in Hok as [Hord Hok].
  unfold filter_fields. rewrite filter_fold_ordered by (assumption || reflexivity).
  cbn [app].
  induction fields as [|[k elems] fields IHf]; [reflexivity|].
  simpl in Hok, Hord. apply andb_true_iff in Hok as [Hel Hok].
  apply andb_true_iff in Hord as [_ Hord].
  inversion IH as [|? ? IHk IHrest]; subst.
  specialize (IHf IHrest Hord Hok).
  simpl. destruct (p k); simpl; [exact IHf|].
  rewrite IHf. f_equal. f_equal. simpl in IHk.
  clear - IHk Hel. induction elems as [|e elems IHe]; [reflexivity|].
  simpl in Hel. apply andb_true_iff in Hel as [He Hel].
  inversion IHk as [|? ? IHe1 IHe2]; subst. simpl.
  rewrite (IHe Hel IHe2). f_equal.
  destruct e; simpl; try reflexivity. apply IHe1. exact He.
Qed.




(** C6: [filter_proto] does not filter the objects inside a list.  The
    parse of [b: [{c: 2}]] holds an object inside an array; filtering
    that tree by the name [c] returns it as it is, the field [c] of the
    object included, whereas the parse of the same text with the same
    filter leaves the field out. *)
Theorem filter_proto_skips_arrays :
  parse_proto (fuel_for text_list_of_objects) text_list_of_objects 0 None
  = Some (Returns {| value := Object tree_list_of_objects;
                     position := 11;
                     error := None |})
  /\ filter_proto tree_list_of_objects (fun name => eqs name (lit "c"))
     = tree_list_of_objects
  /\ has_field_anywhere (fun name => eqs name (lit "c"))
       (Object (filter_proto tree_list_of_objects
                  (fun name => eqs name (lit "c")))) = true
  /\ parse_proto (fuel_for text_list_of_objects) text_list_of_objects 0
       (Some (fun name => eqs name (lit "c")))
     = Some (Returns {| value := Object [(lit "b", [Arr [Object []]])];
                        position := 11;
                        error := None |}).
Proof. repeat split; vm_compute; reflexivity. Qed.

(* ------------------------------------------------------------------ *)
(** * The parser: positions, fuel and totality *)

(** ** Positions only move forward *)

Lemma scan_ge (regexp : N -> bool) (rest : str) :
  forall jj, jj <= scan regexp rest jj.
Proof.
  induction rest as [|c rest IH]; intros jj; simpl; [lia|].
  destruct (regexp c); [|lia]. specialize (IH (S jj)). lia.
Qed.

Lemma consume_whitespace_ge (text : str) (ii : nat) :
  ii <= consume_whitespace text ii.
Proof. apply scan_ge. Qed.

Lemma skip_line_ge (rest : str) : forall ii, ii <= skip_line rest ii.
Proof.
  induction rest as [|c rest IH]; intros ii; cbn [skip_line]; [lia|].
  destruct (eqs [c] newline); [lia|]. specialize (IH (S ii)). lia.
Qed.

Lemma comments_loop_ge (text : str) (rounds : nat) :
  forall ii, ii <= comments_loop rounds text ii.
Proof.
  induction rounds as [|rounds IH]; intros ii; cbn [comments_loop]; [lia|].
  destruct ((ii <? length text) && eqs (charAt text ii) (lit "#")); [|lia].
  etransitivity; [|apply IH].
  etransitivity; [apply skip_line_ge | apply consume_whitespace_ge].
Qed.

Lemma consume_comments_ge (text : str) (ii : nat) :
  ii <= consume_comments text ii.
Proof.
  unfold consume_comments.
  etransitivity; [apply consume_whitespace_ge | apply comments_loop_ge].
Qed.

Lemma string_loop_ge (quote rest : str) :
  forall jj escape acc, jj <= snd (string_loop quote rest jj escape acc).
Proof.
  induction rest as [|c rest IH]; intros jj escape acc; cbn [string_loop];
    [simpl; lia|].
  destruct (negb escape && eqs [c] quote); [simpl; lia|].
  etransitivity; [|apply IH]. lia.
Qed.

Lemma parse_string_position_ge (text : str) (ii : nat) :
  ii <= position (parse_string text ii).
Proof.
  unfold parse_string.
  destruct (negb (eqs (charAt text ii) squote)
            && negb (eqs (charAt text ii) dquote)); [simpl; lia|].
  pose proof (string_loop_ge (charAt text ii) (skipn (ii + 1) text) (ii + 1)
                false (charAt text ii)) as H.
  destruct (string_loop _ _ _ _ _) as [v jj]. simpl in H.
  destruct (length text <=? jj); [simpl; lia|].
  destruct (eqs (charAt text jj) (charAt text ii)); simpl; [|lia].
  pose proof (consume_comments_ge text (jj + 1)). lia.
Qed.

Lemma parse_token_position_ge (text : str) (ii : nat) (b : bool) :
  ii <= position (parse_token text ii b).
Proof.
  unfold parse_token. cbn [is_defined negb].
  destruct (eqs (charAt text ii) dquote || eqs (charAt text ii) squote).
  - apply parse_string_position_ge.
  - simpl. apply scan_ge.
Qed.

Lemma parse_token_value_error (text : str) (ii : nat) (b : bool) :
  eqs (charAt text ii) dquote || eqs (charAt text ii) squote = false ->
  error (parse_token text ii b) = None.
Proof. intros H. unfold parse_token. rewrite H. reflexivity. Qed.

(** ** Where the cursor stands on a character *)

Lemma charAt_lt (text : str) (ii : nat) (c : str) :
  eqs (charAt text ii) c = true -> c <> [] -> ii < length text.
Proof.
  intros H Hc. apply eqs_true in H. unfold charAt in H.
  destruct (nth_error text ii) eqn:E.
  - apply nth_error_Some. congruence.
  - congruence.
Qed.

Lemma comments_loop_stay (text : str) (rounds ii : nat) :
  eqs (charAt text ii) (lit "#") = false ->
  comments_loop rounds text ii = ii.
Proof.
  intros H. destruct rounds; cbn [comments_loop]; [reflexivity|].
  rewrite H, andb_false_r. reflexivity.
Qed.

Lemma consume_whitespace_stay (text : str) (ii : nat) (c : N) :
  nth_error text ii = Some c -> is_space c = false ->
  consume_whitespace text ii = ii.
Proof.
  intros H Hc. unfold consume_whitespace, consume_regexp. cbn [position].
  rewrite (skipn_nth_cons _ _ _ H). simpl. now rewrite Hc.
Qed.

Lemma consume_comments_stay (text : str) (ii : nat) (c : N) :
  nth_error text ii = Some c -> is_space c = false -> c <> 35%N ->
  consume_comments text ii = ii.
Proof.
  intros H Hs Hc. unfold consume_comments.
  rewrite (consume_whitespace_stay _ _ _ H Hs).
  apply comments_loop_stay. apply eqs_false. unfold charAt. rewrite H.
  change (lit "#") with [35%N]. congruence.
Qed.

Lemma charAt_is (text : str) (ii : nat) (c : N) :
  eqs (charAt text ii) [c] = true -> nth_error text ii = Some c.
Proof. apply charAt_eqs. Qed.

(** ** Unfolding the parser by one call *)

Lemma parse_value_S fuel text ii ff :
  parse_value (S fuel) text ii ff =
  if eqs (charAt text ii) (lit "{") then parse_proto fuel text ii ff
  else if eqs (charAt text ii) (lit "[") then parse_list fuel text ii ff
  else
    let tok := parse_token text ii false in
    Some (Returns {| value := Scalar (value tok);
                     position := position tok;
                     error := error tok |}).
Proof. reflexivity. Qed.

Lemma parse_body_S fuel text ii ff :
  parse_body (S fuel) text ii ff = parse_body_loop fuel text ff ii [].
Proof. reflexivity. Qed.

Lemma parse_list_S fuel text ii ff :
  parse_list (S fuel) text ii ff =
  parse_list_loop fuel text ff
    (if eqs (charAt text ii) (lit "[") then consume_comments text (S ii) else ii)
    [].
Proof. reflexivity. Qed.

Lemma parse_proto_S fuel text ii ff :
  parse_proto (S fuel) text ii ff =
  let ii := consume_comments text ii in
  let has_braces := eqs (charAt text ii) (lit "{") in
  let ii := if has_braces then S ii else ii in
  match parse_body fuel text ii ff with
  | Some (Returns res) =>
      match error res with
      | Some _ => Some (Returns res)
      | None =>
          if has_braces then
            let ii := position res in
            let ii := consume_comments text ii in
            let closed := eqs (charAt text ii) (lit "}") in
            let err :=
              if negb closed then Some (lit "Missing Closing Brace")
              else None in
            let ii := if negb closed then ii else S ii in
            let ii := consume_comments text ii in
            Some (Returns {| value := value res;
                             position := ii;
                             error := err |})
          else Some (Returns res)
      end
  | stopped => stopped
  end.
Proof. reflexivity. Qed.

(** One round of the loop of [parse_body]; the push throws when the
    name is kept, inherited and not yet a field. *)
Lemma parse_body_loop_S fuel text ff ii fields :
  parse_body_loop (S fuel) text ff ii fields =
  if (ii <? length text) && negb (eqs (charAt text ii) (lit "}")) then
    let old_ii := ii in
    let ii := consume_comments text ii in
    let name := parse_token text ii true in
    match error name with
    | Some e =>
        Some (Returns {| value := Object fields;
                         position := ii;
                         error := Some e |})
    | None =>
        let ii := position name in
        let ii := consume_comments text ii in
        let ii := if eqs (charAt text ii) (lit ":") then S ii else ii in
        let ii := consume_comments text ii in
        match parse_value fuel text ii ff with
        | Some (Returns val) =>
            if keeps ff (value name)
               && negb (obj_has (value name) fields)
               && inherited (value name)
            then Some TypeError
            else
              let ii := if position val =? 0 then ii else position val in
              let ii := consume_comments text ii in
              let fields :=
                if keeps ff (value name)
                then own_push (value name) (value val) fields
                else fields in
              match error val with
              | Some e =>
                  Some (Returns {| value := Object fields;
                                   position := ii;
                                   error := Some e |})
              | None =>
                  let ii :=
                    if eqs (charAt text ii) (lit ",")
                    then consume_comments text (S ii) else ii in
                  if ii =? old_ii then
                    Some (Returns
                            {| value := Object fields;
                               position := ii;
                               error :=
                                 Some (make_error
                                         (lit "Internal error!  Infinite loop")
                                         text ii None) |})
                  else parse_body_loop fuel text ff ii fields
              end
        | stopped => stopped
        end
    end
  else Some (Returns {| value := Object fields;
                        position := ii;
                        error := None |}).
Proof.
  cbn [parse_body_loop].
  destruct ((ii <? length text) && negb (eqs (charAt text ii) (lit "}")));
    [|reflexivity].
  cbv zeta.
  destruct (error (parse_token text (consume_comments text ii) true));
    [reflexivity|].
  match goal with
  | |- match ?c with _ => _ end = _ => destruct c as [[val|]|]
  end; try reflexivity.
  rewrite obj_push_own.
  destruct (keeps ff _); cbn [andb]; [|reflexivity].
  destruct (negb _ && inherited _); reflexivity.
Qed.

Lemma parse_list_loop_S fuel text ff ii items :
  parse_list_loop (S fuel) text ff ii items =
  if (ii <? length text) && negb (eqs (charAt text ii) (lit "]")) then
    let old_ii := ii in
    match parse_value fuel text ii ff with
    | Some (Returns item) =>
        match error item with
        | Some _ =>
            Some (Returns {| value := Arr items;
                             position := position item;
                             error := None |})
        | None =>
            let ii := position item in
            let ii := consume_comments text ii in
            let items := items ++ [value item] in
            let ii :=
              if (ii <? length text) && eqs (charAt text ii) (lit ",")
              then consume_comments text (S ii) else ii in
            if old_ii =? ii then
              Some (Returns
                      (parse_list_end text items ii
                         (Some (make_error
                                  (lit "Error parsing list, unrecognized character")
                                  text ii None))))
            else parse_list_loop fuel text ff ii items
        end
    | stopped => stopped
    end
  else Some (Returns (parse_list_end text items ii None)).
Proof. reflexivity. Qed.

Lemma parse_list_end_position_ge text items ii err :
  ii <= position (parse_list_end text items ii err).
Proof.
  unfold parse_list_end.
  destruct (length text <=? ii); [simpl; lia|].
  destruct (eqs (charAt text ii) (lit "]")); simpl; [|lia].
  pose proof (consume_comments_ge text (S ii)). lia.
Qed.

Section Totality.
Variable text : str.
Variable ff : option (str -> bool).

Lemma ends_later (ii jj : nat) (r : option (outcome (result node))) :
  ii <= jj -> ends jj r -> ends ii r.
Proof.
  intros H (o & E & Ho). exists o. split; [exact E|].
  destruct o; [lia | exact I].
Qed.

Lemma ends_thrown (ii : nat) : ends ii (Some TypeError).
Proof. exists TypeError. split; [reflexivity | exact I]. Qed.

Lemma ends_returned (ii : nat) (res : result node) :
  ii <= position res -> ends ii (Some (Returns res)).
Proof. intros H. exists (Returns res). split; [reflexivity | exact H]. Qed.

Lemma total_at_all : forall fuel, total_at text ff fuel.
Proof.
  induction fuel as [|fuel (IHv & IHp & IHb & IHbl & IHl & IHll)];
    unfold total_at.
  - repeat split; intros; try lia.
    + destruct H as [[H1 H2] | H]; [|lia].
      apply charAt_lt in H1; [lia | discriminate].
    + destruct H as [[H1 H2] | H]; [|lia].
      apply charAt_lt in H1; [lia | discriminate].
  - repeat split.
    + (* parse_value *)
      intros ii Hf. rewrite parse_value_S.
      destruct (eqs (charAt text ii) (lit "{")) eqn:Hb.
      { apply IHp. left.
        assert (Hs : consume_comments text ii = ii).
        { apply consume_comments_stay with (c := 123%N);
            [now apply charAt_is | reflexivity | discriminate]. }
        rewrite Hs. split; [assumption | lia]. }
      destruct (eqs (charAt text ii) (lit "[")) eqn:Hl.
      { apply IHl. left. split; [assumption | lia]. }
      apply ends_returned. cbn [position].
      apply parse_token_position_ge.
    + (* parse_proto *)
      intros ii Hf. rewrite parse_proto_S. cbv zeta.
      pose proof (consume_comments_ge text ii) as Hcc.
      set (i1 := consume_comments text ii) in *.
      destruct (eqs (charAt text i1) (lit "{")) eqn:Hb.
      * assert (Hlt : i1 < length text)
          by (apply charAt_lt in Hb; [lia | discriminate]).
        destruct (IHb (S i1)) as ([res|] & -> & Hres);
          [destruct Hf as [[_ Hf] | Hf]; lia| |apply ends_thrown].
        destruct (error res); [apply ends_returned; lia|].
        apply ends_returned. cbn [position].
        pose proof (consume_comments_ge text (position res)) as H1.
        set (i2 := consume_comments text (position res)) in *.
        destruct (negb (eqs (charAt text i2) (lit "}"))).
        -- pose proof (consume_comments_ge text i2). lia.
        -- pose proof (consume_comments_ge text (S i2)). lia.
      * destruct Hf as [[Hf _] | Hf]; [discriminate|].
        destruct (IHb i1) as ([res|] & -> & Hres);
          [lia| |apply ends_thrown].
        destruct (error res); apply ends_returned; lia.
    + (* parse_body *)
      intros ii Hf. rewrite parse_body_S. apply IHbl. lia.
    + (* parse_body_loop *)
      intros ii fields Hf. rewrite parse_body_loop_S.
      destruct ((ii <? length text)
                && negb (eqs (charAt text ii) (lit "}"))) eqn:Hc;
        [|apply ends_returned; cbn [position]; lia].
      apply andb_true_iff in Hc as [Hlt _]. apply Nat.ltb_lt in Hlt.
      cbv zeta.
      pose proof (consume_comments_ge text ii) as H1.
      set (i1 := consume_comments text ii) in *.
      pose proof (parse_token_position_ge text i1 true) as H2.
      set (name := parse_token text i1 true) in *.
      destruct (error name);
        [apply ends_returned; cbn [position]; lia|].
      pose proof (consume_comments_ge text (position name)) as H3.
      set (i3 := consume_comments text (position name)) in *.
      set (i4 := if eqs (charAt text i3) (lit ":") then S i3 else i3).
      assert (H4 : i3 <= i4)
        by (unfold i4; destruct (eqs (charAt text i3) (lit ":")); lia).
      pose proof (consume_comments_ge text i4) as H5.
      set (i5 := consume_comments text i4) in *.
      destruct (IHv i5) as ([val|] & -> & Hval);
        [lia| |apply ends_thrown].
      destruct (keeps ff (value name) && negb (obj_has (value name) fields)
                && inherited (value name)); [apply ends_thrown|].
      set (i6 := if position val =? 0 then i5 else position val).
      assert (H6 : i5 <= i6)
        by (unfold i6; destruct (position val =? 0); lia).
      pose proof (consume_comments_ge text i6) as H7.
      set (i7 := consume_comments text i6) in *.
      destruct (error val);
        [apply ends_returned; cbn [position]; lia|].
      set (i8 := if eqs (charAt text i7) (lit ",")
                 then consume_comments text (S i7) else i7).
      assert (H8 : i7 <= i8).
      { unfold i8. destruct (eqs (charAt text i7) (lit ",")); [|lia].
        pose proof (consume_comments_ge text (S i7)). lia. }
      destruct (i8 =? ii) eqn:Hstuck;
        [apply ends_returned; cbn [position]; lia|].
      apply Nat.eqb_neq in Hstuck.
      apply ends_later with i8; [lia|]. apply IHbl. lia.
    + (* parse_list *)
      intros ii Hf. rewrite parse_list_S.
      destruct (eqs (charAt text ii) (lit "[")) eqn:Hb.
      * assert (Hlt : ii < length text)
          by (apply charAt_lt in Hb; [lia | discriminate]).
        pose proof (consume_comments_ge text (S ii)) as H1.
        apply ends_later with (consume_comments text (S ii)); [lia|].
        apply IHll. destruct Hf as [[_ Hf] | Hf]; lia.
      * destruct Hf as [[Hf _] | Hf]; [discriminate|].
        apply IHll. lia.
    + (* parse_list_loop *)
      intros ii items Hf. rewrite parse_list_loop_S.
      destruct ((ii <? length text)
                && negb (eqs (charAt text ii) (lit "]"))) eqn:Hc;
        [|apply ends_returned; apply parse_list_end_position_ge].
      apply andb_true_iff in Hc as [Hlt _]. apply Nat.ltb_lt in Hlt.
      cbv zeta.
      destruct (IHv ii) as ([item|] & -> & Hitem);
        [lia| |apply ends_thrown].
      destruct (error item);
        [apply ends_returned; cbn [position]; lia|].
      pose proof (consume_comments_ge text (position item)) as H1.
      set (i1 := consume_comments text (position item)) in *.
      set (i2 := if (i1 <? length text) && eqs (charAt text i1) (lit ",")
                 then consume_comments text (S i1) else i1).
      assert (H2 : i1 <= i2).
      { unfold i2.
        destruct ((i1 <? length text) && eqs (charAt text i1) (lit ","));
          [|lia].
        pose proof (consume_comments_ge text (S i1)). lia. }
      destruct (ii =? i2) eqn:Hstuck.
      { apply ends_returned.
        pose proof (parse_list_end_position_ge text (items ++ [value item]) i2
                      (Some (make_error
                               (lit "Error parsing list, unrecognized character")
                               text i2 None))).
        lia. }
      apply Nat.eqb_neq in Hstuck.
      apply ends_later with i2; [lia|]. apply IHll. lia.
Qed.
End Totality.

(** With [fuel_for text] every call of the parser ends: it returns or it
    throws. *)
Theorem parse_total (text : str) (ii : nat) (ff : option (str -> bool)) :
  (exists o, parse_proto (fuel_for text) text ii ff = Some o)
  /\ (exists o, parse_body (fuel_for text) text ii ff = Some o)
  /\ (exists o, parse_value (fuel_for text) text ii ff = Some o)
  /\ (exists o, parse_list (fuel_for text) text ii ff = Some o).
Proof.
  destruct (total_at_all text ff (fuel_for text))
    as (Hv & Hp & Hb & _ & Hl & _).
  unfold fuel_for in *.
  repeat split.
  - destruct (Hp ii) as (res & E & _); [right; lia | eauto].
  - destruct (Hb ii) as (res & E & _); [lia | eauto].
  - destruct (Hv ii) as (res & E & _); [lia | eauto].
  - destruct (Hl ii) as (res & E & _); [right; lia | eauto].
Qed.

(* ------------------------------------------------------------------ *)
(** * Fuel is irrelevant; the rounds of the body loop *)

Lemma mono_at_all (text : str) (ff : option (str -> bool)) :
  forall fuel, mono_at text ff fuel.
Proof.
  induction fuel as [|fuel (IHv & IHp & IHb & IHbl & IHl & IHll)];
    [repeat split; intros; discriminate|].
  repeat split.
  - intros ii r. rewrite (parse_value_S (S fuel)), (parse_value_S fuel).
    destruct (eqs (charAt text ii) (lit "{")); [apply IHp|].
    destruct (eqs (charAt text ii) (lit "[")); [apply IHl|].
    trivial.
  - intros ii r. rewrite (parse_proto_S (S fuel)), (parse_proto_S fuel).
    cbv zeta.
    destruct (parse_body fuel text _ ff) as [o|] eqn:E; [|discriminate].
    now rewrite (IHb _ _ E).
  - intros ii r. rewrite (parse_body_S (S fuel)), (parse_body_S fuel).
    apply IHbl.
  - intros ii fields r.
    rewrite (parse_body_loop_S (S fuel)), (parse_body_loop_S fuel).
    destruct ((ii <? length text) && negb (eqs (charAt text ii) (lit "}")));
      [|trivial].
    cbv zeta. destruct (error (parse_token text _ true)); [trivial|].
    destruct (parse_value fuel text _ ff) as [o|] eqn:E; [|discriminate].
    rewrite (IHv _ _ E). destruct o as [val|]; [|trivial].
    destruct (keeps ff _ && negb (obj_has _ fields) && inherited _);
      [trivial|].
    destruct (error val); [trivial|].
    destruct (_ =? ii); [trivial|]. apply IHbl.
  - intros ii r. rewrite (parse_list_S (S fuel)), (parse_list_S fuel).
    apply IHll.
  - intros ii items r.
    rewrite (parse_list_loop_S (S fuel)), (parse_list_loop_S fuel).
    destruct ((ii <? length text) && negb (eqs (charAt text ii) (lit "]")));
      [|trivial].
    cbv zeta.
    destruct (parse_value fuel text ii ff) as [o|] eqn:E; [|discriminate].
    rewrite (IHv _ _ E). destruct o as [item|]; [|trivial].
    destruct (error item); [trivial|].
    destruct (ii =? _); [trivial|]. apply IHll.
Qed.

(** More fuel does not change a result. *)
Lemma parse_value_more_fuel text ff ii r :
  forall fuel fuel', fuel <= fuel' ->
    parse_value fuel text ii ff = Some r ->
    parse_value fuel' text ii ff = Some r.
Proof.
  intros fuel fuel' H. induction H as [|fuel' _ IH]; [trivial|].
  intros E. apply (mono_at_all text ff fuel'). auto.
Qed.

Lemma parse_body_loop_more_fuel text ff ii fields r :
  forall fuel fuel', fuel <= fuel' ->
    parse_body_loop fuel text ff ii fields = Some r ->
    parse_body_loop fuel' text ff ii fields = Some r.
Proof.
  intros fuel fuel' H. induction H as [|fuel' _ IH]; [trivial|].
  intros E. apply (mono_at_all text ff fuel'). auto.
Qed.

Lemma body_rounds_S (fuel : nat) (text : str) (ff : option (str -> bool))
  (ii : nat) :
  body_rounds (S fuel) text ff ii =
  if (ii <? length text) && negb (eqs (charAt text ii) (lit "}")) then
    let old_ii := ii in
    let ii := consume_comments text ii in
    let name := parse_token text ii true in
    match error name with
    | Some _ => []
    | None =>
        let ii := position name in
        let ii := consume_comments text ii in
        let ii := if eqs (charAt text ii) (lit ":") then S ii else ii in
        let ii := consume_comments text ii in
        match parse_value fuel text ii ff with
        | Some (Returns val) =>
            let ii := if position val =? 0 then ii else position val in
            let ii := consume_comments text ii in
            (value name, val)
            :: match error val with
               | Some _ => []
               | None =>
                   let ii :=
                     if eqs (charAt text ii) (lit ",")
                     then consume_comments text (S ii) else ii in
                   if ii =? old_ii then []
                   else body_rounds fuel text ff ii
               end
        | _ => []
        end
    end
  else [].
Proof. reflexivity. Qed.

(** The rounds do not depend on the fuel once the loop returns. *)
Lemma body_rounds_more_fuel (text : str) (ff : option (str -> bool)) :
  forall fuel ii fields r,
    parse_body_loop fuel text ff ii fields = Some (Returns r) ->
    body_rounds (S fuel) text ff ii = body_rounds fuel text ff ii.
Proof.
  induction fuel as [|fuel IH]; intros ii fields r; [discriminate|].
  rewrite parse_body_loop_S, (body_rounds_S (S fuel)), (body_rounds_S fuel).
  destruct ((ii <? length text) && negb (eqs (charAt text ii) (lit "}")));
    [|trivial].
  cbv zeta. destruct (error (parse_token text _ true)); [trivial|].
  destruct (parse_value fuel text _ ff) as [[val|]|] eqn:E;
    try discriminate.
  rewrite (proj1 (mono_at_all text ff fuel) _ _ E).
  destruct (keeps ff _ && negb (obj_has _ fields) && inherited _);
    [discriminate|].
  destruct (error val); [trivial|].
  destruct (_ =? ii); [trivial|].
  intros H. f_equal. eapply IH. exact H.
Qed.

(** The value returned by the loop is the object it started from with
    the rounds pushed in order; no push has thrown. *)
Lemma body_loop_value (text : str) (ff : option (str -> bool)) :
  forall fuel ii fields r,
    parse_body_loop fuel text ff ii fields = Some (Returns r) ->
    value r
    = Object (fold_left (push_round ff) (body_rounds fuel text ff ii) fields).
Proof.
  induction fuel as [|fuel IH]; intros ii fields r; [discriminate|].
  rewrite parse_body_loop_S, body_rounds_S.
  destruct ((ii <? length text) && negb (eqs (charAt text ii) (lit "}")));
    [|intros E; injection E as <-; reflexivity].
  cbv zeta. destruct (error (parse_token text _ true));
    [intros E; injection E as <-; reflexivity|].
  destruct (parse_value fuel text _ ff) as [[val|]|]; try discriminate.
  destruct (keeps ff _ && negb (obj_has _ fields) && inherited _);
    [discriminate|].
  cbn [fold_left]. unfold push_round at 2. cbn [fst snd].
  destruct (error val); [intros E; injection E as <-; reflexivity|].
  destruct (_ =? ii); [intros E; injection E as <-; reflexivity|].
  apply IH.
Qed.

(** A round whose value fails is the last one, and its error is the
    error of the loop. *)
Lemma body_loop_failure (text : str) (ff : option (str -> bool)) :
  forall fuel ii fields r name val e,
    parse_body_loop fuel text ff ii fields = Some (Returns r) ->
    In (name, val) (body_rounds fuel text ff ii) ->
    error val = Some e ->
    error r = Some e
    /\ exists front, body_rounds fuel text ff ii = front ++ [(name, val)].
Proof.
  induction fuel as [|fuel IH]; intros ii fields r name val e;
    [discriminate|].
  rewrite parse_body_loop_S, body_rounds_S.
  destruct ((ii <? length text) && negb (eqs (charAt text ii) (lit "}")));
    [|intros _ []].
  cbv zeta. destruct (error (parse_token text _ true)); [intros _ []|].
  destruct (parse_value fuel text _ ff) as [[v|]|]; try discriminate.
  destruct (keeps ff _ && negb (obj_has _ fields) && inherited _);
    [discriminate|].
  destruct (error v) as [ev|] eqn:Hv.
  - intros E [H | []] He. injection H as <- ->. injection E as <-.
    cbn [error]. split; [congruence|]. exists []. reflexivity.
  - destruct (_ =? ii).
    + intros _ [H | []] He. injection H as <- ->. congruence.
    + intros E [H | H] He; [injection H as <- ->; congruence|].
      destruct (IH _ _ _ _ _ _ E H He) as (Hr & front & ->).
      split; [exact Hr|]. eexists (_ :: front). reflexivity.
Qed.

(* ------------------------------------------------------------------ *)
(** * Repeated fields and failing values *)

(** ** Reading a field after a write *)

Lemma obj_get_update_same {V} (key : str) (f : V -> V) (o : obj V) :
  obj_get key (obj_update key f o) = option_map f (obj_get key o).
Proof.
  induction o as [|[k v] o IH]; simpl; [reflexivity|].
  destruct (eqs k key) eqn:E; simpl; rewrite E; [reflexivity | exact IH].
Qed.

Lemma obj_get_update_other {V} (key key' : str) (f : V -> V) (o : obj V) :
  key' <> key -> obj_get key' (obj_update key f o) = obj_get key' o.
Proof.
  intros Hne. induction o as [|[k v] o IH]; simpl; [reflexivity|].
  destruct (eqs k key) eqn:E; simpl.
  - apply eqs_true in E. subst k.
    assert (E' : eqs key key' = false) by (apply eqs_false; congruence).
    now rewrite E'.
  - destruct (eqs k key'); [reflexivity | exact IH].
Qed.

Lemma obj_has_get {V} (key : str) (o : obj V) :
  obj_has key o = false -> obj_get key o = None.
Proof.
  induction o as [|[k v] o IH]; simpl; [reflexivity|].
  intros H. apply orb_false_iff in H as [H1 H2]. rewrite H1. auto.
Qed.

Lemma obj_get_has {V} (key : str) (o : obj V) :
  obj_has key o = true -> exists v, obj_get key o = Some v.
Proof.
  induction o as [|[k v] o IH]; simpl; [discriminate|].
  destruct (eqs k key); simpl; eauto.
Qed.

Lemma obj_get_insert_same {V} (key : str) (n : N) (v : V) (o : obj V) :
  obj_has key o = false -> obj_get key (obj_insert key n v o) = Some v.
Proof.
  induction o as [|[k w] o IH]; simpl.
  - now rewrite eqs_refl.
  - intros H. apply orb_false_iff in H as [H1 H2].
    destruct (array_index k) as [m|]; [destruct (N.ltb m n)|]; simpl;
      rewrite ?eqs_refl, ?H1; auto.
Qed.

Lemma obj_get_insert_other {V} (key key' : str) (n : N) (v : V) (o : obj V) :
  key' <> key -> obj_get key' (obj_insert key n v o) = obj_get key' o.
Proof.
  intros Hne.
  assert (E : eqs key key' = false) by (apply eqs_false; congruence).
  induction o as [|[k w] o IH]; simpl; [now rewrite E|].
  destruct (array_index k) as [m|]; [destruct (N.ltb m n)|]; simpl;
    rewrite ?E; try reflexivity.
  destruct (eqs k key'); [reflexivity | exact IH].
Qed.

Lemma obj_get_app_absent {V} (key : str) (o o' : obj V) :
  obj_get key (o ++ o') =
  match obj_get key o with Some v => Some v | None => obj_get key o' end.
Proof.
  induction o as [|[k w] o IH]; simpl; [reflexivity|].
  destruct (eqs k key); [reflexivity | exact IH].
Qed.

Lemma obj_get_set_same {V} (key : str) (v : V) (o : obj V) :
  obj_get key (obj_set key v o) = Some v.
Proof.
  unfold obj_set. destruct (obj_has key o) eqn:H.
  - rewrite obj_get_update_same.
    destruct (obj_get_has _ _ H) as (w & ->). reflexivity.
  - destruct (array_index key); [now apply obj_get_insert_same|].
    rewrite obj_get_app_absent, (obj_has_get _ _ H). simpl.
    now rewrite eqs_refl.
Qed.

Lemma obj_get_set_other {V} (key key' : str) (v : V) (o : obj V) :
  key' <> key -> obj_get key' (obj_set key v o) = obj_get key' o.
Proof.
  intros Hne. unfold obj_set. destruct (obj_has key o).
  - now apply obj_get_update_other.
  - destruct (array_index key); [now apply obj_get_insert_other|].
    rewrite obj_get_app_absent. simpl.
    assert (E : eqs key key' = false) by (apply eqs_false; congruence).
    rewrite E. destruct (obj_get key' o); reflexivity.
Qed.

(** Pushing on a field appends to its sequence and to no other. *)
Lemma field_values_push_same (key : str) (v : node) (o : obj (list node)) :
  field_values key (own_push key v o) = field_values key o ++ [v].
Proof.
  unfold field_values, own_push. rewrite obj_get_update_same.
  destruct (obj_has key o) eqn:H; simpl.
  - destruct (obj_get_has _ _ H) as (l & ->). reflexivity.
  - rewrite obj_get_set_same, (obj_has_get _ _ H). reflexivity.
Qed.

Lemma field_values_push_other (key key' : str) (v : node)
  (o : obj (list node)) :
  key' <> key -> field_values key' (own_push key v o) = field_values key' o.
Proof.
  intros Hne. unfold field_values, own_push.
  rewrite obj_get_update_other by assumption.
  destruct (obj_has key o); simpl; [reflexivity|].
  now rewrite obj_get_set_other.
Qed.

(** The sequence of a field after the rounds: what it held before,
    followed by the values of the rounds that name it, in order. *)
Lemma field_values_rounds (ff : option (str -> bool)) (name : str) :
  forall (rounds : list (str * result node)) (fields : ProtoObject),
    field_values name (fold_left (push_round ff) rounds fields)
    = field_values name fields
      ++ map (fun round => value (snd round))
           (filter (fun round => eqs (fst round) name && keeps ff name) rounds).
Proof.
  induction rounds as [|[n val] rounds IH]; intros fields; simpl.
  - now rewrite app_nil_r.
  - rewrite IH. unfold push_round. cbn [fst snd].
    destruct (eqs n name) eqn:E.
    + apply eqs_true in E. subst n.
      destruct (keeps ff name); simpl; [|reflexivity].
      now rewrite field_values_push_same, <- app_assoc.
    + simpl. apply eqs_false in E.
      destruct (keeps ff n); [|reflexivity].
      rewrite field_values_push_other by congruence. reflexivity.
Qed.

(** ** [parse_proto] returns the value of its body *)

Lemma parse_proto_body (text : str) (ff : option (str -> bool)) (ii : nat) :
  forall fuel res,
    parse_proto (S (S fuel)) text ii ff = Some (Returns res) ->
    exists body,
      parse_body_loop fuel text ff (body_start text ii) []
      = Some (Returns body)
      /\ value res = value body.
Proof.
  intros fuel res. rewrite parse_proto_S. cbv zeta. rewrite parse_body_S.
  fold (body_start text ii).
  destruct (parse_body_loop fuel text ff (body_start text ii) [])
    as [[body|]|]; try discriminate.
  intros E. exists body. split; [reflexivity|].
  destruct (error body); [now injection E as <-|].
  destruct (eqs (charAt text (consume_comments text ii)) (lit "{"));
    now injection E as <-.
Qed.

Lemma fuel_for_S (text : str) : fuel_for text = S (S (4 * length text + 2)).
Proof. unfold fuel_for. lia. Qed.

Lemma proto_rounds_loop (text : str) (ff : option (str -> bool)) (ii : nat)
  (body : result node) :
  parse_body_loop (4 * length text + 2) text ff (body_start text ii) []
  = Some (Returns body) ->
  proto_rounds text ii ff
  = body_rounds (4 * length text + 2) text ff (body_start text ii).
Proof.
  intros E. unfold proto_rounds. rewrite fuel_for_S.
  pose proof (proj1 (proj2 (proj2 (proj2 (mono_at_all text ff _)))) _ _ _ E)
    as E'.
  etransitivity; eapply body_rounds_more_fuel; eassumption.
Qed.

(** X29: when [parse_proto] returns, it returns an object in which the
    sequence of every field holds the values of all the rounds of the
    body loop that read that field name (and that the field filter
    keeps), in the order of the rounds: every occurrence is appended, none
    overwrites an earlier one; and parsing [a { b: 1 } a { b: 2 }] gives
    [{a: [{b: ["1"]}, {b: ["2"]}]}], two positions under the field [a]. *)
Theorem repeated_fields_append :
  (forall (text : str) (ii : nat) (filter_func : option (str -> bool))
          (res : result node),
      parse_proto (fuel_for text) text ii filter_func = Some (Returns res) ->
      exists fields,
        value res = Object fields
        /\ forall name,
             field_values name fields
             = map (fun round => value (snd round))
                 (filter (fun round =>
                            eqs (fst round) name && keeps filter_func name)
                    (proto_rounds text ii filter_func)))
  /\ parse_proto (fuel_for text_repeated) text_repeated 0 None
     = Some (Returns
               {| value :=
                    Object [(lit "a",
                             [Object [(lit "b", [Scalar (lit "1")])];
                              Object [(lit "b", [Scalar (lit "2")])]])];
                  position := 21;
                  error := None |}).
Proof.
  split; [|vm_compute; reflexivity].
  intros text ii ff res E.
  pose proof E as E'. rewrite fuel_for_S in E'.
  apply parse_proto_body in E' as (body & Hb & Hv).
  eexists. rewrite Hv. split; [eapply body_loop_value; exact Hb|].
  intros name. rewrite field_values_rounds.
  erewrite proto_rounds_loop by exact Hb. reflexivity.
Qed.

Lemma repeated_fields_append_witness :
  exists fields,
    Object [(lit "a",
             [Object [(lit "b", [Scalar (lit "1")])];
              Object [(lit "b", [Scalar (lit "2")])]])]
    = Object fields
    /\ forall name,
         field_values name fields
         = map (fun round => value (snd round))
             (filter (fun round => eqs (fst round) name && keeps None name)
                (proto_rounds text_repeated 0 None)).
Proof.
  apply (proj1 repeated_fields_append text_repeated 0 None
           {| value :=
                Object [(lit "a",
                         [Object [(lit "b", [Scalar (lit "1")])];
                          Object [(lit "b", [Scalar (lit "2")])]])];
              position := 21;
              error := None |}).
  vm_compute. reflexivity.
Defined.

(** C3: a repeated field whose name every object inherits is not
    appended to a sequence: on [constructor: 1 constructor: 2] the test
    [name.value in result.value] is true before any push, no array is
    made, and the first push throws a TypeError, so that [parse_proto]
    returns no tree at all. *)
Theorem repeated_inherited_name_throws :
  obj_push (lit "constructor") (Scalar (lit "1")) [] = TypeError
  /\ parse_body (fuel_for text_constructor) text_constructor 0 None
     = Some TypeError
  /\ parse_proto (fuel_for text_constructor) text_constructor 0 None
     = Some TypeError.
Proof. repeat split; vm_compute; reflexivity. Qed.

(** X30: when [parse_body] returns and the value of a round has failed
    to parse, that round is the last one, its error is the error that
    [parse_body] returns, and the returned object holds, for every field
    name, the values of the earlier rounds that read that name (and that
    the field filter keeps), in order, followed for the name of the
    failing round, unless the filter excludes it, by the partial value of
    that round. *)
Theorem failing_value_is_kept :
  forall (text : str) (ii : nat) (filter_func : option (str -> bool))
         (res : result node) (name : str) (val : result node) (e : str),
    parse_body (fuel_for text) text ii filter_func = Some (Returns res) ->
    In (name, val) (body_rounds (fuel_for text) text filter_func ii) ->
    error val = Some e ->
    error res = Some e
    /\ exists front fields,
         body_rounds (fuel_for text) text filter_func ii
         = front ++ [(name, val)]
         /\ value res = Object fields
         /\ forall key,
              field_values key fields
              = map (fun round => value (snd round))
                  (filter (fun round =>
                             eqs (fst round) key && keeps filter_func key)
                     front)
                ++ (if eqs name key && keeps filter_func key
                    then [value val] else []).
Proof.
  intros text ii ff res name val e E Hin He.
  unfold fuel_for in *.
  replace (4 * length text + 4) with (S (4 * length text + 3)) in * by lia.
  rewrite parse_body_S in E.
  erewrite body_rounds_more_fuel in * by exact E.
  edestruct body_loop_failure as (Hr & front & Hf);
    [exact E | exact Hin | exact He |].
  split; [exact Hr|]. exists front. eexists.
  split; [exact Hf|].
  split; [eapply body_loop_value; exact E|].
  intros key. rewrite field_values_rounds, Hf, filter_app, map_app.
  cbn [field_values obj_get app filter fst snd].
  destruct (eqs name key && keeps ff key); reflexivity.
Qed.

Lemma failing_value_is_kept_witness :
  error {| value := Object [(lit "a", [Scalar (lit "1")]);
                            (lit "b", [Object [(lit "c", [Scalar (lit "2")])]])];
           position := 13;
           error := Some (lit "Missing Closing Brace") |}
  = Some (lit "Missing Closing Brace")
  /\ exists front fields,
       body_rounds (fuel_for text_unclosed) text_unclosed None 0
       = front ++ [(lit "b",
                    {| value := Object [(lit "c", [Scalar (lit "2")])];
                       position := 13;
                       error := Some (lit "Missing Closing Brace") |})]
       /\ Object [(lit "a", [Scalar (lit "1")]);
                  (lit "b", [Object [(lit "c", [Scalar (lit "2")])]])]
          = Object fields
       /\ forall key,
            field_values key fields
            = map (fun round => value (snd round))
                (filter (fun round => eqs (fst round) key && keeps None key)
                   front)
              ++ (if eqs (lit "b") key && keeps None key
                  then [Object [(lit "c", [Scalar (lit "2")])]] else []).
Proof.
  apply (failing_value_is_kept text_unclosed 0 None
           {| value := Object [(lit "a", [Scalar (lit "1")]);
                               (lit "b",
                                [Object [(lit "c", [Scalar (lit "2")])]])];
              position := 13;
              error := Some (lit "Missing Closing Brace") |}
           (lit "b")
           {| value := Object [(lit "c", [Scalar (lit "2")])];
              position := 13;
              error := Some (lit "Missing Closing Brace") |}
           (lit "Missing Closing Brace")).
  - vm_compute. reflexivity.
  - vm_compute. right. left. reflexivity.
  - reflexivity.
Defined.

(** C10: under a field name that every object inherits, a value that
    fails to parse is not appended and its error is not returned: on
    [valueOf: {a: 1] the value comes back from [parse_value] with the
    error [Missing Closing Brace], and the push that follows throws a
    TypeError, so that [parse_body] returns neither a tree nor the
    error. *)
Theorem failing_value_under_inherited_name_throws :
  parse_value (fuel_for text_value_of) text_value_of 9 None
  = Some (Returns {| value := Object [(lit "a", [Scalar (lit "1")])];
                     position := 14;
                     error := Some (lit "Missing Closing Brace") |})
  /\ parse_body (fuel_for text_value_of) text_value_of 0 None
     = Some TypeError
  /\ parse_proto (fuel_for text_value_of) text_value_of 0 None
     = Some TypeError.
Proof. repeat split; vm_compute; reflexivity. Qed.

(* ------------------------------------------------------------------ *)
(** * Reading a text of a known shape *)

(** ** The text from a position on *)

Lemma skipn_app_at {T} (text a b : list T) (ii : nat) :
  skipn ii text = a ++ b -> skipn (ii + length a) text = b.
Proof.
  intros H. rewrite Nat.add_comm, <- skipn_skipn, H.
  rewrite skipn_app, skipn_all, Nat.sub_diag. reflexivity.
Qed.

Lemma skipn_head {T} (text rest : list T) (ii : nat) (c : T) :
  skipn ii text = c :: rest -> nth_error text ii = Some c.
Proof.
  intros H. rewrite <- (Nat.add_0_r ii), <- nth_error_skipn, H. reflexivity.
Qed.

Lemma skipn_head_lt {T} (text rest : list T) (ii : nat) (c : T) :
  skipn ii text = c :: rest -> ii < length text.
Proof.
  intros H. apply nth_error_Some. rewrite (skipn_head _ _ _ _ H). discriminate.
Qed.

Lemma skipn_nil_ge {T} (text : list T) (ii : nat) :
  skipn ii text = [] -> length text <= ii.
Proof.
  intros H. pose proof (length_skipn ii text) as L. rewrite H in L.
  simpl in L. lia.
Qed.

Lemma charAt_head (text rest : str) (ii : nat) (c : N) :
  skipn ii text = c :: rest -> charAt text ii = [c].
Proof. intros H. unfold charAt. now rewrite (skipn_head _ _ _ _ H). Qed.

Lemma charAt_nil (text : str) (ii : nat) :
  skipn ii text = [] -> charAt text ii = [].
Proof.
  intros H. unfold charAt.
  now rewrite (proj2 (nth_error_None text ii) (skipn_nil_ge _ _ H)).
Qed.

Lemma substr_skipn (text a b : str) (ii : nat) :
  skipn ii text = a ++ b ->
  substr text (Z.of_nat ii) (Z.of_nat (length a)) = a.
Proof.
  intros H. unfold substr.
  assert (E : (Z.of_nat ii <? 0)%Z = false) by (apply Z.ltb_ge; lia).
  rewrite E, !Nat2Z.id, H, firstn_app, firstn_all, Nat.sub_diag.
  simpl. now rewrite app_nil_r.
Qed.

(** ** Runs of a character class *)

Lemma scan_run (regexp : N -> bool) (a b : str) :
  forallb regexp a = true -> starts (fun c => negb (regexp c)) b = true ->
  forall jj, scan regexp (a ++ b) jj = jj + length a.
Proof.
  intros Ha Hb. induction a as [|c a IH]; intros jj; simpl.
  - destruct b as [|c b]; simpl in *; [lia|].
    apply negb_true_iff in Hb. rewrite Hb. lia.
  - simpl in Ha. apply andb_true_iff in Ha as [Hc Ha].
    rewrite Hc, (IH Ha). lia.
Qed.

Lemma consume_regexp_run (regexp : N -> bool) (text a b : str) (ii : nat) :
  skipn ii text = a ++ b ->
  forallb regexp a = true -> starts (fun c => negb (regexp c)) b = true ->
  consume_regexp text ii regexp
  = {| value := a; position := ii + length a; error := None |}.
Proof.
  intros H Ha Hb. unfold consume_regexp.
  rewrite H, (scan_run _ _ _ Ha Hb).
  replace (ii + length a - ii) with (length a) by lia.
  now rewrite (substr_skipn _ _ _ _ H).
Qed.

Lemma starts_weaken (p q : N -> bool) (rest : str) :
  (forall c, p c = true -> q c = true) ->
  starts p rest = true -> starts q rest = true.
Proof. intros H. destruct rest; simpl; auto. Qed.

Lemma stop_not_space (c : N) : stop_char c = true -> negb (is_space c) = true.
Proof. unfold stop_char. intros H. now apply andb_true_iff in H as [H _]. Qed.

Lemma consume_whitespace_run (text ws rest : str) (ii : nat) :
  skipn ii text = ws ++ rest ->
  forallb is_space ws = true -> starts stop_char rest = true ->
  consume_whitespace text ii = ii + length ws.
Proof.
  intros H Hw Hr. unfold consume_whitespace.
  rewrite (consume_regexp_run _ _ _ _ _ H Hw); [reflexivity|].
  exact (starts_weaken _ _ _ stop_not_space Hr).
Qed.

(** Over white space [consume_comments] runs to the next character that
    is neither white space nor the start of a comment. *)
Lemma consume_comments_run (text ws rest : str) (ii : nat) :
  skipn ii text = ws ++ rest ->
  forallb is_space ws = true -> starts stop_char rest = true ->
  consume_comments text ii = ii + length ws.
Proof.
  intros H Hw Hr. unfold consume_comments.
  rewrite (consume_whitespace_run _ _ _ _ H Hw Hr).
  apply comments_loop_stay.
  apply skipn_app_at in H. destruct rest as [|c rest].
  - now rewrite (charAt_nil _ _ H).
  - rewrite (charAt_head _ _ _ _ H). simpl in Hr. unfold stop_char in Hr.
    apply andb_true_iff in Hr as [_ Hr]. apply negb_true_iff in Hr.
    simpl. now rewrite Hr.
Qed.

Lemma consume_comments_here (text rest : str) (ii : nat) :
  skipn ii text = rest -> starts stop_char rest = true ->
  consume_comments text ii = ii.
Proof.
  intros H Hr.
  rewrite (consume_comments_run text [] rest ii H eq_refl Hr). simpl. lia.
Qed.

(** ** Tokens and quoted strings *)

Lemma eqs_single (c q : N) : eqs [c] [q] = N.eqb c q.
Proof. simpl. apply andb_true_r. Qed.

Lemma string_loop_closes (q : N) (body : str) :
  forall escape suf jj acc,
    closes_at_end q body escape = true ->
    string_loop [q] (body ++ suf) jj escape acc
    = (acc ++ body, jj + length body - 1).
Proof.
  induction body as [|c body IH]; intros escape suf jj acc H;
    [discriminate|].
  cbn [closes_at_end] in H. cbn [app string_loop].
  rewrite eqs_single. unfold backslash. rewrite eqs_single.
  destruct (negb escape && N.eqb c q).
  - destruct body; [|discriminate]. simpl. f_equal. lia.
  - rewrite (IH _ _ _ _ H), <- app_assoc. simpl. f_equal.
    destruct body; [discriminate|]. simpl. lia.
Qed.

Lemma closes_at_end_last (q : N) (body : str) :
  forall escape,
    closes_at_end q body escape = true ->
    nth_error body (length body - 1) = Some q.
Proof.
  induction body as [|c body IH]; intros escape H; [discriminate|].
  cbn [closes_at_end] in H.
  destruct (negb escape && N.eqb c q) eqn:E.
  - destruct body; [|discriminate].
    apply andb_true_iff in E as [_ E]. apply N.eqb_eq in E. now subst.
  - specialize (IH _ H). destruct body; [discriminate|].
    simpl in *. now rewrite Nat.sub_0_r in IH.
Qed.

(** A complete quoted string is read back as it is. *)
Lemma parse_string_quoted (text s rest : str) (ii : nat) :
  quoted_ok s = true -> skipn ii text = s ++ rest ->
  parse_string text ii
  = {| value := s;
       position := consume_comments text (ii + length s);
       error := None |}.
Proof.
  intros Hq H. destruct s as [|q body]; [discriminate|].
  cbn [quoted_ok] in Hq. apply andb_true_iff in Hq as [Hq Hc].
  unfold parse_string. rewrite (charAt_head _ _ _ _ H).
  assert (E1 : negb (eqs [q] squote) && negb (eqs [q] dquote) = false).
  { unfold squote, dquote. rewrite !eqs_single.
    apply orb_true_iff in Hq as [-> | ->]; simpl;
      [apply andb_false_r | reflexivity]. }
  rewrite E1.
  assert (H' : skipn (ii + 1) text = body ++ rest).
  { apply (skipn_app_at text [q] (body ++ rest) ii H). }
  rewrite H', (string_loop_closes _ _ _ _ _ _ Hc).
  assert (Hb : 1 <= length body) by (destruct body; [discriminate | simpl; lia]).
  replace (ii + 1 + length body - 1) with (ii + length body) by lia.
  assert (Hn : nth_error text (ii + length body) = Some q).
  { replace (ii + length body) with (ii + 1 + (length body - 1)) by lia.
    rewrite <- nth_error_skipn, H', nth_error_app1 by lia.
    exact (closes_at_end_last _ _ _ Hc). }
  assert (Hlt : ii + length body < length text)
    by (apply nth_error_Some; congruence).
  apply Nat.leb_gt in Hlt. rewrite Hlt.
  unfold charAt at 1. rewrite Hn, eqs_refl.
  simpl. do 2 f_equal. lia.
Qed.

Lemma name_re_not_quote (c : N) :
  name_re c = true -> eqs [c] dquote || eqs [c] squote = false.
Proof.
  unfold dquote, squote. rewrite !eqs_single. intros H.
  destruct (N.eqb_spec c 34) as [->|_]; [discriminate|].
  destruct (N.eqb_spec c 39) as [->|_]; [discriminate|]. reflexivity.
Qed.

Lemma token_re_name_re (c : N) : token_re c = true -> name_re c = true.
Proof.
  unfold token_re, name_re. intros H.
  destruct (is_word c), (N.eqb c 46), (N.eqb c 45), (N.eqb c 43),
    (N.eqb c 47), (N.eqb c 91), (N.eqb c 93); simpl in *; congruence.
Qed.

Lemma token_class_not_quote (b : bool) (c : N) :
  token_class b c = true -> eqs [c] dquote || eqs [c] squote = false.
Proof.
  destruct b; simpl; intros H; apply name_re_not_quote;
    [assumption | now apply token_re_name_re].
Qed.

Lemma quoted_not_class (b : bool) (s : str) :
  quoted_ok s = true -> forallb (token_class b) s = false.
Proof.
  destruct s as [|q s]; [discriminate|]. cbn [quoted_ok forallb].
  intros H. apply andb_true_iff in H as [H _].
  destruct (token_class b q) eqn:E; [|reflexivity].
  apply token_class_not_quote in E. unfold dquote, squote in E.
  rewrite !eqs_single in E. apply orb_false_iff in E as [E1 E2].
  rewrite E1, E2 in H. discriminate.
Qed.

(** A lexeme followed by white space and a stop character is read back
    as it is; [consume_comments] then stands on the stop character. *)
Lemma parse_token_lexeme (text s ws rest : str) (ii : nat) (b : bool) :
  lexeme (token_class b) s = true -> nonempty s = true ->
  skipn ii text = s ++ ws ++ rest ->
  forallb is_space ws = true -> starts stop_char rest = true ->
  starts (fun c => negb (token_class b c)) (ws ++ rest) = true ->
  exists p,
    parse_token text ii b = {| value := s; position := p; error := None |}
    /\ ii + length s <= p
    /\ consume_comments text p = ii + length s + length ws.
Proof.
  intros Hl Hn H Hw Hr He.
  pose proof (skipn_app_at _ _ _ _ H) as H2.
  unfold lexeme in Hl. destruct (quoted_ok s) eqn:Hq.
  - exists (consume_comments text (ii + length s)).
    rewrite (consume_comments_run _ _ _ _ H2 Hw Hr).
    pose proof (skipn_app_at _ _ _ _ H2) as H3.
    rewrite (consume_comments_here _ _ _ H3 Hr).
    split; [|split; [lia | reflexivity]].
    unfold parse_token. cbn [is_defined negb].
    destruct s as [|q s']; [discriminate|].
    rewrite (charAt_head _ _ _ _ H).
    assert (E : eqs [q] dquote || eqs [q] squote = true).
    { cbn [quoted_ok] in Hq. apply andb_true_iff in Hq as [Hq _].
      unfold dquote, squote. now rewrite !eqs_single. }
    rewrite E, (parse_string_quoted _ _ _ _ Hq H).
    now rewrite (consume_comments_run _ _ _ _ H2 Hw Hr).
  - rewrite orb_false_r in Hl. exists (ii + length s).
    split; [|split; [lia | exact (consume_comments_run _ _ _ _ H2 Hw Hr)]].
    unfold parse_token. cbn [is_defined negb].
    destruct s as [|c s'] eqn:Es; [discriminate|]. rewrite <- Es in *.
    assert (Hc : charAt text ii = [c]).
    { apply (charAt_head text (s' ++ ws ++ rest)). rewrite H, Es.
      reflexivity. }
    assert (Hnq : eqs [c] dquote || eqs [c] squote = false).
    { apply (token_class_not_quote b). rewrite Es in Hl. simpl in Hl.
      now apply andb_true_iff in Hl as [Hl _]. }
    rewrite Hc, Hnq. fold (token_class b).
    now rewrite (consume_regexp_run _ _ _ _ _ H Hl He).
Qed.

(** ** Printed lists *)

Ltac class_facts H :=
  unfold stop_char, token_class, name_re, token_re, is_word, is_space,
    in_range in *;
  repeat rewrite ?orb_true_iff, ?andb_true_iff, ?negb_true_iff,
    ?orb_false_iff, ?andb_false_iff, ?N.leb_le, ?N.leb_gt, ?N.eqb_eq,
    ?N.eqb_neq in *;
  lia.

Lemma name_re_stop (c : N) : name_re c = true -> stop_char c = true.
Proof. intros H. class_facts H. Qed.

Lemma name_re_not (c : N) :
  name_re c = true ->
  c <> 125%N /\ c <> 123%N /\ c <> 58%N /\ c <> 44%N /\ c <> 32%N /\ c <> 10%N.
Proof. intros H. class_facts H. Qed.

Lemma token_re_not (c : N) :
  token_re c = true -> c <> 91%N /\ c <> 93%N.
Proof. intros H. class_facts H. Qed.

(** The first character of a non-empty lexeme. *)
Lemma lexeme_head (b : bool) (s : str) :
  lexeme (token_class b) s = true -> nonempty s = true ->
  exists c s', s = c :: s'
               /\ (token_class b c = true \/ c = 34%N \/ c = 39%N).
Proof.
  destruct s as [|c s]; [discriminate|]. intros H _. exists c, s.
  split; [reflexivity|]. unfold lexeme in H.
  apply orb_true_iff in H as [H | H].
  - left. simpl in H. now apply andb_true_iff in H as [H _].
  - right. cbn [quoted_ok] in H. apply andb_true_iff in H as [H _].
    apply orb_true_iff in H as [H | H]; apply N.eqb_eq in H; auto.
Qed.

Lemma lexeme_head_facts (b : bool) (s : str) :
  lexeme (token_class b) s = true -> nonempty s = true ->
  exists c s', s = c :: s'
               /\ stop_char c = true
               /\ c <> 125%N /\ c <> 123%N /\ c <> 58%N /\ c <> 44%N
               /\ (b = false -> c <> 91%N /\ c <> 93%N).
Proof.
  intros H Hn. destruct (lexeme_head b s H Hn) as (c & s' & -> & Hc).
  exists c, s'. split; [reflexivity|].
  destruct Hc as [Hc | [-> | ->]].
  - assert (Hname : name_re c = true)
      by (destruct b; [exact Hc | now apply token_re_name_re]).
    pose proof (name_re_not c Hname) as (H1 & H2 & H3 & H4 & _).
    split; [now apply name_re_stop|].
    do 4 (split; [assumption|]).
    intros ->. now apply token_re_not.
  - split; [reflexivity|]. do 4 (split; [discriminate|]).
    intros _. split; discriminate.
  - split; [reflexivity|]. do 4 (split; [discriminate|]).
    intros _. split; discriminate.
Qed.

Lemma charAt_not (text rest : str) (ii : nat) (c d : N) :
  skipn ii text = c :: rest -> c <> d -> eqs (charAt text ii) [d] = false.
Proof.
  intros H Hne. rewrite (charAt_head _ _ _ _ H). rewrite eqs_single.
  now apply N.eqb_neq.
Qed.

Lemma charAt_at (text rest : str) (ii : nat) (c : N) :
  skipn ii text = c :: rest -> eqs (charAt text ii) [c] = true.
Proof. intros H. rewrite (charAt_head _ _ _ _ H). apply eqs_refl. Qed.

Lemma in_text (text rest : str) (ii : nat) (c : N) :
  skipn ii text = c :: rest -> (ii <? length text) = true.
Proof. intros H. apply Nat.ltb_lt. exact (skipn_head_lt _ _ _ _ H). Qed.

(** The loop of [parse_list] over printed scalars. *)
Lemma parse_list_loop_scalars (items : list node) :
  forallb scalar_ok items = true ->
  forall acc fuel text ii ws rest r,
    skipn ii text = list_tail items ++ lit "]" ++ ws ++ rest ->
    forallb is_space ws = true -> starts stop_char rest = true ->
    parse_list_loop fuel text None ii acc = Some r ->
    r = Returns {| value := Arr (acc ++ items);
                   position := ii + length (list_tail items) + 1 + length ws;
                   error := None |}.
Proof.
  induction items as [|x items IH]; intros Hok acc fuel text ii ws rest r
    H Hw Hr E; (destruct fuel as [|fuel]; [discriminate|]);
    rewrite parse_list_loop_S in E.
  - change (list_tail [] ++ lit "]" ++ ws ++ rest)
      with (93%N :: ws ++ rest) in H.
    change (lit "]") with [93%N] in E.
    rewrite (charAt_at _ _ _ _ H), andb_false_r in E.
    unfold parse_list_end in E.
    pose proof (skipn_head_lt _ _ _ _ H) as Hlt.
    apply Nat.leb_gt in Hlt. rewrite Hlt in E.
    change (lit "]") with [93%N] in E. rewrite (charAt_at _ _ _ _ H) in E.
    pose proof (skipn_app_at text [93%N] (ws ++ rest) ii H) as H1.
    replace (S ii) with (ii + length [93%N]) in E by (simpl; lia).
    rewrite (consume_comments_run _ _ _ _ H1 Hw Hr) in E.
    injection E as <-. rewrite app_nil_r. simpl. do 2 f_equal. lia.
  - cbn [forallb] in Hok. apply andb_true_iff in Hok as [Hx Hok].
    destruct x as [s| |]; try discriminate. cbn [scalar_ok] in Hx.
    apply andb_true_iff in Hx as [Hl Hn].
    cbn [list_tail to_string] in H. rewrite <- !app_assoc in H.
    destruct (lexeme_head_facts false s Hl Hn)
      as (c & s' & Es & Hstop & Hc1 & Hc2 & Hc3 & Hc4 & Hc5).
    destruct (Hc5 eq_refl) as [Hc6 Hc7].
    assert (H0 : skipn ii text
                 = c :: s' ++ (match items with [] => lit " " | _ => lit ", " end)
                      ++ list_tail items ++ lit "]" ++ ws ++ rest)
      by (rewrite H, Es; reflexivity).
    change (lit "]") with [93%N] in E at 1.
    rewrite (in_text _ _ _ _ H0), (charAt_not _ _ _ _ _ H0 Hc7) in E.
    cbn [andb negb] in E. cbv zeta in E.
    destruct fuel as [|fuel]; [discriminate|].
    rewrite parse_value_S in E.
    change (lit "{") with [123%N] in E. change (lit "[") with [91%N] in E.
    rewrite (charAt_not _ _ _ _ _ H0 Hc2), (charAt_not _ _ _ _ _ H0 Hc6) in E.
    cbv zeta in E.
    (* what follows the scalar *)
    assert (Hnext : exists wt rt,
               (match items with [] => lit " " | _ => lit ", " end)
               ++ list_tail items ++ lit "]" ++ ws ++ rest = wt ++ rt
               /\ forallb is_space wt = true /\ starts stop_char rt = true
               /\ starts (fun c => negb (token_class false c)) (wt ++ rt) = true
               /\ exists i2,
                    (let i1 := ii + length s + length wt in
                     (if (i1 <? length text)
                         && eqs (charAt text i1) (lit ",")
                      then consume_comments text (S i1) else i1) = i2)
                    /\ skipn i2 text
                       = list_tail items ++ lit "]" ++ ws ++ rest
                    /\ i2 = ii + length s
                            + length (match items with
                                      | [] => lit " "
                                      | _ => lit ", "
                                      end)).
    { destruct items as [|y items'].
      - exists (lit " "), (lit "]" ++ ws ++ rest).
        split; [reflexivity|]. split; [reflexivity|].
        split; [reflexivity|]. split; [reflexivity|].
        exists (ii + length s + 1). cbv zeta.
        assert (H1 : skipn (ii + length s + 1) text
                     = 93%N :: ws ++ rest).
        { pose proof (skipn_app_at _ _ _ _ H) as H1.
          exact (skipn_app_at _ (lit " ") _ _ H1). }
        change (length (lit " ")) with 1.
        change (lit ",") with [44%N].
        rewrite (charAt_not _ _ _ _ _ H1) by discriminate.
        rewrite andb_false_r. split; [reflexivity|].
        split; [exact H1 | reflexivity].
      - cbn [forallb] in Hok. apply andb_true_iff in Hok as [Hy _].
        destruct y as [t| |]; try discriminate. cbn [scalar_ok] in Hy.
        apply andb_true_iff in Hy as [Hyl Hyn].
        destruct (lexeme_head_facts false t Hyl Hyn)
          as (d & t' & Et & Hdstop & _).
        exists [], (lit ", " ++ list_tail (Scalar t :: items')
                    ++ lit "]" ++ ws ++ rest).
        split; [reflexivity|]. split; [reflexivity|].
        split; [reflexivity|]. split; [reflexivity|].
        exists (ii + length s + 2). cbv zeta.
        pose proof (skipn_app_at _ _ _ _ H) as H1.
        change (lit ", " ++ list_tail (Scalar t :: items')
                ++ lit "]" ++ ws ++ rest)
          with (44%N :: 32%N :: list_tail (Scalar t :: items')
                ++ lit "]" ++ ws ++ rest) in H1.
        change (length []) with 0. rewrite Nat.add_0_r.
        change (lit ",") with [44%N].
        rewrite (in_text _ _ _ _ H1), (charAt_at _ _ _ _ H1). cbn [andb].
        pose proof (skipn_app_at text [44%N] _ _ H1) as H2.
        replace (S (ii + length s)) with (ii + length s + length [44%N])
          by (simpl; lia).
        assert (Hst : starts stop_char
                        (list_tail (Scalar t :: items')
                         ++ lit "]" ++ ws ++ rest) = true).
        { cbn [list_tail to_string]. rewrite Et. exact Hdstop. }
        rewrite (consume_comments_run text [32%N] _ _ H2 eq_refl Hst).
        split; [simpl; lia|].
        split; [|reflexivity].
        replace (ii + length s + 2) with (ii + length s + length [44%N] + length [32%N])
          by (simpl; lia).
        exact (skipn_app_at text [32%N] _ _ H2). }
    destruct Hnext as (wt & rt & Hsplit & Hwt & Hrt & Hend & i2 & Hi2 & Hskip & Hlen).
    rewrite Hsplit in H.
    destruct (parse_token_lexeme text s wt rt ii false Hl Hn H Hwt Hrt Hend)
      as (p & Etok & Hp & Hcc).
    rewrite Etok in E. cbn [error value position] in E.
    rewrite Hcc in E. cbv zeta in Hi2. rewrite Hi2 in E.
    assert (Hs1 : 1 <= length s) by (rewrite Es; simpl; lia).
    assert (Hne : (ii =? i2) = false) by (apply Nat.eqb_neq; lia).
    rewrite Hne in E.
    rewrite (IH Hok _ _ _ _ _ _ _ Hskip Hw Hr E).
    rewrite <- app_assoc. cbn [app].
    do 2 f_equal. cbn [list_tail to_string]. rewrite !length_app. lia.
Qed.

(** ** The rounds of [consume_comments] are never exhausted *)

Lemma scan_stops (regexp : N -> bool) (rest : str) :
  forall jj,
    starts (fun c => negb (regexp c))
      (skipn (scan regexp rest jj - jj) rest) = true.
Proof.
  induction rest as [|c rest IH]; intros jj; cbn [scan].
  - now rewrite skipn_nil.
  - destruct (regexp c) eqn:Hc.
    + pose proof (scan_ge regexp rest (S jj)) as Hge.
      replace (scan regexp rest (S jj) - jj)
        with (S (scan regexp rest (S jj) - S jj)) by lia.
      cbn [skipn]. apply IH.
    + rewrite Nat.sub_diag. cbn [skipn starts]. now rewrite Hc.
Qed.

Lemma consume_whitespace_settled (text : str) (ii : nat) :
  starts (fun c => negb (is_space c))
    (skipn (consume_whitespace text ii) text) = true.
Proof.
  unfold consume_whitespace, consume_regexp. cbn [position].
  pose proof (scan_stops is_space (skipn ii text) ii) as H.
  pose proof (scan_ge is_space (skipn ii text) ii) as Hge.
  rewrite skipn_skipn in H.
  replace (scan is_space (skipn ii text) ii - ii + ii)
    with (scan is_space (skipn ii text) ii) in H by lia.
  exact H.
Qed.

Lemma skip_line_gt (rest : str) (ii : nat) :
  rest <> [] -> ii < skip_line rest ii.
Proof.
  destruct rest as [|c rest]; [congruence|]. intros _. cbn [skip_line].
  destruct (eqs [c] newline); [lia|].
  pose proof (skip_line_ge rest (S ii)). lia.
Qed.

Lemma comments_loop_settled (text : str) :
  forall rounds ii,
    length text - ii <= rounds ->
    starts (fun c => negb (is_space c)) (skipn ii text) = true ->
    starts stop_char (skipn (comments_loop rounds text ii) text) = true.
Proof.
  induction rounds as [|rounds IH]; intros ii Hr Hs; cbn [comments_loop].
  - rewrite skipn_all2 by lia. reflexivity.
  - destruct ((ii <? length text) && eqs (charAt text ii) (lit "#")) eqn:Hc.
    + apply andb_true_iff in Hc as [Hlt _]. apply Nat.ltb_lt in Hlt.
      assert (Hne : skipn ii text <> []).
      { intros E. apply skipn_nil_ge in E. lia. }
      pose proof (skip_line_gt (skipn ii text) ii Hne) as Hgt.
      pose proof (consume_whitespace_ge text (skip_line (skipn ii text) ii)).
      apply IH; [lia | apply consume_whitespace_settled].
    + destruct (skipn ii text) as [|c rest] eqn:E; [reflexivity|].
      cbn [starts] in *. unfold stop_char. rewrite Hs. cbn [andb].
      rewrite (in_text _ _ _ _ E), (charAt_head _ _ _ _ E) in Hc.
      cbn [andb] in Hc. change (lit "#") with [35%N] in Hc.
      rewrite eqs_single in Hc. now rewrite Hc.
Qed.

(** [consume_comments] returns a position at the end of the text or on a
    character that is neither white space nor the start of a comment. *)
Lemma consume_comments_settled (text : str) (ii : nat) :
  starts stop_char (skipn (consume_comments text ii) text) = true.
Proof.
  unfold consume_comments. apply comments_loop_settled; [lia|].
  apply consume_whitespace_settled.
Qed.

(** ** What [format] prints *)

Lemma format_elem_text (indent : str) (e : node) :
  format_elem (fun e => format_node false e (indent ++ lit "  ")) false indent e
  = separator e ++ val_text indent e.
Proof. destruct e; reflexivity. Qed.

Lemma format_seq_lines (indent key : str) (elems : list node) :
  nonempty elems = true ->
  format_seq (fun e => format_node false e (indent ++ lit "  ")) false indent
    key elems ++ newline
  = lines indent (map (pair key) elems).
Proof.
  induction elems as [|e elems IH]; [discriminate|]. intros _.
  cbn [format_seq map]. rewrite format_elem_text.
  unfold lines. cbn [map concat]. fold (lines indent (map (pair key) elems)).
  unfold line at 1. cbn [fst snd]. rewrite <- !app_assoc.
  destruct elems as [|e' elems].
  - reflexivity.
  - rewrite <- IH by reflexivity. rewrite <- ?app_assoc. reflexivity.
Qed.

Lemma lines_app (indent : str) (a b : list (str * node)) :
  lines indent (a ++ b) = lines indent a ++ lines indent b.
Proof. unfold lines. now rewrite map_app, concat_app. Qed.

Lemma format_fields_lines (indent : str) (T : ProtoObject) :
  forallb (fun kv => nonempty (snd kv)) T = true ->
  format_fields (fun e => format_node false e (indent ++ lit "  ")) false
    indent T
  = lines indent (flatten T).
Proof.
  induction T as [|[key elems] T IH]; [reflexivity|]. intros H.
  cbn [forallb snd] in H. apply andb_true_iff in H as [He H].
  cbn [format_fields]. unfold flatten. cbn [flat_map fst snd].
  fold (flatten T). rewrite lines_app, <- (IH H), <- format_seq_lines by exact He.
  now rewrite <- app_assoc.
Qed.

(** ** Pushing the elements of a tree rebuilds the tree *)

Lemma obj_update_absent {V} (key : str) (f : V -> V) (o : obj V) :
  obj_has key o = false -> obj_update key f o = o.
Proof.
  induction o as [|[k v] o IH]; [reflexivity|]. simpl. intros H.
  apply orb_false_iff in H as [H1 H2]. now rewrite H1, (IH H2).
Qed.

Lemma obj_update_last {V} (key : str) (f : V -> V) (v : V) (o : obj V) :
  obj_has key o = false ->
  obj_update key f (o ++ [(key, v)]) = o ++ [(key, f v)].
Proof.
  induction o as [|[k w] o IH]; simpl.
  - now rewrite eqs_refl.
  - intros H. apply orb_false_iff in H as [H1 H2]. now rewrite H1, (IH H2).
Qed.

Lemma obj_has_last {V} (key : str) (v : V) (o : obj V) :
  obj_has key (o ++ [(key, v)]) = true.
Proof.
  unfold obj_has. rewrite existsb_app. simpl. rewrite eqs_refl.
  now rewrite orb_true_r.
Qed.

Lemma push_new_field (key : str) (e : node) (o : ProtoObject) :
  forallb (fun kv => key_before (fst kv) key) o = true ->
  own_push key e o = o ++ [(key, [e])].
Proof.
  intros H. unfold own_push.
  rewrite (obj_has_false _ _ H). cbn [negb].
  rewrite (obj_set_last _ _ _ H).
  exact (obj_update_last key (fun l => l ++ [e]) [] o (obj_has_false _ _ H)).
Qed.

Lemma push_last_field (key : str) (e : node) (l : list node)
  (o : ProtoObject) :
  obj_has key o = false ->
  own_push key e (o ++ [(key, l)]) = o ++ [(key, l ++ [e])].
Proof.
  intros H. unfold own_push. rewrite obj_has_last. cbn [negb].
  exact (obj_update_last key (fun l => l ++ [e]) l o H).
Qed.

Lemma push_all_field (key : str) (o : ProtoObject) :
  obj_has key o = false ->
  forall (elems l : list node),
    push_all (map (pair key) elems) (o ++ [(key, l)])
    = o ++ [(key, l ++ elems)].
Proof.
  intros H. induction elems as [|e elems IH]; intros l.
  - now rewrite app_nil_r.
  - unfold push_all. cbn [map fold_left fst snd].
    rewrite (push_last_field key e l o H).
    fold (push_all (map (pair key) elems) (o ++ [(key, l ++ [e])])).
    rewrite IH, <- app_assoc. reflexivity.
Qed.

Lemma ordered_app_before (a b : list str) (k : str) :
  ordered (a ++ k :: b) = true ->
  forallb (fun x => key_before x k) a = true.
Proof.
  induction a as [|x a IH]; [reflexivity|]. cbn [app ordered forallb].
  intros H. apply andb_true_iff in H as [Hx H].
  rewrite (IH H), andb_true_r.
  rewrite forallb_app in Hx. apply andb_true_iff in Hx as [_ Hx].
  cbn [forallb] in Hx. now apply andb_true_iff in Hx as [Hx _].
Qed.

Lemma push_all_flatten (T2 : ProtoObject) :
  forall T1 : ProtoObject,
    ordered (map fst (T1 ++ T2)) = true ->
    forallb (fun kv => nonempty (snd kv)) T2 = true ->
    push_all (flatten T2) T1 = T1 ++ T2.
Proof.
  induction T2 as [|[key elems] T2 IH]; intros T1 Hord Hne.
  - now rewrite app_nil_r.
  - cbn [forallb snd] in Hne. apply andb_true_iff in Hne as [He Hne].
    destruct elems as [|e elems]; [discriminate|].
    rewrite map_app in Hord. cbn [map fst] in Hord.
    pose proof (ordered_app_before _ _ _ Hord) as Hb.
    assert (Hb' : forallb (fun kv => key_before (fst kv) key) T1 = true).
    { clear - Hb. induction T1 as [|[k v] T1 IH]; [reflexivity|].
      cbn [map fst forallb] in *. apply andb_true_iff in Hb as [H1 H2].
      now rewrite H1, (IH H2). }
    unfold flatten. cbn [flat_map fst snd map]. fold (flatten T2).
    unfold push_all. rewrite fold_left_app. cbn [fold_left fst snd].
    rewrite (push_new_field key e T1 Hb').
    fold (push_all (map (pair key) elems) (T1 ++ [(key, [e])])).
    rewrite (push_all_field key T1 (obj_has_false _ _ Hb') elems [e]).
    fold (push_all (flatten T2) (T1 ++ [(key, [e] ++ elems)])).
    rewrite IH.
    + now rewrite <- app_assoc.
    + rewrite <- app_assoc, map_app. exact Hord.
    + exact Hne.
Qed.

(** ** One round of the body loop on a printed line *)

Lemma space_not_brace (c : N) : is_space c = true -> c <> 125%N.
Proof. intros H ->. discriminate. Qed.

Lemma loop_goes_on (text ws rest : str) (ii : nat) (c : N) :
  skipn ii text = ws ++ c :: rest ->
  forallb is_space ws = true -> c <> 125%N ->
  (ii <? length text) && negb (eqs (charAt text ii) (lit "}")) = true.
Proof.
  intros H Hw Hc. change (lit "}") with [125%N].
  destruct ws as [|w ws].
  - rewrite (in_text _ _ _ _ H), (charAt_not _ _ _ _ _ H Hc). reflexivity.
  - cbn [forallb] in Hw. apply andb_true_iff in Hw as [Hw _].
    rewrite (in_text _ _ _ _ H),
      (charAt_not _ _ _ _ _ H (space_not_brace _ Hw)).
    reflexivity.
Qed.

Lemma printable_val_head (indent : str) (e : node) :
  printable e = true ->
  exists c rest, val_text indent e = c :: rest /\ stop_char c = true
                 /\ (is_sub_proto e = true -> c = 123%N).
Proof.
  destruct e as [s|fields|items]; intros H.
  - cbn [printable] in H. apply andb_true_iff in H as [Hl Hn].
    destruct (lexeme_head_facts false s Hl Hn) as (c & s' & -> & Hs & _).
    exists c, s'. repeat split; [assumption | discriminate].
  - eexists. eexists. split; [reflexivity|]. split; reflexivity.
  - eexists. eexists. split; [reflexivity|]. split; [reflexivity|].
    discriminate.
Qed.

(** The name and the separator of a printed line. *)
Lemma read_name (text key rest : str) (indent : str) (e : node) (i1 : nat) :
  lexeme name_re key = true -> nonempty key = true -> printable e = true ->
  skipn i1 text = key ++ separator e ++ val_text indent e ++ rest ->
  exists p,
    parse_token text i1 true
    = {| value := key; position := p; error := None |}
    /\ (let i3 := consume_comments text p in
        let i4 := if eqs (charAt text i3) (lit ":") then S i3 else i3 in
        consume_comments text i4) = i1 + length key + length (separator e)
    /\ skipn (i1 + length key + length (separator e)) text
       = val_text indent e ++ rest.
Proof.
  intros Hl Hn He H.
  destruct (printable_val_head indent e He) as (c & vrest & Ev & Hc & Hobj).
  pose proof (skipn_app_at _ _ _ _ H) as H1.
  pose proof (skipn_app_at _ _ _ _ H1) as H2.
  change (lit ":") with [58%N].
  destruct (is_sub_proto e) eqn:Esub.
  - (* an object: a space, then the brace *)
    assert (Es : separator e = [32%N])
      by (destruct e; try discriminate; reflexivity).
    rewrite Es in *. rewrite (Hobj eq_refl) in Ev.
    assert (Hr : starts stop_char (val_text indent e ++ rest) = true)
      by (rewrite Ev; reflexivity).
    destruct (parse_token_lexeme text key [32%N] (val_text indent e ++ rest)
                i1 true Hl Hn H eq_refl Hr eq_refl) as (p & Et & Hp & Hcc).
    exists p. split; [exact Et|]. split; [|exact H2]. cbv zeta.
    rewrite Hcc. rewrite Ev in H2.
    rewrite (charAt_not _ _ _ _ _ H2) by discriminate.
    rewrite Ev in Hr. exact (consume_comments_here _ _ _ H2 Hr).
  - (* a scalar or a list: a colon, then a space *)
    assert (Es : separator e = [58%N; 32%N])
      by (destruct e; try discriminate; reflexivity).
    rewrite Es in *.
    assert (Hr : starts stop_char
                   ([58%N; 32%N] ++ val_text indent e ++ rest) = true)
      by reflexivity.
    destruct (parse_token_lexeme text key []
                ([58%N; 32%N] ++ val_text indent e ++ rest)
                i1 true Hl Hn H eq_refl Hr eq_refl) as (p & Et & Hp & Hcc).
    exists p. split; [exact Et|]. split; [|exact H2]. cbv zeta.
    rewrite Hcc. cbn [length] in *. rewrite Nat.add_0_r.
    cbn [app] in H1.
    rewrite (charAt_at _ _ _ _ H1).
    pose proof (skipn_app_at text [58%N] _ _ H1) as H3.
    replace (S (i1 + length key)) with (i1 + length key + length [58%N])
      by (simpl; lia).
    assert (Hv : starts stop_char (val_text indent e ++ rest) = true)
      by (rewrite Ev; exact Hc).
    rewrite (consume_comments_run text [32%N] _ _ H3 eq_refl Hv).
    simpl. lia.
Qed.

Lemma lines_cons (indent : str) (ke : str * node)
  (items : list (str * node)) :
  lines indent (ke :: items) = indent ++ body_text [] indent (ke :: items).
Proof.
  unfold lines, body_text, line. cbn [map concat app].
  now rewrite <- !app_assoc.
Qed.

Lemma item_head (indent : str) (ke : str * node)
  (items : list (str * node)) :
  item_ok ke = true ->
  exists c rest, body_text [] indent (ke :: items) = c :: rest
                 /\ stop_char c = true /\ c <> 44%N /\ c <> 125%N.
Proof.
  destruct ke as [k e]. unfold item_ok. cbn [fst snd]. intros H.
  apply andb_true_iff in H as [H _].
  apply andb_true_iff in H as [H _]. apply andb_true_iff in H as [Hl Hn].
  destruct (lexeme_head_facts true k Hl Hn)
    as (c & k' & -> & Hs & H1 & _ & _ & H4 & _).
  exists c. eexists. unfold body_text, line. cbn [fst snd app].
  split; [reflexivity|]. auto.
Qed.

(** What follows a printed element: the end of the line, white space,
    and then the next name, a closing brace or the end of the text. *)
Lemma after_element (indent wsT tail : str) (items : list (str * node)) :
  forallb item_ok items = true ->
  forallb is_space indent = true -> forallb is_space wsT = true ->
  starts (fun c => N.eqb c 125) tail = true ->
  exists w next,
    newline ++ lines indent items ++ wsT ++ tail = (newline ++ w) ++ next
    /\ forallb is_space (newline ++ w) = true
    /\ starts stop_char next = true
    /\ starts (fun c => negb (N.eqb c 44)) next = true
    /\ length (lines indent items ++ wsT) + length tail
       = length w + length next
    /\ match items with
       | [] => next = tail
       | _ => next = body_text [] indent items ++ wsT ++ tail
       end.
Proof.
  intros Hok Hi Hw Ht. destruct items as [|ke items].
  - exists wsT, tail. cbn [lines map concat app].
    split; [now rewrite <- app_assoc|].
    split; [exact Hw|].
    assert (Hs : forall p : N -> bool, p 125%N = true ->
                 starts p tail = true).
    { intros p Hp. destruct tail as [|c tail]; [reflexivity|].
      simpl in Ht. apply N.eqb_eq in Ht. subst c. exact Hp. }
    split; [now apply Hs|]. split; [now apply Hs|].
    split; reflexivity.
  - cbn [forallb] in Hok. apply andb_true_iff in Hok as [Hke _].
    destruct (item_head indent ke items Hke) as (c & rest & Eb & Hs & Hc & _).
    exists indent, (body_text [] indent (ke :: items) ++ wsT ++ tail).
    rewrite lines_cons, <- !app_assoc.
    split; [reflexivity|]. split; [exact Hi|].
    rewrite Eb. cbn [app starts].
    split; [exact Hs|]. split; [now apply negb_true_iff, N.eqb_neq|].
    split; [|reflexivity].
    cbn [length]. rewrite !length_app. cbn [length]. rewrite !length_app. lia.
Qed.

(** The body loop reads printed lines back and stops before a closing
    brace or at the end of the text. *)
Lemma body_loop_lines (items : list (str * node)) :
  Forall (fun ke => reads_back (snd ke)) items ->
  forallb item_ok items = true -> items <> [] ->
  forall indent ws wsT tail acc fuel text ii r,
    forallb is_space indent = true -> forallb is_space ws = true ->
    forallb is_space wsT = true ->
    starts (fun c => N.eqb c 125) tail = true ->
    skipn ii text = body_text ws indent items ++ wsT ++ tail ->
    parse_body_loop fuel text None ii acc = Some r ->
    r = Returns
          {| value := Object (push_all items acc);
             position := ii + length (body_text ws indent items) + length wsT;
             error := None |}.
Proof.
  induction items as [|[k e] items IH]; intros Hrb Hok Hne; [congruence|].
  clear Hne. intros indent ws wsT tail acc fuel text ii r Hi Hw HwT Ht H E.
  inversion Hrb as [|? ? Hre Hrb']; subst. cbn [snd] in Hre.
  cbn [forallb] in Hok. apply andb_true_iff in Hok as [Hke Hok].
  pose proof Hke as Hke'. unfold item_ok in Hke'. cbn [fst snd] in Hke'.
  apply andb_true_iff in Hke' as [Hke' Hinh].
  apply negb_true_iff in Hinh.
  apply andb_true_iff in Hke' as [Hke' He].
  apply andb_true_iff in Hke' as [Hl Hn].
  destruct fuel as [|fuel]; [discriminate|].
  rewrite parse_body_loop_S in E.
  unfold body_text, line in H. cbn [fst snd] in H.
  rewrite <- !app_assoc in H.
  destruct (lexeme_head_facts true k Hl Hn)
    as (c & k' & Ek & Hcs & Hc1 & _).
  (* the loop goes on *)
  assert (Hcond : (ii <? length text)
                  && negb (eqs (charAt text ii) (lit "}")) = true).
  { rewrite Ek in H. cbn [app] in H.
    exact (loop_goes_on _ _ _ _ _ H Hw Hc1). }
  rewrite Hcond in E. cbv zeta in E.
  (* the name *)
  assert (Hk : starts stop_char
                 (k ++ separator e ++ val_text indent e ++ newline
                  ++ lines indent items ++ wsT ++ tail) = true)
    by (rewrite Ek; exact Hcs).
  rewrite (consume_comments_run _ _ _ _ H Hw Hk) in E.
  pose proof (skipn_app_at _ _ _ _ H) as H1.
  destruct (read_name _ _ _ _ _ _ Hl Hn He H1) as (p & Et & Hi5 & H5).
  rewrite Et in E. cbn [error value position] in E.
  cbv zeta in Hi5. rewrite Hi5 in E.
  set (i5 := ii + length ws + length k + length (separator e)) in *.
  (* the value *)
  destruct (parse_value fuel text i5 None) as [val|] eqn:Ev; [|discriminate].
  destruct (after_element indent wsT tail items Hok Hi HwT Ht)
    as (w & next & Enext & Hwn & Hnext & Hcomma & Hlen & Hcase).
  rewrite Enext in H5.
  destruct (Hre indent fuel text i5 (newline ++ w) next val He Hi H5 Hwn
              Hnext eq_refl Ev) as (pv & -> & Hpv & Hcc).
  rewrite Hinh, andb_false_r in E.
  cbn [error value position] in E.
  assert (Hk1 : 1 <= length k) by (rewrite Ek; simpl; lia).
  assert (Hpv0 : (pv =? 0) = false) by (apply Nat.eqb_neq; unfold i5 in *; lia).
  rewrite Hpv0, Hcc in E. cbn [keeps] in E.
  set (i7 := i5 + length (val_text indent e) + length (newline ++ w)) in *.
  assert (H7 : skipn i7 text = next).
  { pose proof (skipn_app_at _ _ _ _ H5) as H6.
    exact (skipn_app_at _ _ _ _ H6). }
  assert (Hnc : eqs (charAt text i7) (lit ",") = false).
  { change (lit ",") with [44%N]. destruct next as [|d next'].
    - now rewrite (charAt_nil _ _ H7).
    - simpl in Hcomma. apply negb_true_iff, N.eqb_neq in Hcomma.
      exact (charAt_not _ _ _ _ _ H7 Hcomma). }
  rewrite Hnc in E.
  assert (Hgo : (i7 =? ii) = false)
    by (apply Nat.eqb_neq; unfold i7, i5; lia).
  rewrite Hgo in E.
  assert (Hpos : ii + length (body_text ws indent ((k, e) :: items))
                 + length wsT
                 = i7 + length next - length tail).
  { unfold body_text, line. cbn [fst snd]. rewrite !length_app in *.
    unfold i7, i5. cbn [length] in *. rewrite !length_app in *.
    cbn [length] in *. lia. }
  destruct items as [|ke items].
  - (* the last line *)
    subst next. unfold push_all. cbn [fold_left fst snd].
    destruct fuel as [|fuel]; [discriminate|].
    rewrite parse_body_loop_S in E.
    assert (Hstop : (i7 <? length text)
                    && negb (eqs (charAt text i7) (lit "}")) = false).
    { change (lit "}") with [125%N]. destruct tail as [|d tail'].
      - apply skipn_nil_ge in H7. apply andb_false_iff. left.
        apply Nat.ltb_ge. exact H7.
      - simpl in Ht. apply N.eqb_eq in Ht. subst d.
        rewrite (charAt_at _ _ _ _ H7). apply andb_false_r. }
    rewrite Hstop in E. injection E as <-. do 2 f_equal. lia.
  - (* more lines *)
    rewrite Hcase in H7.
    rewrite (IH Hrb' Hok ltac:(discriminate) indent [] wsT tail _ _ _ _ _
               Hi eq_refl HwT Ht H7 E).
    unfold push_all. cbn [fold_left fst snd]. do 2 f_equal.
    rewrite Hpos, Hcase, !length_app. lia.
Qed.

(** ** Printed elements are read back *)

Lemma format_items_tail (items : list node) :
  items <> [] ->
  format_items items ++ lit " ]" = list_tail items ++ lit "]".
Proof.
  induction items as [|x items IH]; [congruence|]. intros _.
  cbn [format_items list_tail]. rewrite <- !app_assoc. f_equal.
  destruct items as [|y items]; [reflexivity|].
  rewrite IH by discriminate. reflexivity.
Qed.

Lemma list_text (items : list node) :
  lit "[ " ++ format_items items ++ lit " ]"
  = 91%N :: (match items with [] => [32%N; 32%N] | _ => [32%N] end)
    ++ list_tail items ++ lit "]".
Proof.
  destruct items as [|x items]; [reflexivity|].
  rewrite format_items_tail by discriminate. reflexivity.
Qed.

Lemma list_tail_stop (items : list node) (rest : str) :
  forallb scalar_ok items = true ->
  starts stop_char (list_tail items ++ lit "]" ++ rest) = true.
Proof.
  destruct items as [|x items]; [reflexivity|]. cbn [forallb]. intros H.
  apply andb_true_iff in H as [H _].
  destruct x as [s| |]; try discriminate. cbn [scalar_ok] in H.
  apply andb_true_iff in H as [Hl Hn].
  destruct (lexeme_head_facts false s Hl Hn) as (c & s' & -> & Hs & _).
  exact Hs.
Qed.

Lemma scalar_reads_back (s : str) : reads_back (Scalar s).
Proof.
  intros indent fuel text ii ws rest r Hp Hi H Hw Hr He E.
  cbn [printable] in Hp. apply andb_true_iff in Hp as [Hl Hn].
  cbn [val_text] in *.
  destruct (lexeme_head_facts false s Hl Hn)
    as (c & s' & Es & _ & _ & Hc2 & _ & _ & Hc5).
  destruct (Hc5 eq_refl) as [Hc6 _].
  assert (H0 : skipn ii text = c :: s' ++ ws ++ rest)
    by (rewrite H, Es; reflexivity).
  destruct fuel as [|fuel]; [discriminate|].
  rewrite parse_value_S in E.
  change (lit "{") with [123%N] in E. change (lit "[") with [91%N] in E.
  rewrite (charAt_not _ _ _ _ _ H0 Hc2), (charAt_not _ _ _ _ _ H0 Hc6) in E.
  cbv zeta in E.
  destruct (parse_token_lexeme text s ws rest ii false Hl Hn H Hw Hr He)
    as (p & Et & Hpos & Hcc).
  rewrite Et in E. cbn [value position error] in E. injection E as <-.
  exists p. auto.
Qed.

Lemma list_reads_back (items : list node) : reads_back (Arr items).
Proof.
  intros indent fuel text ii ws rest r Hp Hi H Hw Hr He E.
  cbn [printable] in Hp. cbn [val_text] in *.
  rewrite list_text in *. cbn [app] in H.
  set (wl := match items with [] => [32%N; 32%N] | _ => [32%N] end) in *.
  rewrite <- !app_assoc in H.
  destruct fuel as [|fuel]; [discriminate|].
  rewrite parse_value_S in E.
  change (lit "{") with [123%N] in E. change (lit "[") with [91%N] in E.
  rewrite (charAt_not _ _ _ _ _ H) in E by discriminate.
  rewrite (charAt_at _ _ _ _ H) in E.
  destruct fuel as [|fuel]; [discriminate|].
  rewrite parse_list_S in E. change (lit "[") with [91%N] in E.
  rewrite (charAt_at _ _ _ _ H) in E.
  pose proof (skipn_app_at text [91%N] _ ii H) as H1.
  replace (S ii) with (ii + length [91%N]) in E by (simpl; lia).
  assert (Hwl : forallb is_space wl = true)
    by (unfold wl; destruct items; reflexivity).
  rewrite (consume_comments_run _ _ _ _ H1 Hwl
             (list_tail_stop items (ws ++ rest) Hp)) in E.
  pose proof (skipn_app_at _ _ _ _ H1) as H2.
  rewrite (parse_list_loop_scalars items Hp _ _ _ _ _ _ _ H2 Hw Hr E).
  eexists. split; [reflexivity|].
  assert (Hlen : ii + length [91%N] + length wl + length (list_tail items)
                 + 1 + length ws
                 = ii + length (91%N :: wl ++ list_tail items ++ lit "]")
                   + length ws).
  { cbn [length]. rewrite !length_app. simpl. lia. }
  rewrite Hlen. split; [lia|].
  apply consume_comments_here with (rest := rest); [|exact Hr].
  pose proof (skipn_app_at _ _ _ _ H2) as H3.
  pose proof (skipn_app_at _ _ _ _ H3) as H4.
  pose proof (skipn_app_at _ _ _ _ H4) as H5.
  rewrite <- H5. f_equal. cbn [length]. rewrite !length_app. simpl. lia.
Qed.

Lemma flatten_items_ok (fields : obj (list node)) :
  forallb (field_ok printable) fields = true ->
  forallb item_ok (flatten fields) = true
  /\ forallb (fun kv => nonempty (snd kv)) fields = true.
Proof.
  induction fields as [|[k elems] fields IH]; [split; reflexivity|].
  cbn [forallb]. intros H. apply andb_true_iff in H as [Hk H].
  destruct (IH H) as [IH1 IH2]. unfold field_ok in Hk. cbn [fst snd] in Hk.
  apply andb_true_iff in Hk as [Hk Hinh].
  apply andb_true_iff in Hk as [Hk He]. apply andb_true_iff in Hk as [Hk Hne].
  cbn [snd]. rewrite Hne, IH2. split; [|reflexivity].
  unfold flatten. cbn [flat_map fst snd]. rewrite forallb_app.
  fold (flatten fields). rewrite IH1, andb_true_r.
  clear - Hk He Hinh. induction elems as [|e elems IHe]; [reflexivity|].
  cbn [forallb map] in *. apply andb_true_iff in He as [He1 He2].
  rewrite (IHe He2), andb_true_r. unfold item_ok. cbn [fst snd].
  now rewrite Hk, He1, Hinh.
Qed.

Lemma flatten_reads_back (fields : obj (list node)) :
  Forall (fun kv => Forall reads_back (snd kv)) fields ->
  Forall (fun ke => reads_back (snd ke)) (flatten fields).
Proof.
  induction 1 as [|[k elems] fields Hk _ IH]; [constructor|].
  unfold flatten. cbn [flat_map fst snd]. apply Forall_app. split; [|exact IH].
  cbn [snd] in Hk. clear - Hk.
  induction Hk as [|e elems He _ IHe]; constructor; assumption.
Qed.

Lemma flatten_nonempty (fields : obj (list node)) :
  nonempty fields = true ->
  forallb (fun kv => nonempty (snd kv)) fields = true ->
  flatten fields <> [].
Proof.
  destruct fields as [|[k elems] fields]; [discriminate|]. intros _ H.
  cbn [forallb snd] in H. apply andb_true_iff in H as [H _].
  destruct elems; [discriminate|]. discriminate.
Qed.

Lemma lines_body (ws indent : str) (items : list (str * node)) :
  items <> [] ->
  ws ++ lines indent items = body_text (ws ++ indent) indent items.
Proof.
  destruct items as [|ke items]; [congruence|]. intros _.
  rewrite lines_cons. unfold body_text, line. now rewrite <- !app_assoc.
Qed.

Lemma object_reads_back (fields : obj (list node)) :
  Forall (fun kv => Forall reads_back (snd kv)) fields ->
  reads_back (Object fields).
Proof.
  intros IH indent fuel text ii ws rest r Hp Hi H Hw Hr He E.
  cbn [printable] in Hp. apply andb_true_iff in Hp as [Hp Hf].
  apply andb_true_iff in Hp as [Hne Hord].
  destruct (flatten_items_ok fields Hf) as [Hitems Hseqs].
  pose proof (flatten_nonempty fields Hne Hseqs) as Hflat.
  set (deeper := indent ++ lit "  ").
  assert (Hd : forallb is_space deeper = true)
    by (unfold deeper; rewrite forallb_app, Hi; reflexivity).
  remember ([32%N; 10%N] ++ deeper) as lead eqn:Elead.
  assert (Hws : forallb is_space lead = true)
    by (rewrite Elead, forallb_app, Hd; reflexivity).
  remember (indent ++ [32%N]) as close eqn:Eclose.
  assert (HwT : forallb is_space close = true)
    by (rewrite Eclose, forallb_app, Hi; reflexivity).
  remember (body_text lead deeper (flatten fields)) as inner eqn:Einner.
  assert (Ev : val_text indent (Object fields)
               = 123%N :: inner ++ close ++ [125%N]).
  { cbn [val_text format_node]. fold deeper.
    rewrite (format_fields_lines deeper fields Hseqs).
    rewrite Einner, Elead, Eclose.
    rewrite <- (lines_body [32%N; 10%N] deeper (flatten fields) Hflat).
    change (lit "{ ") with [123%N; 32%N]. change newline with [10%N].
    change (lit " }") with [32%N; 125%N].
    cbn [app]. now rewrite <- !app_assoc. }
  rewrite Ev in *. cbn [app] in H. rewrite <- !app_assoc in H.
  destruct fuel as [|fuel]; [discriminate|].
  rewrite parse_value_S in E. change (lit "{") with [123%N] in E.
  rewrite (charAt_at _ _ _ _ H) in E.
  destruct fuel as [|fuel]; [discriminate|].
  rewrite parse_proto_S in E. cbv zeta in E.
  rewrite (consume_comments_here _ _ _ H eq_refl) in E.
  change (lit "{") with [123%N] in E. rewrite (charAt_at _ _ _ _ H) in E.
  destruct fuel as [|fuel]; [discriminate|].
  rewrite parse_body_S in E.
  pose proof (skipn_app_at text [123%N] _ ii H) as H1.
  replace (ii + length [123%N]) with (S ii) in H1 by (cbn [length]; lia).
  destruct (parse_body_loop fuel text None (S ii) []) as [body|] eqn:Eb;
    [|discriminate].
  rewrite Einner in H1.
  pose proof (body_loop_lines (flatten fields) (flatten_reads_back fields IH)
                Hitems Hflat deeper lead close ([125%N] ++ ws ++ rest) []
                fuel text (S ii) body Hd Hws HwT eq_refl H1 Eb) as ->.
  rewrite <- Einner in *.
  cbn [error value position] in E.
  rewrite (push_all_flatten fields [] Hord Hseqs) in E.
  change ([] ++ fields) with fields in E.
  remember (S ii + length inner + length close) as pb eqn:Epb.
  assert (H3 : skipn pb text = 125%N :: ws ++ rest)
    by (rewrite Epb; exact (skipn_app_at _ _ _ _ (skipn_app_at _ _ _ _ H1))).
  rewrite (consume_comments_here _ _ _ H3 eq_refl) in E.
  change (lit "}") with [125%N] in E. rewrite (charAt_at _ _ _ _ H3) in E.
  cbn [negb] in E.
  pose proof (skipn_app_at text [125%N] _ _ H3) as H4.
  replace (pb + length [125%N]) with (S pb) in H4 by (cbn [length]; lia).
  assert (Hcc : consume_comments text (S pb) = S pb + length ws)
    by exact (consume_comments_run _ _ _ _ H4 Hw Hr).
  rewrite Hcc in E.
  injection E as <-. eexists. split; [reflexivity|].
  assert (Hlen : S pb + length ws
                 = ii + length (123%N :: inner ++ close ++ [125%N])
                   + length ws).
  { rewrite Epb. cbn [length]. rewrite !length_app. cbn [length]. lia. }
  rewrite <- Hlen. split; [lia|].
  apply consume_comments_here with (rest := rest); [|exact Hr].
  exact (skipn_app_at _ _ _ _ H4).
Qed.

(** [parse_value] reads every printable element back. *)
Lemma printed_reads_back (e : node) : reads_back e.
Proof.
  induction e as [s|fields IH|items IH] using node_induction.
  - apply scalar_reads_back.
  - apply object_reads_back. exact IH.
  - apply list_reads_back.
Qed.

(** ** A printed tree is read back *)



(* ------------------------------------------------------------------ *)
(** * What the parser returns *)

(** ** Parsed and plain trees are printable *)

Lemma parsed_plain_printable (x : node) :
  parsed x = true -> plain x = true -> printable x = true.
Proof.
  induction x as [s|fields IH|items IH] using node_induction;
    cbn [parsed plain printable].
  - intros -> ->. reflexivity.
  - intros Hp Hl. apply andb_true_iff in Hp as [Hord Hp].
    apply andb_true_iff in Hl as [Hne Hl]. rewrite Hne, Hord. cbn [andb].
    clear Hne Hord. induction fields as [|[k elems] fields IHf];
      [reflexivity|].
    inversion IH as [|? ? IHk IHrest]; subst.
    cbn [forallb] in *. apply andb_true_iff in Hp as [Hpk Hp].
    apply andb_true_iff in Hl as [Hlk Hl].
    rewrite (IHf IHrest Hp Hl), andb_true_r.
    unfold field_parsed, field_plain, field_ok in *. cbn [fst snd] in *.
    apply andb_true_iff in Hpk as [Hpk Hinh].
    apply andb_true_iff in Hpk as [Hpk Hpe].
    apply andb_true_iff in Hpk as [Hpn Hps].
    apply andb_true_iff in Hlk as [Hln Hle].
    rewrite Hpn, Hln, Hps, Hinh, andb_true_r. cbn [andb].
    clear - IHk Hpe Hle. induction elems as [|e elems IHe]; [reflexivity|].
    inversion IHk as [|? ? H1 H2]; subst. cbn [forallb] in *.
    apply andb_true_iff in Hpe as [Hp1 Hp2].
    apply andb_true_iff in Hle as [Hl1 Hl2].
    now rewrite (H1 Hp1 Hl1), (IHe Hp2 Hl2 H2).
  - intros Hp Hl. clear IH. induction items as [|y items IHi]; [reflexivity|].
    cbn [forallb] in *. apply andb_true_iff in Hp as [Hp1 Hp2].
    apply andb_true_iff in Hl as [Hl1 Hl2].
    rewrite (IHi Hp2 Hl2), andb_true_r.
    destruct y as [s| |]; try discriminate. cbn [parsed plain_scalar] in *.
    cbn [scalar_ok]. now rewrite Hp1, Hl1.
Qed.

Lemma parsed_plain_proto (T : ProtoObject) :
  parsed (Object T) = true -> plain_proto T = true ->
  proto_printable T = true.
Proof.
  intros Hp Hl. destruct T as [|kv T]; [reflexivity|].
  assert (H : printable (Object (kv :: T)) = true).
  { apply parsed_plain_printable; [exact Hp|].
    cbn [plain]. exact Hl. }
  cbn [printable nonempty andb] in H. exact H.
Qed.

(** ** What [parse_token] returns *)

Lemma scan_class (regexp : N -> bool) (rest : str) :
  forall jj, forallb regexp (firstn (scan regexp rest jj - jj) rest) = true.
Proof.
  induction rest as [|c rest IH]; intros jj; cbn [scan].
  - now rewrite firstn_nil.
  - destruct (regexp c) eqn:Hc.
    + pose proof (scan_ge regexp rest (S jj)) as Hge.
      replace (scan regexp rest (S jj) - jj)
        with (S (scan regexp rest (S jj) - S jj)) by lia.
      cbn [firstn forallb]. now rewrite Hc, IH.
    + now rewrite Nat.sub_diag.
Qed.

Lemma substr_firstn (text : str) (ii n : nat) :
  substr text (Z.of_nat ii) (Z.of_nat n) = firstn n (skipn ii text).
Proof.
  unfold substr.
  assert (E : (Z.of_nat ii <? 0)%Z = false) by (apply Z.ltb_ge; lia).
  now rewrite E, !Nat2Z.id.
Qed.

Lemma string_loop_quoted (q : N) (rest : str) :
  forall jj escape acc v jj',
    string_loop [q] rest jj escape acc = (v, jj') ->
    jj' < jj + length rest ->
    exists body, v = acc ++ body /\ closes_at_end q body escape = true.
Proof.
  induction rest as [|c rest IH]; intros jj escape acc v jj' E Hlt;
    cbn [string_loop] in E.
  - injection E as <- <-. simpl in Hlt. lia.
  - rewrite eqs_single in E. unfold backslash in E. rewrite eqs_single in E.
    destruct (negb escape && N.eqb c q) eqn:Hq.
    + injection E as <- <-. exists [c]. split; [reflexivity|].
      cbn [closes_at_end]. now rewrite Hq.
    + destruct (IH _ _ _ _ _ E) as (body & -> & Hb);
        [cbn [length] in Hlt; lia|].
      exists (c :: body). rewrite <- app_assoc. split; [reflexivity|].
      cbn [closes_at_end]. rewrite Hq. exact Hb.
Qed.

Lemma parse_string_lexeme (text : str) (ii : nat) :
  error (parse_string text ii) = None ->
  quoted_ok (value (parse_string text ii)) = true.
Proof.
  unfold parse_string.
  destruct (negb (eqs (charAt text ii) squote)
            && negb (eqs (charAt text ii) dquote)) eqn:Hq; [discriminate|].
  apply charAt_quote in Hq as (q & Hq & Hii).
  assert (Hc : charAt text ii = [q]) by (unfold charAt; now rewrite Hii).
  rewrite Hc.
  destruct (string_loop [q] (skipn (ii + 1) text) (ii + 1) false [q])
    as [v jj] eqn:Hloop.
  destruct (length text <=? jj) eqn:Hend; [discriminate|].
  apply Nat.leb_gt in Hend.
  assert (Hlt : ii < length text) by (apply nth_error_Some; congruence).
  destruct (string_loop_quoted _ _ _ _ _ _ _ Hloop) as (body & -> & Hb).
  { rewrite length_skipn. lia. }
  assert (Hv : quoted_ok ([q] ++ body) = true).
  { cbn [app quoted_ok]. rewrite Hb, andb_true_r.
    destruct Hq as [-> | ->]; reflexivity. }
  destruct (eqs (charAt text jj) [q]); intros _; exact Hv.
Qed.

Lemma parse_token_returns_lexeme (text : str) (ii : nat) (b : bool) :
  error (parse_token text ii b) = None ->
  lexeme (token_class b) (value (parse_token text ii b)) = true.
Proof.
  unfold parse_token. cbn [is_defined negb].
  destruct (eqs (charAt text ii) dquote || eqs (charAt text ii) squote).
  - intros H. unfold lexeme. rewrite (parse_string_lexeme text ii H).
    apply orb_true_r.
  - intros _. cbn [value]. unfold consume_regexp. cbn [value].
    fold (token_class b). unfold lexeme.
    rewrite substr_firstn, scan_class. reflexivity.
Qed.
(* ------------------------------------------------------------------ *)
(** * The value of a quoted string *)

(** C4 (as amended): the value of a successfully parsed quoted string is
    the text from the opening quote through the closing quote, both
    included, copied verbatim (escapes are retained), the closing quote
    being the first unescaped occurrence of the opening one; the position
    is the one after the closing quote and the white space and comments
    that follow it.  Conversely, where the text holds such a complete
    quoted string, [parse_string] returns it without error.  Parsing
    [a: 1 b: "x" ] gives error null and the object [{a: ["1"], b: [s]}]
    where [s] is the three characters quote, [x], quote. *)
Theorem parse_string_keeps_quotes :
  (forall (text : str) (ii : nat),
      error (parse_string text ii) = None ->
      quoted_ok (value (parse_string text ii)) = true
      /\ skipn ii text
         = value (parse_string text ii)
           ++ skipn (ii + length (value (parse_string text ii))) text
      /\ position (parse_string text ii)
         = consume_comments text
             (ii + length (value (parse_string text ii))))
  /\ (forall (text s rest : str) (ii : nat),
         quoted_ok s = true -> skipn ii text = s ++ rest ->
         parse_string text ii
         = {| value := s;
              position := consume_comments text (ii + length s);
              error := None |})
  /\ parse_proto (fuel_for text_ab) text_ab 0 None
     = Some (Returns {| value := Object [(lit "a", [Scalar (lit "1")]);
                                         (lit "b", [Scalar (quoted "x")])];
                        position := 12;
                        error := None |}).
Proof.
  split; [|split; [exact parse_string_quoted | vm_compute; reflexivity]].
  intros text ii H.
  pose proof (parse_string_lexeme text ii H) as Hq.
  destruct (parse_string_value text ii H) as (q & k & _ & Hii & Hk & Hv & _).
  remember (value (parse_string text ii)) as v eqn:Ev.
  assert (Hlen : length v = S (S k)).
  { rewrite Hv. cbn [length]. f_equal.
    assert (k < length (skipn (S ii) text))
      by (apply nth_error_Some; congruence).
    apply firstn_length_le. lia. }
  assert (Hsplit : skipn ii text = v ++ skipn (ii + length v) text).
  { rewrite Hlen, (skipn_nth_cons _ _ _ Hii), Hv. cbn [app]. f_equal.
    replace (ii + S (S k)) with (S k + S ii) by lia.
    rewrite <- skipn_skipn. symmetry. apply firstn_skipn. }
  split; [exact Hq|]. split; [exact Hsplit|].
  pose proof (parse_string_quoted text v _ ii Hq Hsplit) as E.
  now rewrite E.
Qed.

Lemma parse_string_keeps_quotes_witness :
  quoted_ok (value (parse_string text_escaped 0)) = true
  /\ skipn 0 text_escaped
     = value (parse_string text_escaped 0)
       ++ skipn (0 + length (value (parse_string text_escaped 0)))
            text_escaped
  /\ position (parse_string text_escaped 0)
     = consume_comments text_escaped
         (0 + length (value (parse_string text_escaped 0))).
Proof.
  apply (proj1 parse_string_keeps_quotes text_escaped 0). reflexivity.
Defined.

(** C4 (as stated) fails: the scalar parsed from ["x"] is not [x]. *)
Lemma parse_string_value_not_stripped :
  returned_value (parse_proto (fuel_for text_ab) text_ab 0 None)
  <> Some (Object [(lit "a", [Scalar (lit "1")]);
                   (lit "b", [Scalar (lit "x")])]).
Proof. vm_compute. intros H. discriminate H. Qed.

(** ** Objects stay in enumeration order *)

Lemma array_index_inj (a b : str) (n : N) :
  array_index a = Some n -> array_index b = Some n -> a = b.
Proof.
  unfold array_index. intros Ha Hb.
  destruct (forallb is_digit a && N.ltb (decimal_value a) 4294967295
            && eqs a (number_to_string (decimal_value a))) eqn:Ea;
    [|discriminate].
  destruct (forallb is_digit b && N.ltb (decimal_value b) 4294967295
            && eqs b (number_to_string (decimal_value b))) eqn:Eb;
    [|discriminate].
  injection Ha as Ha. injection Hb as Hb.
  apply andb_true_iff in Ea as [_ Ea]. apply andb_true_iff in Eb as [_ Eb].
  apply eqs_true in Ea, Eb. congruence.
Qed.

Lemma keys_update {V} (key : str) (f : V -> V) (o : obj V) :
  map fst (obj_update key f o) = map fst o.
Proof.
  induction o as [|[k v] o IH]; [reflexivity|]. cbn [obj_update].
  destruct (eqs k key); cbn [map fst]; [reflexivity | now rewrite IH].
Qed.

Lemma forallb_update {V} (P : str * V -> bool) (key : str) (f : V -> V)
  (o : obj V) :
  forallb P o = true ->
  (forall v, P (key, v) = true -> P (key, f v) = true) ->
  forallb P (obj_update key f o) = true.
Proof.
  intros H Hf. induction o as [|[k v] o IH]; [reflexivity|].
  cbn [forallb obj_update] in *. apply andb_true_iff in H as [Hk H].
  destruct (eqs k key) eqn:E; cbn [forallb].
  - apply eqs_true in E. subst k. now rewrite (Hf v Hk), H.
  - now rewrite Hk, (IH H).
Qed.

Lemma forallb_insert {V} (P : str * V -> bool) (key : str) (n : N) (v : V)
  (o : obj V) :
  forallb P (obj_insert key n v o) = P (key, v) && forallb P o.
Proof.
  induction o as [|[k w] o IH]; [reflexivity|]. cbn [obj_insert].
  destruct (array_index k) as [m|]; [destruct (N.ltb m n)|];
    cbn [forallb]; try reflexivity.
  rewrite IH. now rewrite !andb_assoc, (andb_comm (P (k, w))).
Qed.

Lemma forallb_keys {V} (P : str -> bool) (o : obj V) :
  forallb P (map fst o) = forallb (fun kv => P (fst kv)) o.
Proof. induction o as [|kv o IH]; [reflexivity|]. simpl. now rewrite IH. Qed.

Lemma update_insert {V} (key : str) (n : N) (f : V -> V) (x : V)
  (o : obj V) :
  obj_has key o = false ->
  obj_update key f (obj_insert key n x o) = obj_insert key n (f x) o.
Proof.
  induction o as [|[k w] o IH]; cbn [obj_insert obj_update].
  - now rewrite eqs_refl.
  - cbn [obj_has existsb fst]. intros H.
    apply orb_false_iff in H as [H1 H2].
    destruct (array_index k) as [m|]; [destruct (N.ltb m n)|];
      cbn [obj_update]; rewrite ?eqs_refl, ?H1; try reflexivity.
    f_equal. exact (IH H2).
Qed.

Lemma update_set {V} (key : str) (f : V -> V) (x : V) (o : obj V) :
  obj_has key o = false ->
  obj_update key f (obj_set key x o) = obj_set key (f x) o.
Proof.
  intros H. unfold obj_set. rewrite H.
  destruct (array_index key) as [n|].
  - exact (update_insert key n f x o H).
  - exact (obj_update_last key f x o H).
Qed.

Lemma forallb_set {V} (P : str * V -> bool) (key : str) (v : V) (o : obj V) :
  obj_has key o = false ->
  forallb P (obj_set key v o) = P (key, v) && forallb P o.
Proof.
  intros H. unfold obj_set. rewrite H.
  destruct (array_index key) as [n|].
  - apply forallb_insert.
  - rewrite forallb_app. cbn [forallb]. rewrite andb_true_r.
    apply andb_comm.
Qed.

Lemma key_before_index (a b : str) (n : N) :
  array_index b = Some n -> key_before a b = true ->
  exists m, array_index a = Some m /\ (m < n)%N.
Proof.
  unfold key_before. intros ->. destruct (array_index a) as [m|];
    [|discriminate].
  intros H. apply N.ltb_lt in H. eauto.
Qed.

Lemma ordered_insert {V} (key : str) (n : N) (v : V) (o : obj V) :
  array_index key = Some n -> obj_has key o = false ->
  ordered (map fst o) = true ->
  ordered (map fst (obj_insert key n v o)) = true.
Proof.
  intros Hn. induction o as [|[k w] o IH]; [reflexivity|].
  cbn [obj_has existsb fst map ordered obj_insert]. intros Hh Ho.
  apply orb_false_iff in Hh as [Hk Hh]. apply andb_true_iff in Ho as [Hb Ho].
  assert (Hne : k <> key) by now apply eqs_false.
  assert (Hfront : forall m, array_index k = Some m -> N.ltb m n = false ->
             forallb (key_before key) (k :: map fst o) = true).
  { intros m Hm Hlt. cbn [forallb]. apply andb_true_iff. split.
    - unfold key_before. rewrite Hn, Hm. apply N.ltb_lt.
      apply N.ltb_ge in Hlt.
      assert (m <> n) by (intros ->; apply Hne;
                          exact (array_index_inj k key n Hm Hn)).
      lia.
    - apply forallb_forall. intros x Hx.
      rewrite forallb_forall in Hb. specialize (Hb x Hx).
      unfold key_before in *. rewrite Hn. rewrite Hm in Hb.
      destruct (array_index x) as [m'|]; [|reflexivity].
      apply N.ltb_lt in Hb. apply N.ltb_ge in Hlt. apply N.ltb_lt. lia. }
  destruct (array_index k) as [m|] eqn:Hm.
  - destruct (N.ltb m n) eqn:Hlt.
    + cbn [map fst ordered]. rewrite (IH Hh Ho), andb_true_r.
      rewrite forallb_keys, forallb_insert, <- forallb_keys, Hb.
      cbn [fst]. unfold key_before. rewrite Hm, Hn, Hlt. reflexivity.
    + cbn [map fst ordered]. rewrite (Hfront m eq_refl Hlt).
      cbn [andb]. cbn [ordered] in *. now rewrite Hb, Ho.
  - cbn [map fst ordered]. rewrite Hb, Ho. cbn [andb forallb].
    rewrite andb_true_r. apply andb_true_iff. split.
    + unfold key_before. now rewrite Hn, Hm.
    + apply forallb_forall. intros x Hx.
      rewrite forallb_forall in Hb. specialize (Hb x Hx).
      unfold key_before in *. rewrite Hn. rewrite Hm in Hb.
      destruct (array_index x); [discriminate | reflexivity].
Qed.

Lemma ordered_snoc (keys : list str) (key : str) :
  ordered keys = true ->
  forallb (fun a => key_before a key) keys = true ->
  ordered (keys ++ [key]) = true.
Proof.
  induction keys as [|k keys IH]; [reflexivity|].
  cbn [ordered forallb app]. intros Ho Hb.
  apply andb_true_iff in Ho as [Hk Ho]. apply andb_true_iff in Hb as [Hkb Hb].
  rewrite (IH Ho Hb), andb_true_r, forallb_app, Hk. cbn [forallb].
  now rewrite Hkb.
Qed.

Lemma ordered_set {V} (key : str) (v : V) (o : obj V) :
  obj_has key o = false -> ordered (map fst o) = true ->
  ordered (map fst (obj_set key v o)) = true.
Proof.
  intros Hh Ho. unfold obj_set. rewrite Hh.
  destruct (array_index key) as [n|] eqn:Hn.
  - exact (ordered_insert key n v o Hn Hh Ho).
  - rewrite map_app. cbn [map fst]. apply ordered_snoc; [exact Ho|].
    rewrite forallb_keys. apply forallb_forall. intros [k w] Hin. cbn [fst].
    unfold key_before. rewrite Hn. destruct (array_index k); [reflexivity|].
    apply negb_true_iff, eqs_false. intros ->.
    assert (obj_has key o = true); [|congruence].
    unfold obj_has. apply existsb_exists. exists (key, w).
    split; [exact Hin | apply eqs_refl].
Qed.

(** A push that does not throw keeps the object as the parser builds
    them. *)
Lemma parsed_push (key : str) (v : node) (o : ProtoObject) :
  parsed (Object o) = true -> lexeme name_re key = true ->
  negb (obj_has key o) && inherited key = false ->
  parsed v = true -> parsed (Object (own_push key v o)) = true.
Proof.
  cbn [parsed]. intros Ho Hk Hi Hv. apply andb_true_iff in Ho as [Hord Hf].
  unfold own_push. destruct (obj_has key o) eqn:Hh; cbn [negb andb] in *.
  - rewrite keys_update, Hord. cbn [andb].
    apply forallb_update; [exact Hf|].
    intros l. unfold field_parsed. cbn [fst snd]. intros H.
    apply andb_true_iff in H as [H Hinh].
    apply andb_true_iff in H as [H Hl]. apply andb_true_iff in H as [Hn _].
    rewrite Hn, Hinh, forallb_app, Hl. cbn [forallb]. rewrite Hv.
    destruct l; reflexivity.
  - rewrite (update_set key (fun l => l ++ [v]) [] o Hh).
    rewrite (ordered_set key _ o Hh Hord), (forallb_set _ key _ o Hh), Hf.
    unfold field_parsed. cbn [fst snd app forallb nonempty].
    now rewrite Hk, Hv, Hi.
Qed.

(** ** The parser returns parsed values *)

Lemma parse_list_end_value (text : str) (items : list node) (ii : nat)
  (err : option str) :
  value (parse_list_end text items ii err) = Arr items.
Proof.
  unfold parse_list_end. destruct (length text <=? ii); [reflexivity|].
  destruct (eqs (charAt text ii) (lit "]")); reflexivity.
Qed.

Lemma parsed_at_all (text : str) (ff : option (str -> bool)) :
  forall fuel, parsed_at text ff fuel.
Proof.
  induction fuel as [|fuel (IHv & IHp & IHb & IHbl & IHl & IHll)];
    [repeat split; intros; discriminate|].
  repeat split.
  - intros ii r. rewrite parse_value_S.
    destruct (eqs (charAt text ii) (lit "{")); [apply IHp|].
    destruct (eqs (charAt text ii) (lit "[")); [intros E _; exact (IHl _ _ E)|].
    cbv zeta. intros E He. injection E as <-. cbn [error value] in *.
    exact (parse_token_returns_lexeme text ii false He).
  - intros ii r. rewrite parse_proto_S. cbv zeta.
    destruct (parse_body fuel text _ ff) as [[res|]|] eqn:Eb;
      try discriminate.
    destruct (error res) eqn:Er.
    + intros E He. injection E as <-. congruence.
    + destruct (eqs (charAt text (consume_comments text ii)) (lit "{")).
      * intros E He. injection E as <-. cbn [value].
        exact (IHb _ _ Eb Er).
      * intros E He. injection E as <-. exact (IHb _ _ Eb Er).
  - intros ii r. rewrite parse_body_S. intros E He.
    exact (IHbl _ _ _ E eq_refl He).
  - intros ii fields r. rewrite parse_body_loop_S.
    destruct ((ii <? length text) && negb (eqs (charAt text ii) (lit "}")));
      [|intros E Hf _; injection E as <-; exact Hf].
    cbv zeta.
    destruct (error (parse_token text (consume_comments text ii) true))
      eqn:En; [intros E _ He; injection E as <-; discriminate|].
    destruct (parse_value fuel text _ ff) as [[val|]|] eqn:Ev;
      try discriminate.
    destruct (keeps ff _ && negb (obj_has _ fields) && inherited _)
      eqn:Ethrow; [discriminate|].
    destruct (error val) eqn:Eval;
      [intros E _ He; injection E as <-; discriminate|].
    destruct (_ =? ii); [intros E _ He; injection E as <-; discriminate|].
    intros E Hf He. apply (IHbl _ _ _ E); [|exact He].
    destruct (keeps ff _); [|exact Hf].
    apply parsed_push; [exact Hf | | exact Ethrow | exact (IHv _ _ Ev Eval)].
    exact (parse_token_returns_lexeme text _ true En).
  - intros ii r. rewrite parse_list_S. intros E.
    exact (IHll _ _ _ E eq_refl).
  - intros ii items r. rewrite parse_list_loop_S.
    destruct ((ii <? length text) && negb (eqs (charAt text ii) (lit "]")));
      [|intros E Hi; injection E as <-; rewrite parse_list_end_value;
        exact Hi].
    cbv zeta.
    destruct (parse_value fuel text ii ff) as [[item|]|] eqn:Ev;
      try discriminate.
    destruct (error item) eqn:Ei;
      [intros E Hi; injection E as <-; exact Hi|].
    assert (Hi' : forallb parsed items = true ->
                  forallb parsed (items ++ [value item]) = true).
    { intros Hi. rewrite forallb_app, Hi. cbn [forallb].
      now rewrite (IHv _ _ Ev Ei). }
    destruct (ii =? _).
    + intros E Hi. injection E as <-. rewrite parse_list_end_value.
      exact (Hi' Hi).
    + intros E Hi. exact (IHll _ _ _ E (Hi' Hi)).
Qed.




(** Each condition of the amended claim is needed: an empty scalar, an
    empty field name, an object inside a list and a list inside a list are
    parsed without error and are not read back from the printed text. *)
Lemma roundtrip_needs_plain_trees :
  Forall
    (fun s =>
       exists res T,
         parse_proto (fuel_for s) s 0 None = Some (Returns res)
         /\ error res = None /\ value res = Object T
         /\ plain_proto T = false
         /\ returned_value
              (parse_proto (fuel_for (format T false None))
                 (format T false None) 0 None)
            <> Some (Object T))
    [lit "a: , b: 1"; lit ":{a:1}"; lit "a: [{b: 1}]"; lit "a: [[1,2]]"].
Proof.
  repeat constructor;
    (eexists; eexists; split; [vm_compute; reflexivity|];
     split; [reflexivity|]; split; [reflexivity|];
     split; [reflexivity|]; vm_compute; intros H; discriminate H).
Qed.
(* ------------------------------------------------------------------ *)
(** * Further properties of the parser *)

(** ** The cursor stays inside the text *)

Lemma scan_le (regexp : N -> bool) (rest : str) :
  forall jj, scan regexp rest jj <= jj + length rest.
Proof.
  induction rest as [|c rest IH]; intros jj; cbn [scan length]; [lia|].
  destruct (regexp c); [|lia]. specialize (IH (S jj)). lia.
Qed.

Lemma skipn_reach {T} (text : list T) (ii : nat) :
  ii + length (skipn ii text) = Nat.max ii (length text).
Proof. rewrite length_skipn. lia. Qed.

Lemma consume_whitespace_le (text : str) (ii : nat) :
  consume_whitespace text ii <= Nat.max ii (length text).
Proof.
  unfold consume_whitespace, consume_regexp. cbn [position].
  rewrite <- skipn_reach. apply scan_le.
Qed.

Lemma skip_line_le (rest : str) :
  forall ii, skip_line rest ii <= ii + length rest.
Proof.
  induction rest as [|c rest IH]; intros ii; cbn [skip_line length]; [lia|].
  destruct (eqs [c] newline); [lia|]. specialize (IH (S ii)). lia.
Qed.

Lemma comments_loop_le (text : str) (rounds : nat) :
  forall ii, comments_loop rounds text ii <= Nat.max ii (length text).
Proof.
  induction rounds as [|rounds IH]; intros ii; cbn [comments_loop]; [lia|].
  destruct ((ii <? length text) && eqs (charAt text ii) (lit "#")); [|lia].
  pose proof (skip_line_le (skipn ii text) ii) as H1.
  rewrite skipn_reach in H1.
  pose proof (consume_whitespace_le text (skip_line (skipn ii text) ii)) as H2.
  specialize (IH (consume_whitespace text (skip_line (skipn ii text) ii))).
  lia.
Qed.

Lemma consume_comments_le (text : str) (ii : nat) :
  consume_comments text ii <= Nat.max ii (length text).
Proof.
  unfold consume_comments.
  pose proof (consume_whitespace_le text ii).
  pose proof (comments_loop_le text (length text) (consume_whitespace text ii)).
  lia.
Qed.

Lemma string_loop_le (quote rest : str) :
  forall jj escape acc,
    snd (string_loop quote rest jj escape acc) <= jj + length rest.
Proof.
  induction rest as [|c rest IH]; intros jj escape acc;
    cbn [string_loop length]; [simpl; lia|].
  destruct (negb escape && eqs [c] quote); [simpl; lia|].
  specialize (IH (S jj) (negb escape && eqs [c] backslash) (acc ++ [c])).
  lia.
Qed.

Lemma parse_string_position_le (text : str) (ii : nat) :
  position (parse_string text ii) <= Nat.max ii (length text).
Proof.
  unfold parse_string.
  destruct (negb (eqs (charAt text ii) squote)
            && negb (eqs (charAt text ii) dquote)) eqn:Hq; [simpl; lia|].
  destruct (charAt_quote text ii Hq) as (q & _ & Hnth).
  assert (Hlt : ii < length text) by (apply nth_error_Some; congruence).
  pose proof (string_loop_le (charAt text ii) (skipn (ii + 1) text) (ii + 1)
                false (charAt text ii)) as H.
  rewrite skipn_reach in H.
  destruct (string_loop _ _ _ _ _) as [v jj]. cbn [snd] in H.
  destruct (length text <=? jj) eqn:Hend; [simpl; lia|].
  apply Nat.leb_gt in Hend.
  destruct (eqs (charAt text jj) (charAt text ii)); cbn [position]; [|lia].
  pose proof (consume_comments_le text (jj + 1)). lia.
Qed.

Lemma parse_token_position_le (text : str) (ii : nat) (b : bool) :
  position (parse_token text ii b) <= Nat.max ii (length text).
Proof.
  unfold parse_token. cbn [is_defined negb].
  destruct (eqs (charAt text ii) dquote || eqs (charAt text ii) squote).
  - apply parse_string_position_le.
  - cbn [position consume_regexp]. rewrite <- skipn_reach. apply scan_le.
Qed.

Lemma parse_list_end_position_le (text : str) (items : list node) (ii : nat)
  (err : option str) :
  position (parse_list_end text items ii err) <= Nat.max ii (length text).
Proof.
  unfold parse_list_end. destruct (length text <=? ii) eqn:Hend;
    [cbn [position]; lia|].
  apply Nat.leb_gt in Hend.
  destruct (eqs (charAt text ii) (lit "]")); cbn [position]; [|lia].
  pose proof (consume_comments_le text (S ii)). lia.
Qed.

Lemma bounded_at_all (text : str) (ff : option (str -> bool)) :
  forall fuel, bounded_at text ff fuel.
Proof.
  induction fuel as [|fuel (IHv & IHp & IHb & IHbl & IHl & IHll)];
    [repeat split; intros; intros res; discriminate|].
  unfold within in *. repeat split.
  - intros ii res. rewrite parse_value_S.
    destruct (eqs (charAt text ii) (lit "{")); [apply IHp|].
    destruct (eqs (charAt text ii) (lit "[")); [apply IHl|].
    cbv zeta. intros E. injection E as <-. cbn [position].
    apply parse_token_position_le.
  - intros ii res. rewrite parse_proto_S. cbv zeta.
    pose proof (consume_comments_le text ii) as H1.
    set (i1 := consume_comments text ii) in *.
    destruct (eqs (charAt text i1) (lit "{")) eqn:Hb.
    + assert (Hlt : i1 < length text)
        by (apply charAt_lt in Hb; [lia | discriminate]).
      destruct (parse_body fuel text (S i1) ff) as [[body|]|] eqn:Eb;
        try discriminate.
      specialize (IHb _ _ Eb).
      destruct (error body); [intros E; injection E as <-; lia|].
      intros E. injection E as <-. cbn [position].
      pose proof (consume_comments_le text (position body)) as H2.
      set (i2 := consume_comments text (position body)) in *.
      destruct (eqs (charAt text i2) (lit "}")) eqn:Hc; cbn [negb].
      * assert (i2 < length text)
          by (apply charAt_lt in Hc; [lia | discriminate]).
        pose proof (consume_comments_le text (S i2)). lia.
      * pose proof (consume_comments_le text i2). lia.
    + destruct (parse_body fuel text i1 ff) as [[body|]|] eqn:Eb;
        try discriminate.
      specialize (IHb _ _ Eb).
      destruct (error body); intros E; injection E as <-; lia.
  - intros ii res. rewrite parse_body_S. apply IHbl.
  - intros ii fields res. rewrite parse_body_loop_S.
    destruct ((ii <? length text)
              && negb (eqs (charAt text ii) (lit "}"))) eqn:Hc;
      [|intros E; injection E as <-; cbn [position]; lia].
    apply andb_true_iff in Hc as [Hlt _]. apply Nat.ltb_lt in Hlt.
    cbv zeta.
    pose proof (consume_comments_le text ii) as H1.
    set (i1 := consume_comments text ii) in *.
    pose proof (parse_token_position_le text i1 true) as H2.
    set (name := parse_token text i1 true) in *.
    destruct (error name);
      [intros E; injection E as <-; cbn [position]; lia|].
    pose proof (consume_comments_le text (position name)) as H3.
    set (i3 := consume_comments text (position name)) in *.
    set (i4 := if eqs (charAt text i3) (lit ":") then S i3 else i3).
    assert (H4 : i4 <= length text).
    { unfold i4. destruct (eqs (charAt text i3) (lit ":")) eqn:Hcol; [|lia].
      apply charAt_lt in Hcol; [lia | discriminate]. }
    pose proof (consume_comments_le text i4) as H5.
    set (i5 := consume_comments text i4) in *.
    destruct (parse_value fuel text i5 ff) as [[val|]|] eqn:Ev;
      try discriminate.
    destruct (keeps ff _ && negb (obj_has _ fields) && inherited _);
      [discriminate|].
    specialize (IHv _ _ Ev).
    set (i6 := if position val =? 0 then i5 else position val).
    assert (H6 : i6 <= length text)
      by (unfold i6; destruct (position val =? 0); lia).
    pose proof (consume_comments_le text i6) as H7.
    set (i7 := consume_comments text i6) in *.
    destruct (error val);
      [intros E; injection E as <-; cbn [position]; lia|].
    set (i8 := if eqs (charAt text i7) (lit ",")
               then consume_comments text (S i7) else i7).
    assert (H8 : i8 <= length text).
    { unfold i8. destruct (eqs (charAt text i7) (lit ",")) eqn:Hcom; [|lia].
      apply charAt_lt in Hcom; [|discriminate].
      pose proof (consume_comments_le text (S i7)). lia. }
    destruct (i8 =? ii);
      [intros E; injection E as <-; cbn [position]; lia|].
    intros E. specialize (IHbl _ _ _ E). lia.
  - intros ii res. rewrite parse_list_S.
    destruct (eqs (charAt text ii) (lit "[")) eqn:Hb.
    + apply charAt_lt in Hb; [|discriminate].
      pose proof (consume_comments_le text (S ii)).
      intros E. specialize (IHll _ _ _ E). lia.
    + apply IHll.
  - intros ii items res. rewrite parse_list_loop_S.
    destruct ((ii <? length text)
              && negb (eqs (charAt text ii) (lit "]"))) eqn:Hc;
      [|intros E; injection E as <-; apply parse_list_end_position_le].
    apply andb_true_iff in Hc as [Hlt _]. apply Nat.ltb_lt in Hlt.
    cbv zeta.
    destruct (parse_value fuel text ii ff) as [[item|]|] eqn:Ev;
      try discriminate.
    specialize (IHv _ _ Ev).
    destruct (error item);
      [intros E; injection E as <-; cbn [position]; lia|].
    pose proof (consume_comments_le text (position item)) as H1.
    set (i1 := consume_comments text (position item)) in *.
    set (i2 := if (i1 <? length text) && eqs (charAt text i1) (lit ",")
               then consume_comments text (S i1) else i1).
    assert (H2 : i2 <= length text).
    { unfold i2.
      destruct ((i1 <? length text) && eqs (charAt text i1) (lit ","))
        eqn:Hcom; [|lia].
      apply andb_true_iff in Hcom as [Hcom _]. apply Nat.ltb_lt in Hcom.
      pose proof (consume_comments_le text (S i1)). lia. }
    destruct (ii =? i2).
    + intros E. injection E as <-.
      pose proof (parse_list_end_position_le text (items ++ [value item]) i2
                    (Some (make_error
                             (lit "Error parsing list, unrecognized character")
                             text i2 None))).
      lia.
    + intros E. specialize (IHll _ _ _ E). lia.
Qed.
(** ** The parser builds well-formed trees *)

(** A push keeps an object well formed. *)
Lemma well_formed_push (key : str) (v : node) (o : ProtoObject) :
  well_formed (Object o) = true -> well_formed v = true ->
  well_formed (Object (own_push key v o)) = true.
Proof.
  cbn [well_formed]. intros Ho Hv. apply andb_true_iff in Ho as [Hord Hf].
  unfold own_push. destruct (obj_has key o) eqn:Hh; cbn [negb].
  - rewrite keys_update, Hord. cbn [andb].
    apply forallb_update; [exact Hf|].
    intros l. cbn [fst snd]. intros H.
    apply andb_true_iff in H as [_ Hl].
    rewrite forallb_app, Hl. cbn [forallb]. rewrite Hv.
    destruct l; reflexivity.
  - rewrite (update_set key (fun l => l ++ [v]) [] o Hh).
    rewrite (ordered_set key _ o Hh Hord), (forallb_set _ key _ o Hh), Hf.
    cbn [fst snd app forallb nonempty]. now rewrite Hv.
Qed.

Lemma well_formed_at_all (text : str) (ff : option (str -> bool)) :
  forall fuel, well_formed_at text ff fuel.
Proof.
  induction fuel as [|fuel (IHv & IHp & IHb & IHbl & IHl & IHll)];
    [repeat split; intros; discriminate|].
  repeat split.
  - intros ii r. rewrite parse_value_S.
    destruct (eqs (charAt text ii) (lit "{")); [apply IHp|].
    destruct (eqs (charAt text ii) (lit "[")); [apply IHl|].
    cbv zeta. intros E. injection E as <-. reflexivity.
  - intros ii r. rewrite parse_proto_S. cbv zeta.
    destruct (parse_body fuel text _ ff) as [[res|]|] eqn:Eb;
      try discriminate.
    specialize (IHb _ _ Eb).
    destruct (error res); [intros E; injection E as <-; exact IHb|].
    destruct (eqs (charAt text (consume_comments text ii)) (lit "{"));
      intros E; injection E as <-; exact IHb.
  - intros ii r. rewrite parse_body_S. intros E.
    exact (IHbl _ _ _ E eq_refl).
  - intros ii fields r. rewrite parse_body_loop_S.
    destruct ((ii <? length text) && negb (eqs (charAt text ii) (lit "}")));
      [|intros E Hf; injection E as <-; exact Hf].
    cbv zeta.
    destruct (error (parse_token text (consume_comments text ii) true));
      [intros E Hf; injection E as <-; exact Hf|].
    destruct (parse_value fuel text _ ff) as [[val|]|] eqn:Ev;
      try discriminate.
    destruct (keeps ff _ && negb (obj_has _ fields) && inherited _);
      [discriminate|].
    specialize (IHv _ _ Ev).
    intros E Hf.
    assert (Hf' :
              well_formed
                (Object
                   (if keeps ff
                         (value (parse_token text (consume_comments text ii)
                                   true))
                    then own_push
                           (value (parse_token text (consume_comments text ii)
                                     true))
                           (value val) fields
                    else fields)) = true).
    { destruct (keeps ff _); [|exact Hf].
      apply well_formed_push; assumption. }
    destruct (error val); [injection E as <-; exact Hf'|].
    destruct (_ =? ii); [injection E as <-; exact Hf'|].
    exact (IHbl _ _ _ E Hf').
  - intros ii r. rewrite parse_list_S. intros E.
    exact (IHll _ _ _ E eq_refl).
  - intros ii items r. rewrite parse_list_loop_S.
    destruct ((ii <? length text) && negb (eqs (charAt text ii) (lit "]")));
      [|intros E Hi; injection E as <-; rewrite parse_list_end_value;
        exact Hi].
    cbv zeta.
    destruct (parse_value fuel text ii ff) as [[item|]|] eqn:Ev;
      try discriminate.
    specialize (IHv _ _ Ev).
    destruct (error item); [intros E Hi; injection E as <-; exact Hi|].
    assert (Hi' : forallb well_formed items = true ->
                  forallb well_formed (items ++ [value item]) = true).
    { intros Hi. rewrite forallb_app, Hi. cbn [forallb]. now rewrite IHv. }
    destruct (ii =? _).
    + intros E Hi. injection E as <-. rewrite parse_list_end_value.
      exact (Hi' Hi).
    + intros E Hi. exact (IHll _ _ _ E (Hi' Hi)).
Qed.

(** X2: the value that [parse_proto] returns is well formed whether or
    not it comes with an error: in every object of it, at every depth and
    inside lists, the field names are distinct and in the order of
    [for (key in obj)], and every field holds at least one element. *)
Theorem parser_builds_well_formed_trees :
  forall (text : str) (ii : nat) (filter_func : option (str -> bool))
         (res : result node),
    parse_proto (fuel_for text) text ii filter_func = Some (Returns res) ->
    well_formed (value res) = true.
Proof.
  intros text ii ff res E.
  destruct (well_formed_at_all text ff (fuel_for text)) as (_ & Hp & _).
  exact (Hp _ _ E).
Qed.

Lemma parser_builds_well_formed_trees_witness :
  well_formed (Object tree_mixed) = true.
Proof.
  apply (parser_builds_well_formed_trees text_mixed 0 None
           {| value := Object tree_mixed; position := 29; error := None |}).
  vm_compute. reflexivity.
Defined.
(** ** Filtering while parsing *)

Section Pruning.
Variable rec : node -> node.
Variable f : str -> bool.

Lemma prune_has (key : str) (o : ProtoObject) :
  obj_has key (filter_spec_fields rec f o) = obj_has key o && negb (f key).
Proof.
  induction o as [|[k l] o IH]; [reflexivity|].
  cbn [filter_spec_fields]. destruct (eqs k key) eqn:Hk.
  - apply eqs_true in Hk as ->. unfold obj_has in *.
    cbn [existsb fst]. rewrite eqs_refl. cbn [orb].
    destruct (f key); cbn [negb existsb fst].
    + rewrite IH. apply andb_false_r.
    + now rewrite eqs_refl.
  - unfold obj_has in *. cbn [existsb fst]. rewrite Hk. cbn [orb].
    destruct (f k); [exact IH|]. cbn [existsb fst]. now rewrite Hk.
Qed.

Lemma prune_update (key : str) (g g' : list node -> list node)
  (o : ProtoObject) :
  (forall l, map rec (g l) = g' (map rec l)) ->
  filter_spec_fields rec f (obj_update key g o)
  = if f key then filter_spec_fields rec f o
    else obj_update key g' (filter_spec_fields rec f o).
Proof.
  intros Hg. induction o as [|[k l] o IH];
    [cbn; destruct (f key); reflexivity|].
  cbn [obj_update]. destruct (eqs k key) eqn:Hk.
  - apply eqs_true in Hk as ->. cbn [filter_spec_fields].
    destruct (f key); [reflexivity|].
    cbn [obj_update]. now rewrite eqs_refl, Hg.
  - cbn [filter_spec_fields]. destruct (f k).
    + exact IH.
    + rewrite IH. destruct (f key); [reflexivity|].
      cbn [obj_update]. now rewrite Hk.
Qed.

Lemma prune_app (o o' : ProtoObject) :
  filter_spec_fields rec f (o ++ o')
  = filter_spec_fields rec f o ++ filter_spec_fields rec f o'.
Proof.
  induction o as [|[k l] o IH]; [reflexivity|].
  cbn [app filter_spec_fields]. destruct (f k); [exact IH|].
  cbn [app]. now rewrite IH.
Qed.

Lemma insert_front (key : str) (n : N) (x : list node) (o : ProtoObject) :
  from_index n o = true -> obj_insert key n x o = (key, x) :: o.
Proof.
  destruct o as [|[k w] o]; [reflexivity|].
  unfold from_index. cbn [forallb fst obj_insert]. intros H.
  apply andb_true_iff in H as [H _].
  destruct (array_index k); [|reflexivity].
  apply negb_true_iff in H. now rewrite H.
Qed.

Lemma from_index_prune (n : N) (o : ProtoObject) :
  from_index n o = true -> from_index n (filter_spec_fields rec f o) = true.
Proof.
  unfold from_index. induction o as [|[k l] o IH]; [reflexivity|].
  cbn [forallb fst filter_spec_fields]. intros H.
  apply andb_true_iff in H as [Hk H].
  destruct (f k); [exact (IH H)|].
  cbn [forallb fst]. now rewrite Hk, (IH H).
Qed.

Lemma from_index_ordered (n m : N) (k : str) (w : list node)
  (o : ProtoObject) :
  ordered (map fst ((k, w) :: o)) = true ->
  match array_index k with Some m => N.ltb m n = false | None => True end ->
  from_index n ((k, w) :: o) = true.
Proof.
  cbn [map fst ordered]. intros Ho Hk.
  apply andb_true_iff in Ho as [Hb _].
  unfold from_index. cbn [forallb fst]. apply andb_true_iff. split.
  - destruct (array_index k); [now rewrite Hk | reflexivity].
  - apply forallb_forall. intros [k' w'] Hin. cbn [fst].
    rewrite forallb_forall in Hb.
    specialize (Hb k' (in_map fst _ _ Hin)). cbn [fst] in Hb.
    unfold key_before in Hb.
    destruct (array_index k) as [mk|], (array_index k') as [mk'|];
      try reflexivity; try discriminate.
    apply N.ltb_lt in Hb. apply N.ltb_ge in Hk.
    apply negb_true_iff, N.ltb_ge. lia.
Qed.

Lemma prune_insert (key : str) (n : N) (x : list node) (o : ProtoObject) :
  ordered (map fst o) = true ->
  filter_spec_fields rec f (obj_insert key n x o)
  = if f key then filter_spec_fields rec f o
    else obj_insert key n (map rec x) (filter_spec_fields rec f o).
Proof.
  induction o as [|[k w] o IH]; intros Ho.
  - cbn. destruct (f key); reflexivity.
  - assert (Hfront :
              match array_index k with
              | Some m => N.ltb m n = false
              | None => True
              end ->
              filter_spec_fields rec f ((key, x) :: (k, w) :: o)
              = if f key then filter_spec_fields rec f ((k, w) :: o)
                else obj_insert key n (map rec x)
                       (filter_spec_fields rec f ((k, w) :: o))).
    { intros Hk. cbn [filter_spec_fields]. destruct (f key); [reflexivity|].
      symmetry. apply (insert_front key n (map rec x)).
      apply (from_index_prune n ((k, w) :: o)).
      exact (from_index_ordered n n k w o Ho Hk). }
    cbn [obj_insert]. destruct (array_index k) as [m|] eqn:Hm.
    + destruct (N.ltb m n) eqn:Hlt; [|exact (Hfront eq_refl)].
      cbn [map fst ordered] in Ho. apply andb_true_iff in Ho as [_ Ho].
      cbn [filter_spec_fields]. destruct (f k).
      * exact (IH Ho).
      * rewrite (IH Ho). destruct (f key); [reflexivity|].
        cbn [obj_insert]. now rewrite Hm, Hlt.
    + exact (Hfront I).
Qed.

(** Pruning after a push is a push after pruning, or no push at all when
    the name is filtered. *)
Lemma prune_push (key : str) (v : node) (o : ProtoObject) :
  ordered (map fst o) = true ->
  filter_spec_fields rec f (own_push key v o)
  = if f key then filter_spec_fields rec f o
    else own_push key (rec v) (filter_spec_fields rec f o).
Proof.
  intros Ho. unfold own_push.
  assert (Hg : forall l, map rec (l ++ [v]) = map rec l ++ [rec v])
    by (intros l; now rewrite map_app).
  destruct (obj_has key o) eqn:Hh; cbn [negb].
  - rewrite (prune_update key (fun l => l ++ [v]) (fun l => l ++ [rec v]) o Hg).
    destruct (f key) eqn:Hf; [reflexivity|].
    now rewrite prune_has, Hh, Hf.
  - rewrite (update_set key (fun l => l ++ [v]) [] o Hh). cbn [app].
    destruct (f key) eqn:Hf.
    + unfold obj_set. rewrite Hh.
      destruct (array_index key) as [n|].
      * now rewrite (prune_insert key n [v] o Ho), Hf.
      * rewrite prune_app. cbn [filter_spec_fields]. rewrite Hf.
        apply app_nil_r.
    + assert (Hh' : obj_has key (filter_spec_fields rec f o) = false)
        by now rewrite prune_has, Hh.
      rewrite Hh'. cbn [negb].
      rewrite (update_set key (fun l => l ++ [rec v]) [] _ Hh'). cbn [app].
      unfold obj_set. rewrite Hh, Hh'.
      destruct (array_index key) as [n|].
      * now rewrite (prune_insert key n [v] o Ho), Hf.
      * rewrite prune_app. cbn [filter_spec_fields]. now rewrite Hf.
Qed.

End Pruning.

Lemma pruned_list_end (f : str -> bool) (text : str) (items : list node)
  (ii : nat) (err : option str) :
  parse_list_end text (map (prune f) items) ii err
  = pruned f (parse_list_end text items ii err).
Proof.
  unfold parse_list_end, pruned. destruct (length text <=? ii); [reflexivity|].
  destruct (eqs (charAt text ii) (lit "]")); reflexivity.
Qed.

Lemma filtered_at_all (text : str) (f : str -> bool) :
  forall fuel, filtered_at text f fuel.
Proof.
  induction fuel as [|fuel (IHv & IHp & IHb & IHbl & IHl & IHll)];
    [repeat split; intros; discriminate|].
  destruct (well_formed_at_all text None fuel) as (Wv & _).
  repeat split.
  - intros ii r. rewrite !parse_value_S.
    destruct (eqs (charAt text ii) (lit "{")); [apply IHp|].
    destruct (eqs (charAt text ii) (lit "[")); [apply IHl|].
    cbv zeta. intros E. injection E as <-. reflexivity.
  - intros ii r. rewrite !parse_proto_S. cbv zeta.
    destruct (parse_body fuel text _ None) as [[body|]|] eqn:Eb;
      try discriminate.
    rewrite (IHb _ _ Eb). unfold pruned. cbn [error value position].
    destruct (error body) eqn:Eerr;
      [intros E; injection E as <-; now rewrite Eerr|].
    destruct (eqs (charAt text (consume_comments text ii)) (lit "{"));
      intros E; injection E as <-; cbn [error value position];
      rewrite ?Eerr; reflexivity.
  - intros ii r. rewrite !parse_body_S. intros E.
    exact (IHbl _ _ _ E eq_refl).
  - intros ii fields r. rewrite !parse_body_loop_S.
    destruct ((ii <? length text) && negb (eqs (charAt text ii) (lit "}")));
      [|intros E Hf; injection E as <-; reflexivity].
    cbv zeta.
    set (name := parse_token text (consume_comments text ii) true).
    destruct (error name); [intros E Hf; injection E as <-; reflexivity|].
    destruct (parse_value fuel text _ None) as [[val|]|] eqn:Ev;
      try discriminate.
    rewrite (IHv _ _ Ev).
    destruct (keeps None (value name) && negb (obj_has (value name) fields)
              && inherited (value name)) eqn:Ethrow; [discriminate|].
    assert (Ethrow' :
              keeps (Some f) (value name)
              && negb (obj_has (value name)
                         (filter_spec_fields (prune f) f fields))
              && inherited (value name) = false).
    { cbn [keeps andb] in *. rewrite prune_has.
      destruct (f (value name)); cbn [negb andb]; [reflexivity|].
      rewrite andb_true_r. exact Ethrow. }
    rewrite Ethrow'.
    unfold pruned. cbn [error value position keeps].
    intros E Hf.
    assert (Hord : ordered (map fst fields) = true)
      by (cbn [well_formed] in Hf; now apply andb_true_iff in Hf as [Hf _]).
    assert (Hpush :
              (if negb (f (value name))
               then own_push (value name) (prune f (value val))
                      (filter_spec_fields (prune f) f fields)
               else filter_spec_fields (prune f) f fields)
              = filter_spec_fields (prune f) f
                  (own_push (value name) (value val) fields)).
    { rewrite (prune_push (prune f) f (value name) (value val) fields Hord).
      destruct (f (value name)); reflexivity. }
    rewrite Hpush.
    destruct (error val); [injection E as <-; reflexivity|].
    destruct (_ =? ii); [injection E as <-; reflexivity|].
    apply (IHbl _ _ _ E).
    apply well_formed_push; [exact Hf | exact (Wv _ _ Ev)].
  - intros ii r. rewrite !parse_list_S. intros E.
    exact (IHll _ _ _ E).
  - intros ii items r. rewrite !parse_list_loop_S.
    destruct ((ii <? length text) && negb (eqs (charAt text ii) (lit "]")));
      [|intros E; injection E as <-; do 2 apply f_equal; apply pruned_list_end].
    cbv zeta.
    destruct (parse_value fuel text ii None) as [[item|]|] eqn:Ev;
      try discriminate.
    rewrite (IHv _ _ Ev). unfold pruned. cbn [error value position].
    destruct (error item); [intros E; injection E as <-; reflexivity|].
    assert (Hi : map (prune f) items ++ [prune f (value item)]
                 = map (prune f) (items ++ [value item]))
      by now rewrite map_app.
    rewrite Hi.
    destruct (ii =? _).
    + intros E. injection E as <-. do 2 apply f_equal; apply pruned_list_end.
    + intros E. exact (IHll _ _ _ E).
Qed.

(** X3: when the parse without filter returns, the parse with a
    filter returns too, with the same position and the same error, and
    its value is the value of the parse without filter less the fields
    whose name the filter accepts, at every depth and inside lists as
    well. *)
Theorem filter_func_only_prunes_the_value :
  forall (text : str) (ii : nat) (f : str -> bool) (res : result node),
    parse_proto (fuel_for text) text ii None = Some (Returns res) ->
    parse_proto (fuel_for text) text ii (Some f)
    = Some (Returns {| value := prune f (value res);
                       position := position res;
                       error := error res |}).
Proof.
  intros text ii f res E.
  destruct (filtered_at_all text f (fuel_for text)) as (_ & Hp & _).
  exact (Hp _ _ E).
Qed.

Lemma filter_func_only_prunes_the_value_witness :
  parse_proto (fuel_for text_list_of_objects) text_list_of_objects 0
    (Some (fun name => eqs name (lit "c")))
  = Some (Returns
            {| value := prune (fun name => eqs name (lit "c"))
                          (Object tree_list_of_objects);
               position := 11;
               error := None |}).
Proof.
  apply (filter_func_only_prunes_the_value text_list_of_objects 0
           (fun name => eqs name (lit "c"))
           {| value := Object tree_list_of_objects;
              position := 11;
              error := None |}).
  vm_compute. reflexivity.
Defined.

Lemma well_formed_tree_ok (x : node) :
  well_formed x = true -> tree_ok x = true.
Proof.
  induction x as [s|fields IH|items IH] using node_induction;
    cbn [well_formed tree_ok]; intros H; [reflexivity| |].
  - apply andb_true_iff in H as [Hord H]. rewrite Hord. cbn [andb].
    apply forallb_forall. intros kv Hin.
    rewrite forallb_forall in H. specialize (H kv Hin).
    apply andb_true_iff in H as [_ H].
    rewrite Forall_forall in IH. specialize (IH kv Hin).
    apply forallb_forall. intros e He.
    rewrite Forall_forall in IH. apply (IH e He).
    rewrite forallb_forall in H. exact (H e He).
  - apply forallb_forall. intros e He.
    rewrite Forall_forall in IH. apply (IH e He).
    rewrite forallb_forall in H. exact (H e He).
Qed.

Lemma filter_spec_fields_ext (rec rec' : node -> node) (p : str -> bool)
  (T : ProtoObject) :
  Forall (fun kv => Forall (fun e => rec e = rec' e) (snd kv)) T ->
  filter_spec_fields rec p T = filter_spec_fields rec' p T.
Proof.
  induction 1 as [|[k elems] T Hk _ IH]; [reflexivity|].
  cbn [filter_spec_fields]. destruct (p k); [exact IH|].
  rewrite IH. do 2 f_equal. cbn [snd] in Hk.
  induction Hk as [|e elems He _ IHe]; [reflexivity|].
  cbn [map]. now rewrite He, IHe.
Qed.

(** Without lists, pruning is the filter of the specification. *)
Lemma prune_filter_spec (f : str -> bool) (x : node) :
  no_arrays x = true -> prune f x = filter_spec_node f x.
Proof.
  induction x as [s|fields IH|items IH] using node_induction;
    cbn [no_arrays prune filter_spec_node]; intros H;
    [reflexivity| |discriminate].
  f_equal. apply filter_spec_fields_ext.
  apply Forall_forall. intros kv Hin. apply Forall_forall. intros e He.
  rewrite Forall_forall in IH. specialize (IH kv Hin).
  rewrite Forall_forall in IH. apply (IH e He).
  rewrite forallb_forall in H. specialize (H kv Hin).
  rewrite forallb_forall in H. exact (H e He).
Qed.

(** X4: when the value that [parse_proto] returns without filter holds no
    list, the parse with the filter [f] returns the same position and
    error, and its value is [filter_proto] of the unfiltered value:
    filtering while parsing and filtering the parsed tree agree. *)
Theorem filter_func_agrees_with_filter_proto :
  forall (text : str) (ii : nat) (f : str -> bool) (res : result node)
         (T : ProtoObject),
    parse_proto (fuel_for text) text ii None = Some (Returns res) ->
    value res = Object T ->
    no_arrays (Object T) = true ->
    parse_proto (fuel_for text) text ii (Some f)
    = Some (Returns {| value := Object (filter_proto T f);
                       position := position res;
                       error := error res |}).
Proof.
  intros text ii f res T E Hv Hna.
  destruct (filtered_at_all text f (fuel_for text)) as (_ & Hp & _).
  rewrite (Hp _ _ E). unfold pruned. rewrite Hv. do 3 f_equal.
  destruct (well_formed_at_all text None (fuel_for text)) as (_ & Wp & _).
  specialize (Wp _ _ E). rewrite Hv in Wp.
  rewrite (prune_filter_spec f (Object T) Hna).
  symmetry. exact (filter_node_spec f (Object T) (well_formed_tree_ok _ Wp)).
Qed.

Lemma filter_func_agrees_with_filter_proto_witness :
  parse_proto (fuel_for text_repeated) text_repeated 0
    (Some (fun name => eqs name (lit "b")))
  = Some (Returns
            {| value :=
                 Object (filter_proto
                           [(lit "a",
                             [Object [(lit "b", [Scalar (lit "1")])];
                              Object [(lit "b", [Scalar (lit "2")])]])]
                           (fun name => eqs name (lit "b")));
               position := 21;
               error := None |}).
Proof.
  apply (filter_func_agrees_with_filter_proto text_repeated 0
           (fun name => eqs name (lit "b"))
           {| value :=
                Object [(lit "a",
                         [Object [(lit "b", [Scalar (lit "1")])];
                          Object [(lit "b", [Scalar (lit "2")])]])];
              position := 21;
              error := None |}).
  - vm_compute. reflexivity.
  - reflexivity.
  - reflexivity.
Defined.
(** ** Where the parser stops *)

Lemma body_loop_quiet_stop (text : str) (ff : option (str -> bool)) :
  forall fuel ii fields r,
    parse_body_loop fuel text ff ii fields = Some (Returns r) ->
    error r = None ->
    (position r <? length text)
    && negb (eqs (charAt text (position r)) (lit "}")) = false.
Proof.
  induction fuel as [|fuel IH]; intros ii fields r; [discriminate|].
  rewrite parse_body_loop_S.
  destruct ((ii <? length text) && negb (eqs (charAt text ii) (lit "}")))
    eqn:Hc; [|intros E _; injection E as <-; exact Hc].
  cbv zeta.
  destruct (error (parse_token text (consume_comments text ii) true));
    [intros E He; injection E as <-; discriminate|].
  destruct (parse_value fuel text _ ff) as [[val|]|]; try discriminate.
  destruct (keeps ff _ && negb (obj_has _ fields) && inherited _);
    [discriminate|].
  destruct (error val); [intros E He; injection E as <-; discriminate|].
  destruct (_ =? ii); [intros E He; injection E as <-; discriminate|].
  apply IH.
Qed.

(** X5: when [parse_proto] is called on a text that does not open with a
    brace and returns without error, it has stopped at the end of the
    text or on a closing brace: what follows an unmatched closing brace is
    left unread and no error reports it. *)
Theorem quiet_parse_stops_at_end_or_brace :
  forall (text : str) (ii : nat) (filter_func : option (str -> bool))
         (res : result node),
    parse_proto (fuel_for text) text ii filter_func = Some (Returns res) ->
    eqs (charAt text (consume_comments text ii)) (lit "{") = false ->
    error res = None ->
    length text <= position res
    \/ eqs (charAt text (position res)) (lit "}") = true.
Proof.
  intros text ii ff res. rewrite fuel_for_S, parse_proto_S. cbv zeta.
  intros E Hb. rewrite Hb in E. rewrite parse_body_S in E.
  destruct (parse_body_loop _ text ff _ []) as [[body|]|] eqn:Eb;
    try discriminate.
  destruct (error body) eqn:Eerr.
  - injection E as <-. congruence.
  - injection E as <-. intros _.
    pose proof (body_loop_quiet_stop text ff _ _ _ _ Eb Eerr) as H.
    apply andb_false_iff in H as [H | H].
    + left. now apply Nat.ltb_ge.
    + right. now apply negb_false_iff.
Qed.

Lemma quiet_parse_stops_at_end_or_brace_witness :
  length text_stray_brace <= 5
  \/ eqs (charAt text_stray_brace 5) (lit "}") = true.
Proof.
  apply (quiet_parse_stops_at_end_or_brace text_stray_brace 0 None
           {| value := Object [(lit "a", [Scalar (lit "1")])];
              position := 5;
              error := None |}).
  - vm_compute. reflexivity.
  - reflexivity.
  - reflexivity.
Defined.

(** X6: when [parse_proto] is called on a text that opens with a brace
    and returns without error, it has read a closing brace, and the
    position returned is the one after that brace and the white space and
    comments that follow it; so a braced text in which no closing brace
    is found always comes back with an error. *)
Theorem braced_parse_needs_closing_brace :
  forall (text : str) (ii : nat) (filter_func : option (str -> bool))
         (res : result node),
    parse_proto (fuel_for text) text ii filter_func = Some (Returns res) ->
    eqs (charAt text (consume_comments text ii)) (lit "{") = true ->
    error res = None ->
    exists jj,
      ii < jj /\ nth_error text jj = Some 125%N
      /\ position res = consume_comments text (S jj).
Proof.
  intros text ii ff res. rewrite fuel_for_S, parse_proto_S. cbv zeta.
  intros E Hb. rewrite Hb in E.
  destruct (parse_body _ text _ ff) as [[body|]|] eqn:Eb; try discriminate.
  destruct (total_at_all text ff (S (4 * length text + 2)))
    as (_ & _ & Tb & _).
  destruct (error body) eqn:Eerr; [injection E as <-; congruence|].
  injection E as <-. cbn [error position].
  destruct (eqs (charAt text (consume_comments text (position body)))
              (lit "}")) eqn:Hc; cbn [negb]; [|discriminate].
  intros _. exists (consume_comments text (position body)).
  repeat split.
  - pose proof (consume_comments_ge text ii).
    pose proof (consume_comments_ge text (position body)).
    assert (Hlt : consume_comments text ii < length text)
      by (apply charAt_lt in Hb; [lia | discriminate]).
    destruct (Tb (S (consume_comments text ii))) as (body' & E' & Hge);
      [lia|].
    rewrite Eb in E'. injection E' as <-. cbv iota beta in Hge. lia.
  - now apply charAt_is.
Qed.

Lemma braced_parse_needs_closing_brace_witness :
  exists jj,
    0 < jj /\ nth_error text_braced jj = Some 125%N
    /\ 15 = consume_comments text_braced (S jj).
Proof.
  apply (braced_parse_needs_closing_brace text_braced 0 None
           {| value := Object [(lit "a", [Scalar (lit "1")])];
              position := 15;
              error := None |}).
  - vm_compute. reflexivity.
  - reflexivity.
  - reflexivity.
Defined.

(** ** Unrecognized characters *)

Lemma unrecognized_facts (c : N) :
  unrecognized c = true ->
  is_space c = false /\ c <> 35%N /\ name_re c = false /\ token_re c = false
  /\ c <> 123%N /\ c <> 125%N /\ c <> 58%N /\ c <> 44%N /\ c <> 34%N
  /\ c <> 39%N /\ c <> 91%N.
Proof.
  unfold unrecognized, stop_char. intros H.
  repeat (apply andb_true_iff in H as [H ?]).
  repeat match goal with
         | X : negb _ = true |- _ => apply negb_true_iff in X
         end.
  repeat match goal with
         | X : N.eqb _ _ = false |- _ => apply N.eqb_neq in X
         end.
  assert (Ht : token_re c = false).
  { destruct (token_re c) eqn:Ht; [|reflexivity].
    apply token_re_name_re in Ht. congruence. }
  repeat split; try assumption.
  intros ->. discriminate.
Qed.

(** X7: a round of the loop of [parse_body] that starts on an
    unrecognized character (such as a semicolon, a parenthesis or a letter
    outside ASCII) reads an empty name and an empty value, pushes the
    empty value under the empty name unless the filter excludes it, and
    stops with the error [Internal error!  Infinite loop] at that
    position; [parse_proto] called there returns the same result. *)
Theorem unrecognized_character_is_internal_error :
  forall (text : str) (ii : nat) (c : N) (filter_func : option (str -> bool)),
    nth_error text ii = Some c ->
    unrecognized c = true ->
    let stuck :=
      Some (Returns
              {| value := Object (if keeps filter_func []
                                  then [([], [Scalar []])] else []);
                 position := ii;
                 error := Some (make_error
                                  (lit "Internal error!  Infinite loop")
                                  text ii None) |}) in
    parse_body (fuel_for text) text ii filter_func = stuck
    /\ parse_proto (fuel_for text) text ii filter_func = stuck.
Proof.
  intros text ii c ff Hc Hu stuck.
  destruct (unrecognized_facts c Hu)
    as (Hsp & Hhash & Hname & Htok & Hob & Hcb & Hcol & Hcom & Hdq & Hsq & Hbr).
  assert (Hlen : 1 <= length text).
  { assert (ii < length text) by (apply nth_error_Some; congruence). lia. }
  assert (Hat : charAt text ii = [c]) by (unfold charAt; now rewrite Hc).
  assert (Hcc : consume_comments text ii = ii)
    by exact (consume_comments_stay text ii c Hc Hsp Hhash).
  assert (Hne : forall d, c <> d -> eqs (charAt text ii) [d] = false).
  { intros d Hd. rewrite Hat. apply eqs_false. congruence. }
  assert (Hskip : skipn ii text = c :: skipn (S ii) text)
    by exact (skipn_nth_cons text ii c Hc).
  assert (Htoken : forall b,
             parse_token text ii b
             = {| value := []; position := ii; error := None |}).
  { intros b. unfold parse_token. cbn [is_defined negb].
    change dquote with [34%N]. change squote with [39%N].
    rewrite (Hne 34%N Hdq), (Hne 39%N Hsq). cbn [orb].
    unfold consume_regexp. cbn [value position]. rewrite Hskip.
    cbn [scan]. destruct b; rewrite ?Hname, ?Htok;
      rewrite Nat.sub_diag; unfold substr; cbn [Z.of_nat Z.to_nat firstn];
      reflexivity. }
  assert (Hbody : forall fuel,
             parse_body (S (S (S fuel))) text ii ff = stuck).
  { intros fuel. rewrite parse_body_S, parse_body_loop_S.
    assert (Hlt : (ii <? length text) = true).
    { apply Nat.ltb_lt, nth_error_Some. congruence. }
    rewrite Hlt. change (lit "}") with [125%N]. rewrite (Hne 125%N Hcb).
    cbn [negb andb]. cbv zeta. rewrite Hcc, (Htoken true).
    cbn [error position value]. rewrite Hcc.
    change (lit ":") with [58%N]. rewrite (Hne 58%N Hcol), Hcc.
    rewrite parse_value_S.
    change (lit "{") with [123%N]. rewrite (Hne 123%N Hob).
    change (lit "[") with [91%N]. rewrite (Hne 91%N Hbr).
    cbv zeta. rewrite (Htoken false). cbn [error position value].
    change (inherited []) with false. rewrite andb_false_r.
    assert (Hpos : (if ii =? 0 then ii else ii) = ii)
      by (destruct (ii =? 0); reflexivity).
    rewrite Hpos, Hcc.
    change (lit ",") with [44%N]. rewrite (Hne 44%N Hcom).
    rewrite Nat.eqb_refl. unfold stuck.
    destruct (keeps ff []); reflexivity. }
  split.
  - unfold fuel_for.
    replace (4 * length text + 4) with (S (S (S (4 * length text + 1))))
      by lia.
    apply Hbody.
  - unfold fuel_for.
    replace (4 * length text + 4) with (S (S (S (S (4 * length text)))))
      by lia.
    rewrite parse_proto_S. cbv zeta. rewrite Hcc.
    change (lit "{") with [123%N]. rewrite (Hne 123%N Hob).
    rewrite (Hbody (4 * length text)). reflexivity.
Qed.

Lemma unrecognized_character_is_internal_error_witness :
  let stuck :=
    Some (Returns
            {| value := Object (if keeps None []
                                then [([], [Scalar []])] else []);
               position := 5;
               error := Some (make_error
                                (lit "Internal error!  Infinite loop")
                                (lit "a: 1 ; b: 2") 5 None) |}) in
  parse_body (fuel_for (lit "a: 1 ; b: 2")) (lit "a: 1 ; b: 2") 5 None = stuck
  /\ parse_proto (fuel_for (lit "a: 1 ; b: 2")) (lit "a: 1 ; b: 2") 5 None
     = stuck.
Proof.
  apply (unrecognized_character_is_internal_error (lit "a: 1 ; b: 2") 5 59%N
           None); reflexivity.
Defined.

(** ** Texts without content *)

Lemma space_not_hash (c : N) : is_space c = true -> N.eqb c 35 = false.
Proof.
  intros H. apply N.eqb_neq. intros ->. discriminate.
Qed.

Lemma scan_space_blank (rest : str) :
  forall jj,
    blank false rest = true ->
    blank false (skipn (scan is_space rest jj - jj) rest) = true.
Proof.
  induction rest as [|c rest IH]; intros jj Hb; cbn [scan].
  - now rewrite skipn_nil.
  - destruct (is_space c) eqn:Hc.
    + pose proof (scan_ge is_space rest (S jj)) as Hge.
      replace (scan is_space rest (S jj) - jj)
        with (S (scan is_space rest (S jj) - S jj)) by lia.
      cbn [skipn]. apply IH. cbn [blank] in Hb.
      rewrite (space_not_hash c Hc), Hc in Hb. exact Hb.
    + rewrite Nat.sub_diag. exact Hb.
Qed.

Lemma skip_line_blank (rest : str) :
  forall ii,
    blank true rest = true ->
    blank false (skipn (skip_line rest ii - ii) rest) = true.
Proof.
  induction rest as [|c rest IH]; intros ii Hb; cbn [skip_line].
  - now rewrite skipn_nil.
  - cbn [blank] in Hb. change newline with [10%N]. rewrite eqs_single.
    destruct (N.eqb c 10); cbn [negb] in Hb.
    + replace (S ii - ii) with 1 by lia. exact Hb.
    + pose proof (skip_line_ge rest (S ii)) as Hge.
      replace (skip_line rest (S ii) - ii)
        with (S (skip_line rest (S ii) - S ii)) by lia.
      cbn [skipn]. now apply IH.
Qed.

Lemma consume_whitespace_blank (text : str) (ii : nat) :
  blank false (skipn ii text) = true ->
  blank false (skipn (consume_whitespace text ii) text) = true.
Proof.
  intros Hb. unfold consume_whitespace, consume_regexp. cbn [position].
  pose proof (scan_space_blank (skipn ii text) ii Hb) as H.
  pose proof (scan_ge is_space (skipn ii text) ii) as Hge.
  rewrite skipn_skipn in H.
  replace (scan is_space (skipn ii text) ii - ii + ii)
    with (scan is_space (skipn ii text) ii) in H by lia.
  exact H.
Qed.

Lemma comments_loop_blank (text : str) :
  forall rounds ii,
    blank false (skipn ii text) = true ->
    blank false (skipn (comments_loop rounds text ii) text) = true.
Proof.
  induction rounds as [|rounds IH]; intros ii Hb; cbn [comments_loop];
    [exact Hb|].
  destruct ((ii <? length text) && eqs (charAt text ii) (lit "#")) eqn:Hc;
    [|exact Hb].
  apply andb_true_iff in Hc as [_ Hc]. change (lit "#") with [35%N] in Hc.
  apply charAt_is in Hc.
  apply IH, consume_whitespace_blank.
  pose proof (skip_line_blank (skipn ii text) ii) as H.
  pose proof (skip_line_ge (skipn ii text) ii) as Hge.
  rewrite skipn_skipn in H.
  replace (skip_line (skipn ii text) ii - ii + ii)
    with (skip_line (skipn ii text) ii) in H by lia.
  apply H. rewrite (skipn_nth_cons text ii 35%N Hc) in *.
  exact Hb.
Qed.

(** On a text of white space and comments, [consume_comments] runs to
    the end. *)
Lemma consume_comments_blank (text : str) :
  blank false text = true -> consume_comments text 0 = length text.
Proof.
  intros Hb.
  assert (H : blank false (skipn (consume_comments text 0) text) = true).
  { unfold consume_comments.
    apply comments_loop_blank, consume_whitespace_blank. exact Hb. }
  pose proof (consume_comments_settled text 0) as Hs.
  pose proof (consume_comments_le text 0) as Hle.
  destruct (skipn (consume_comments text 0) text) as [|c rest] eqn:E.
  - apply skipn_nil_ge in E. lia.
  - cbn [starts] in Hs. cbn [blank] in H. unfold stop_char in Hs.
    apply andb_true_iff in Hs as [Hsp Hh].
    apply negb_true_iff in Hsp, Hh. rewrite Hh, Hsp in H. discriminate.
Qed.

(** X8: on a text that holds only white space and comments (the empty text
    among them) [parse_proto] returns the empty object, no error, and the
    length of the text as position. *)
Theorem blank_text_parses_to_empty_object :
  forall (text : str) (filter_func : option (str -> bool)),
    blank false text = true ->
    parse_proto (fuel_for text) text 0 filter_func
    = Some (Returns {| value := Object []; position := length text; error := None |}).
Proof.
  intros text ff Hb. unfold fuel_for.
  replace (4 * length text + 4) with (S (S (S (4 * length text + 1))))
    by lia.
  rewrite parse_proto_S. cbv zeta.
  rewrite (consume_comments_blank text Hb).
  assert (Hat : charAt text (length text) = []).
  { unfold charAt.
    now rewrite (proj2 (nth_error_None text (length text)) (le_n _)). }
  rewrite Hat. cbn [eqs lit].
  rewrite parse_body_S, parse_body_loop_S, Nat.ltb_irrefl.
  reflexivity.
Qed.

Lemma blank_text_parses_to_empty_object_witness :
  parse_proto (fuel_for text_blank) text_blank 0 None
  = Some (Returns {| value := Object []; position := length text_blank;
            error := None |}).
Proof.
  apply (blank_text_parses_to_empty_object text_blank None). reflexivity.
Defined.
(* ------------------------------------------------------------------ *)
(** * The cursor helpers *)

(** X9: [consume_regexp] takes the longest run of matching characters
    that starts at [ii]: its value is that run, taken from the text, its
    position is [ii] plus the length of the run, every character of the
    run matches, the text is over or goes on with a character that does
    not match, and the error is null. *)
Theorem consume_regexp_takes_longest_run :
  forall (text : str) (ii : nat) (regexp : N -> bool),
    let r := consume_regexp text ii regexp in
    skipn ii text = value r ++ skipn (position r) text
    /\ position r = ii + length (value r)
    /\ forallb regexp (value r) = true
    /\ starts (fun c => negb (regexp c)) (skipn (position r) text) = true
    /\ error r = None.
Proof.
  intros text ii regexp. unfold consume_regexp. cbv zeta.
  cbn [value position error].
  pose proof (scan_ge regexp (skipn ii text) ii) as Hge.
  pose proof (scan_le regexp (skipn ii text) ii) as Hle.
  set (jj := scan regexp (skipn ii text) ii) in *.
  rewrite substr_firstn.
  assert (Hjj : skipn jj text = skipn (jj - ii) (skipn ii text)).
  { rewrite skipn_skipn. f_equal. lia. }
  repeat split.
  - rewrite Hjj. symmetry. apply firstn_skipn.
  - rewrite length_firstn. lia.
  - apply scan_class.
  - rewrite Hjj. apply scan_stops.
Qed.

(** ** White space and comments *)

Lemma gap_spaces (ws rest : str) :
  forallb is_space ws = true ->
  gap false (ws ++ rest) = gap false rest.
Proof.
  induction ws as [|c ws IH]; [reflexivity|].
  cbn [forallb app gap]. intros H. apply andb_true_iff in H as [Hc H].
  now rewrite (space_not_hash c Hc), Hc, (IH H).
Qed.

(** The leading white space of a text. *)
Lemma leading_spaces (s : str) :
  exists ws s', s = ws ++ s' /\ forallb is_space ws = true
                /\ starts (fun c => negb (is_space c)) s' = true.
Proof.
  induction s as [|c s (ws & s' & -> & Hws & Hs')].
  - exists [], []. repeat split.
  - destruct (is_space c) eqn:Hc.
    + exists (c :: ws), s'. repeat split; [|exact Hs'].
      cbn [forallb]. now rewrite Hc, Hws.
    + exists [], (c :: ws ++ s'). repeat split. cbn [starts]. now rewrite Hc.
Qed.

Lemma starts_app (p : N -> bool) (a b : str) :
  starts p a = true -> starts p b = true -> starts p (a ++ b) = true.
Proof. destruct a; intros Ha Hb; [exact Hb | exact Ha]. Qed.

Lemma whitespace_of_gap (text s rest : str) (ii : nat) :
  skipn ii text = s ++ rest -> gap false s = true ->
  starts stop_char rest = true ->
  exists s', skipn (consume_whitespace text ii) text = s' ++ rest
             /\ gap false s' = true
             /\ starts (fun c => negb (is_space c)) s' = true
             /\ consume_whitespace text ii + length s' = ii + length s.
Proof.
  intros E Hg Hr. destruct (leading_spaces s) as (ws & s' & -> & Hws & Hs').
  rewrite (gap_spaces ws s' Hws) in Hg.
  assert (Hcw : consume_whitespace text ii = ii + length ws).
  { unfold consume_whitespace, consume_regexp. cbn [position].
    rewrite E, <- app_assoc. apply scan_run; [exact Hws|].
    apply starts_app; [exact Hs'|].
    exact (starts_weaken _ _ rest stop_not_space Hr). }
  exists s'. rewrite Hcw. repeat split; try assumption.
  - rewrite <- app_assoc in E. exact (skipn_app_at text ws (s' ++ rest) ii E).
  - rewrite length_app. lia.
Qed.

(** A comment that is closed, with the text that follows it. *)
Lemma skip_line_closed (s : str) :
  forall rest ii,
    gap true s = true ->
    exists s', skip_line (s ++ rest) ii + length s' = ii + length s
               /\ skipn (skip_line (s ++ rest) ii - ii) (s ++ rest)
                  = s' ++ rest
               /\ gap false s' = true.
Proof.
  induction s as [|c s IH]; intros rest ii Hg; [discriminate|].
  cbn [gap] in Hg. cbn [app skip_line]. change newline with [10%N].
  rewrite eqs_single. destruct (N.eqb c 10); cbn [negb] in Hg.
  - exists s. replace (S ii - ii) with 1 by lia. cbn [skipn length].
    repeat split; [lia | exact Hg].
  - destruct (IH rest (S ii) Hg) as (s' & Hlen & Hskip & Hs').
    exists s'. pose proof (skip_line_ge (s ++ rest) (S ii)) as Hge.
    replace (skip_line (s ++ rest) (S ii) - ii)
      with (S (skip_line (s ++ rest) (S ii) - S ii)) by lia.
    cbn [skipn length]. repeat split; [lia | exact Hskip | exact Hs'].
Qed.

Lemma comments_loop_gap (text rest : str) :
  forall rounds s ii,
    length s <= rounds ->
    skipn ii text = s ++ rest -> gap false s = true ->
    starts (fun c => negb (is_space c)) s = true ->
    starts stop_char rest = true ->
    comments_loop rounds text ii = ii + length s.
Proof.
  induction rounds as [|rounds IH]; intros s ii Hr E Hg Hs Hrest.
  - destruct s; [cbn; lia | cbn in Hr; lia].
  - cbn [comments_loop]. destruct s as [|c s].
    + cbn [app] in E. cbn [length].
      destruct rest as [|d rest].
      * apply skipn_nil_ge in E. apply Nat.ltb_ge in E. rewrite E.
        cbn [andb]. lia.
      * cbn [starts] in Hrest. unfold stop_char in Hrest.
        apply andb_true_iff in Hrest as [_ Hd]. apply negb_true_iff in Hd.
        rewrite (charAt_head text rest ii d E). change (lit "#") with [35%N].
        rewrite eqs_single, Hd, andb_false_r. lia.
    + cbn [starts] in Hs. apply negb_true_iff in Hs.
      cbn [gap] in Hg. rewrite Hs in Hg. cbn [andb] in Hg.
      destruct (N.eqb c 35) eqn:Hc; [|discriminate].
      apply N.eqb_eq in Hc. subst c. cbn [app] in E.
      rewrite (in_text text (s ++ rest) ii 35%N E),
        (charAt_head text (s ++ rest) ii 35%N E).
      change (lit "#") with [35%N]. rewrite eqs_refl. cbn [andb].
      rewrite E.
      assert (Hg' : gap true (35%N :: s) = true) by exact Hg.
      destruct (skip_line_closed (35%N :: s) rest ii Hg')
        as (s1 & Hlen & Hskip & Hs1).
      cbn [app] in Hlen, Hskip.
      set (i1 := skip_line (35%N :: s ++ rest) ii) in *.
      assert (Hge : ii < i1) by (apply skip_line_gt; discriminate).
      pose proof (consume_whitespace_ge text i1) as Hcw.
      assert (E1 : skipn i1 text = s1 ++ rest).
      { rewrite <- Hskip, <- E, skipn_skipn. f_equal. lia. }
      destruct (whitespace_of_gap text s1 rest i1 E1 Hs1 Hrest)
        as (s2 & E2 & Hs2 & Hns & Hlen2).
      rewrite (IH s2 (consume_whitespace text i1)); try assumption.
      * lia.
      * cbn [length] in *. lia.
Qed.

(** A stretch of white space and closed comments before other content
    is skipped, and nothing else. *)
Lemma consume_comments_gap (text : str) (ii : nat) (s rest : str) :
  skipn ii text = s ++ rest ->
  gap false s = true ->
  starts stop_char rest = true ->
  consume_comments text ii = ii + length s.
Proof.
  intros E Hg Hrest. unfold consume_comments.
  destruct (whitespace_of_gap text s rest ii E Hg Hrest)
    as (s' & E' & Hs' & Hns & Hlen).
  assert (Hr : length s' <= length text).
  { pose proof (f_equal (@length N) E') as HL.
    rewrite length_skipn, length_app in HL. lia. }
  rewrite (comments_loop_gap text rest (length text) s'
             (consume_whitespace text ii) Hr E' Hs' Hns Hrest).
  lia.
Qed.

(** X10: [consume_comments] skips exactly a stretch of white space and
    comments (each running from [#] through the next line break) that is
    followed by other content or by the end of the text: it returns the
    position just after the stretch. *)
Theorem consume_comments_skips_the_gap :
  forall (text : str) (ii : nat) (s rest : str),
    skipn ii text = s ++ rest ->
    gap false s = true ->
    starts stop_char rest = true ->
    consume_comments text ii = ii + length s.
Proof. exact consume_comments_gap. Qed.

Lemma consume_comments_skips_the_gap_witness :
  consume_comments text_commented 4
  = 4 + length (lit "  # one" ++ newline ++ lit " # two" ++ newline).
Proof.
  apply (consume_comments_skips_the_gap text_commented 4
           (lit "  # one" ++ newline ++ lit " # two" ++ newline)
           (lit "y: 2")); reflexivity.
Defined.

(** X11: the position that [consume_comments] returns is not before the
    start and not past the end of the text, and there the text is over or
    goes on with a character that is neither white space nor [#]; calling
    it again from that position changes nothing. *)
Theorem consume_comments_lands_on_content :
  forall (text : str) (ii : nat),
    ii <= consume_comments text ii <= Nat.max ii (length text)
    /\ starts stop_char (skipn (consume_comments text ii) text) = true
    /\ consume_comments text (consume_comments text ii)
       = consume_comments text ii.
Proof.
  intros text ii. repeat split.
  - apply consume_comments_ge.
  - apply consume_comments_le.
  - apply consume_comments_settled.
  - apply consume_comments_here with (rest := skipn (consume_comments text ii) text);
      [reflexivity | apply consume_comments_settled].
Qed.

(** ** Error messages *)

(** X12: the message that [make_error] builds without a [len] argument
    ends with a snippet of the text between parentheses.  From offset 10
    on the snippet is the (up to) 20 characters around the offset,
    starting 10 characters before it; for an offset [ii] below 10 the
    start of the snippet is negative and counts from the end of the text:
    the snippet is then the last [10 - ii] characters of the text (the
    whole text when it is shorter), not the text around the offset. *)
Theorem make_error_snippet :
  forall (message text : str) (ii : nat),
    make_error message text ii None
    = message ++ lit " at: " ++ number_to_string (N.of_nat ii) ++ lit " = "
      ++ charAt text ii ++ lit " ("
      ++ (if ii <? 10 then skipn (length text - (10 - ii)) text
          else firstn 20 (skipn (ii - 10) text))
      ++ lit ")".
Proof.
  intros message text ii. unfold make_error. do 6 f_equal.
  f_equal. unfold substr.
  destruct (ii <? 10) eqn:Hlt.
  - apply Nat.ltb_lt in Hlt.
    assert (Hneg : (Z.of_nat ii - Z.of_nat 10 <? 0)%Z = true)
      by (apply Z.ltb_lt; lia).
    rewrite Hneg.
    replace (Z.to_nat (Z.max (Z.of_nat (length text)
                              + (Z.of_nat ii - Z.of_nat 10)) 0))
      with (length text - (10 - ii)) by lia.
    replace (Z.to_nat (Z.of_nat (10 * 2))) with 20 by lia.
    apply firstn_all2. rewrite length_skipn. lia.
  - apply Nat.ltb_ge in Hlt.
    assert (Hneg : (Z.of_nat ii - Z.of_nat 10 <? 0)%Z = false)
      by (apply Z.ltb_ge; lia).
    rewrite Hneg.
    replace (Z.to_nat (Z.of_nat ii - Z.of_nat 10)) with (ii - 10) by lia.
    replace (Z.to_nat (Z.of_nat (10 * 2))) with 20 by lia.
    reflexivity.
Qed.

(** ** Strings that are not closed *)

Lemma string_loop_open (q : N) (rest : str) :
  forall jj escape acc,
    open_string q rest escape = true ->
    string_loop [q] rest jj escape acc = (acc ++ rest, jj + length rest).
Proof.
  induction rest as [|c rest IH]; intros jj escape acc Ho.
  - cbn [string_loop length]. rewrite app_nil_r. f_equal. lia.
  - cbn [open_string] in Ho. cbn [string_loop]. rewrite eqs_single.
    destruct (negb escape && N.eqb c q); [discriminate|].
    change backslash with [92%N]. rewrite eqs_single.
    rewrite (IH (S jj) _ (acc ++ [c]) Ho), <- app_assoc. cbn [app length].
    f_equal. lia.
Qed.

(** X13: when the text has a quote at [ii] and no unescaped occurrence of
    the same quote after it (an occurrence after a backslash that is not
    itself escaped does not count, nor does the other kind of quote),
    [parse_string] returns the error [No end of string found: ii], the
    whole text from the opening quote on as value and the length of the
    text as position. *)
Theorem parse_string_without_closing_quote :
  forall (text : str) (ii : nat) (q : N),
    nth_error text ii = Some q ->
    q = 34%N \/ q = 39%N ->
    open_string q (skipn (S ii) text) false = true ->
    parse_string text ii
    = {| value := skipn ii text;
         position := length text;
         error := Some (lit "No end of string found: "
                        ++ number_to_string (N.of_nat ii)) |}.
Proof.
  intros text ii q Hq Hquote Ho. unfold parse_string.
  assert (Hat : charAt text ii = [q]) by (unfold charAt; now rewrite Hq).
  rewrite Hat. change squote with [39%N]. change dquote with [34%N].
  rewrite !eqs_single.
  assert (Hsel : negb (N.eqb q 39) && negb (N.eqb q 34) = false)
    by (destruct Hquote as [-> | ->]; reflexivity).
  rewrite Hsel. replace (ii + 1) with (S ii) by lia.
  rewrite (string_loop_open q _ (S ii) false [q] Ho).
  assert (Hlt : ii < length text) by (apply nth_error_Some; congruence).
  assert (Hend : S ii + length (skipn (S ii) text) = length text)
    by (rewrite length_skipn; lia).
  rewrite Hend, Nat.leb_refl.
  now rewrite (skipn_nth_cons text ii q Hq).
Qed.

Lemma parse_string_without_closing_quote_witness :
  parse_string text_open_string 3
  = {| value := skipn 3 text_open_string;
       position := length text_open_string;
       error := Some (lit "No end of string found: "
                      ++ number_to_string (N.of_nat 3)) |}.
Proof.
  apply (parse_string_without_closing_quote text_open_string 3 34%N).
  - reflexivity.
  - left. reflexivity.
  - reflexivity.
Defined.
(* ------------------------------------------------------------------ *)
(** * The tree transforms *)

(** ** Filters compose *)












(** ** Slices *)

(** Once a push has thrown, the loops of [proto_slice] do nothing. *)
Lemma slice_seq_thrown (rec : node -> outcome node)
  (keep : str -> node -> bool) (key : str) (elems : list node) :
  fold_left
    (fun new_proto e =>
       match new_proto with
       | TypeError => TypeError
       | Returns new_proto =>
           if is_sub_proto e then
             match rec e with
             | Returns sub => obj_push key sub new_proto
             | TypeError => TypeError
             end
           else if keep key e then obj_push key e new_proto
                else Returns new_proto
       end)
    elems TypeError = TypeError.
Proof. induction elems as [|e elems IH]; [reflexivity | exact IH]. Qed.

Lemma slice_fields_thrown (rec : node -> outcome node)
  (keep : str -> node -> bool) (T : ProtoObject) :
  fold_left
    (fun new_proto kv =>
       fold_left
         (fun new_proto e =>
            match new_proto with
            | TypeError => TypeError
            | Returns new_proto =>
                if is_sub_proto e then
                  match rec e with
                  | Returns sub => obj_push (fst kv) sub new_proto
                  | TypeError => TypeError
                  end
                else if keep (fst kv) e then obj_push (fst kv) e new_proto
                     else Returns new_proto
            end)
         (snd kv) new_proto)
    T TypeError = TypeError.
Proof.
  induction T as [|kv T IH]; [reflexivity|].
  cbn [fold_left]. now rewrite slice_seq_thrown.
Qed.

Section SlicePushes.
Variable keep : str -> node -> bool.

Let slot (kv : str * list node) : bool :=
  nonempty (snd kv)
  && forallb (fun e => match e with
                       | Object _ => sliced keep e
                       | _ => keep (fst kv) e
                       end) (snd kv).

Lemma sliced_push (key : str) (v : node) (o : ProtoObject) :
  forallb slot o = true ->
  match v with Object _ => sliced keep v | _ => keep key v end = true ->
  forallb slot (own_push key v o) = true.
Proof.
  intros Ho Hv. unfold own_push.
  destruct (obj_has key o) eqn:Hh; cbn [negb].
  - apply forallb_update; [exact Ho|].
    intros l. unfold slot. cbn [fst snd]. intros H.
    apply andb_true_iff in H as [_ Hl].
    rewrite forallb_app, Hl. cbn [forallb]. rewrite Hv.
    destruct l; reflexivity.
  - rewrite (update_set key (fun l => l ++ [v]) [] o Hh).
    rewrite (forallb_set _ key _ o Hh), Ho.
    unfold slot. cbn [fst snd app forallb nonempty]. now rewrite Hv.
Qed.

Lemma sliced_fields (rec : node -> outcome node) (T : ProtoObject) :
  Forall (fun kv => Forall (fun e => is_sub_proto e = true ->
                                      forall sub, rec e = Returns sub ->
                                      sliced keep sub = true
                                      /\ is_sub_proto sub = true)
                      (snd kv)) T ->
  forall acc R : ProtoObject,
    forallb slot acc = true ->
    fold_left
      (fun new_proto kv =>
         fold_left
           (fun new_proto e =>
              match new_proto with
              | TypeError => TypeError
              | Returns new_proto =>
                  if is_sub_proto e then
                    match rec e with
                    | Returns sub => obj_push (fst kv) sub new_proto
                    | TypeError => TypeError
                    end
                  else if keep (fst kv) e
                       then obj_push (fst kv) e new_proto
                       else Returns new_proto
              end)
           (snd kv) new_proto)
      T (Returns acc) = Returns R ->
    forallb slot R = true.
Proof.
  induction 1 as [|[k elems] T Hk _ IH]; intros acc R Hacc;
    [intros E; injection E as <-; exact Hacc|].
  cbn [fold_left fst snd].
  match goal with
  | |- fold_left ?F T ?inner = _ -> _ =>
      assert (Hin : inner = TypeError
                    \/ exists acc', inner = Returns acc'
                                    /\ forallb slot acc' = true)
  end.
  { clear IH R. cbn [snd] in Hk. revert acc Hacc.
    induction Hk as [|e elems He _ IHe]; intros acc Hacc;
      [right; exists acc; split; [reflexivity | exact Hacc]|].
    cbn [fold_left].
    assert (Hstep :
              (if is_sub_proto e then
                 match rec e with
                 | Returns sub => obj_push k sub acc
                 | TypeError => TypeError
                 end
               else if keep k e then obj_push k e acc else Returns acc)
              = TypeError
              \/ exists acc',
                   (if is_sub_proto e then
                      match rec e with
                      | Returns sub => obj_push k sub acc
                      | TypeError => TypeError
                      end
                    else if keep k e then obj_push k e acc else Returns acc)
                   = Returns acc'
                   /\ forallb slot acc' = true).
    { destruct (is_sub_proto e) eqn:Hsub.
      - destruct (rec e) as [sub|] eqn:Er; [|now left].
        destruct (He eq_refl sub eq_refl) as [Hs Ho].
        rewrite obj_push_own.
        destruct (negb (obj_has k acc) && inherited k); [now left|].
        right. eexists. split; [reflexivity|].
        apply sliced_push; [exact Hacc|].
        destruct sub; try discriminate. exact Hs.
      - destruct (keep k e) eqn:Hkeep;
          [|right; exists acc; split; [reflexivity | exact Hacc]].
        rewrite obj_push_own.
        destruct (negb (obj_has k acc) && inherited k); [now left|].
        right. eexists. split; [reflexivity|].
        apply sliced_push; [exact Hacc|].
        destruct e; try exact Hkeep. discriminate. }
    destruct Hstep as [-> | (acc' & -> & Hacc')].
    - left. apply slice_seq_thrown.
    - apply IHe. exact Hacc'. }
  destruct Hin as [-> | (acc' & -> & Hacc')].
  - rewrite slice_fields_thrown. discriminate.
  - apply IH. exact Hacc'.
Qed.

Lemma slice_node_sliced (x : node) :
  forall sub, slice_node keep x = Returns sub ->
    sliced keep sub = true
    /\ (is_sub_proto x = true -> is_sub_proto sub = true).
Proof.
  induction x as [s|fields IH|items IH] using node_induction;
    intros sub; cbn [slice_node];
    [intros E; injection E as <-; split; [reflexivity | discriminate] |
    | intros E; injection E as <-; split; [reflexivity | discriminate]].
  destruct (slice_fields (slice_node keep) keep fields) as [R|] eqn:ER;
    [|discriminate].
  intros E. injection E as <-. split; [|reflexivity].
  cbn [sliced]. unfold slice_fields in ER.
  apply (sliced_fields (slice_node keep) fields) with (acc := []);
    [|reflexivity|exact ER].
  apply Forall_forall. intros kv Hin. apply Forall_forall.
  intros e He Hsub sub Es.
  rewrite Forall_forall in IH. specialize (IH kv Hin).
  rewrite Forall_forall in IH. destruct (IH e He sub Es) as [H1 H2].
  split; [exact H1 | exact (H2 Hsub)].
Qed.

End SlicePushes.

(** [proto_slice] returns on every tree that has no field, through
    fields and their object-valued elements, with a name that objects
    inherit. *)
Lemma slice_seq_returns (rec : node -> outcome node)
  (keep : str -> node -> bool) (key : str) (elems : list node) :
  inherited key = false ->
  Forall (fun e => is_sub_proto e = true -> exists sub, rec e = Returns sub)
    elems ->
  forall acc : ProtoObject,
  exists acc',
    fold_left
      (fun new_proto e =>
         match new_proto with
         | TypeError => TypeError
         | Returns new_proto =>
             if is_sub_proto e then
               match rec e with
               | Returns sub => obj_push key sub new_proto
               | TypeError => TypeError
               end
             else if keep key e then obj_push key e new_proto
                  else Returns new_proto
         end)
      elems (Returns acc) = Returns acc'.
Proof.
  intros Hkey. induction 1 as [|e elems He _ IH]; intros acc;
    [exists acc; reflexivity|].
  cbn [fold_left]. destruct (is_sub_proto e) eqn:Hsub.
  - destruct (He eq_refl) as [sub ->].
    rewrite obj_push_own, Hkey, andb_false_r. apply IH.
  - destruct (keep key e); [|apply IH].
    rewrite obj_push_own, Hkey, andb_false_r. apply IH.
Qed.

Lemma slice_fields_returns (rec : node -> outcome node)
  (keep : str -> node -> bool) (T : ProtoObject) :
  Forall (fun kv =>
            inherited (fst kv) = false
            /\ Forall (fun e => is_sub_proto e = true ->
                                exists sub, rec e = Returns sub) (snd kv)) T ->
  forall acc : ProtoObject,
  exists R,
    fold_left
      (fun new_proto kv =>
         fold_left
           (fun new_proto e =>
              match new_proto with
              | TypeError => TypeError
              | Returns new_proto =>
                  if is_sub_proto e then
                    match rec e with
                    | Returns sub => obj_push (fst kv) sub new_proto
                    | TypeError => TypeError
                    end
                  else if keep (fst kv) e
                       then obj_push (fst kv) e new_proto
                       else Returns new_proto
              end)
           (snd kv) new_proto)
      T (Returns acc) = Returns R.
Proof.
  induction 1 as [|kv T [Hkey Hk] _ IH]; intros acc;
    [exists acc; reflexivity|].
  cbn [fold_left].
  destruct (slice_seq_returns rec keep (fst kv) (snd kv) Hkey Hk acc)
    as [acc' ->].
  apply IH.
Qed.

Lemma slice_node_returns (keep : str -> node -> bool) (x : node) :
  has_field inherited x = false -> exists sub, slice_node keep x = Returns sub.
Proof.
  induction x as [s|fields IH|items IH] using node_induction; intros Hown;
    cbn [slice_node]; [eexists; reflexivity| |eexists; reflexivity].
  cbn [has_field] in Hown.
  destruct (slice_fields_returns (slice_node keep) keep fields) with (acc := @nil (str * list node))
    as [R ER].
  - apply Forall_forall. intros kv Hin.
    assert (Hkv : inherited (fst kv) || existsb (has_field inherited) (snd kv)
                  = false).
    { destruct (inherited (fst kv) || existsb (has_field inherited) (snd kv))
        eqn:E; [|reflexivity].
      rewrite <- Hown. symmetry. apply existsb_exists. now exists kv. }
    apply orb_false_iff in Hkv as [Hkey Hel]. split; [exact Hkey|].
    apply Forall_forall. intros e He _.
    rewrite Forall_forall in IH. specialize (IH kv Hin).
    rewrite Forall_forall in IH. apply (IH e He).
    destruct (has_field inherited e) eqn:E; [|reflexivity].
    rewrite <- Hel. symmetry. apply existsb_exists. now exists e.
  - change (slice_fields (slice_node keep) keep fields = Returns R) in ER.
    rewrite ER. eexists; reflexivity.
Qed.

(** X16: in the tree that [proto_slice] returns, through fields and
    their object-valued elements, no field has an empty sequence, and
    every element that is not an object (a string or a list) was accepted
    by [should_keep_slice_func] with the name of its field; and
    [proto_slice] returns such a tree whenever no field of its argument,
    through fields and their object-valued elements, has a name that
    objects inherit. *)
Theorem proto_slice_keeps_only_accepted_leaves :
  forall (T : ProtoObject) (should_keep_slice_func : str -> node -> bool),
    (forall R : ProtoObject,
        proto_slice T should_keep_slice_func = Returns R ->
        sliced should_keep_slice_func (Object R) = true)
    /\ (has_field inherited (Object T) = false ->
        exists R : ProtoObject,
          proto_slice T should_keep_slice_func = Returns R
          /\ sliced should_keep_slice_func (Object R) = true).
Proof.
  intros T keep.
  assert (Hsl : forall R, proto_slice T keep = Returns R ->
                          sliced keep (Object R) = true).
  { intros R E.
    assert (H : slice_node keep (Object T) = Returns (Object R)).
    { cbn [slice_node]. unfold proto_slice in E. now rewrite E. }
    exact (proj1 (slice_node_sliced keep (Object T) (Object R) H)). }
  split; [exact Hsl|].
  intros Hown. destruct (slice_node_returns keep (Object T) Hown) as [sub E].
  cbn [slice_node] in E. fold (proto_slice T keep) in E.
  destruct (proto_slice T keep) as [R|] eqn:ER; [|discriminate].
  exists R. split; [reflexivity | exact (Hsl R eq_refl)].
Qed.

Lemma proto_slice_keeps_only_accepted_leaves_witness :
  sliced (fun name _ => eqs name (lit "y"))
    (Object [(lit "x", [Object [(lit "y", [Scalar (lit "1")])]])]) = true
  /\ exists R : ProtoObject,
       proto_slice tree_mixed (fun name _ => eqs name (lit "y")) = Returns R
       /\ sliced (fun name _ => eqs name (lit "y")) (Object R) = true.
Proof.
  split.
  - apply (proj1 (proto_slice_keeps_only_accepted_leaves tree_mixed
                    (fun name _ => eqs name (lit "y")))).
    vm_compute. reflexivity.
  - apply (proj2 (proto_slice_keeps_only_accepted_leaves tree_mixed
                    (fun name _ => eqs name (lit "y")))).
    vm_compute. reflexivity.
Defined.

Lemma fold_left_same {X Y} (f g : X -> Y -> X) (l : list Y) :
  (forall a y, In y l -> f a y = g a y) ->
  forall a, fold_left f l a = fold_left g l a.
Proof.
  induction l as [|y l IH]; intros H a; [reflexivity|].
  cbn [fold_left]. rewrite (H a y (or_introl eq_refl)).
  apply IH. intros a' y' Hin. apply H. now right.
Qed.

Lemma push_all_pairs (key : str) (elems : list node) (acc : ProtoObject) :
  fold_left (fun new_proto e => own_push key e new_proto) elems acc
  = push_all (map (pair key) elems) acc.
Proof.
  revert acc. induction elems as [|e elems IH]; intros acc; [reflexivity|].
  cbn [fold_left map]. unfold push_all. cbn [fold_left fst snd]. apply IH.
Qed.

Lemma push_all_fields (T : ProtoObject) :
  forall acc : ProtoObject,
    fold_left
      (fun new_proto kv =>
         fold_left (fun new_proto e => own_push (fst kv) e new_proto)
           (snd kv) new_proto)
      T acc
    = push_all (flatten T) acc.
Proof.
  induction T as [|[k elems] T IH]; intros acc; [reflexivity|].
  cbn [fold_left fst snd]. rewrite IH, push_all_pairs.
  unfold flatten. cbn [flat_map fst snd]. unfold push_all.
  now rewrite fold_left_app.
Qed.

(** With a predicate that accepts everything and no inherited name, the
    loops of [proto_slice] push every element. *)
Lemma slice_all_pushes (rec : node -> outcome node) (T : ProtoObject) :
  Forall (fun kv => inherited (fst kv) = false
                    /\ Forall (fun e => is_sub_proto e = true ->
                                        rec e = Returns e) (snd kv)) T ->
  forall acc : ProtoObject,
    fold_left
      (fun new_proto kv =>
         fold_left
           (fun new_proto e =>
              match new_proto with
              | TypeError => TypeError
              | Returns new_proto =>
                  if is_sub_proto e then
                    match rec e with
                    | Returns sub => obj_push (fst kv) sub new_proto
                    | TypeError => TypeError
                    end
                  else obj_push (fst kv) e new_proto
              end)
           (snd kv) new_proto)
      T (Returns acc)
    = Returns
        (fold_left
           (fun new_proto kv =>
              fold_left (fun new_proto e => own_push (fst kv) e new_proto)
                (snd kv) new_proto)
           T acc).
Proof.
  induction 1 as [|[k elems] T [Hk He] _ IH]; intros acc; [reflexivity|].
  cbn [fold_left fst snd] in *. rewrite <- IH. f_equal.
  clear IH. revert acc.
  induction He as [|e elems H1 _ IHe]; intros acc; [reflexivity|].
  cbn [fold_left]. rewrite <- IHe. f_equal.
  destruct (is_sub_proto e); [rewrite (H1 eq_refl)|];
    apply obj_push_fresh; exact Hk.
Qed.

Lemma slice_all_identity (x : node) :
  well_formed x = true -> has_field inherited x = false ->
  slice_node (fun _ _ => true) x = Returns x.
Proof.
  induction x as [s|fields IH|items IH] using node_induction;
    intros Hwf Hown; try reflexivity.
  cbn [slice_node]. unfold slice_fields.
  cbn [well_formed] in Hwf. apply andb_true_iff in Hwf as [Hord Hwf].
  cbn [has_field] in Hown.
  rewrite (slice_all_pushes (slice_node (fun _ _ => true)) fields).
  - rewrite push_all_fields, (push_all_flatten fields []);
      [reflexivity | exact Hord |].
    apply forallb_forall. intros kv Hin.
    rewrite forallb_forall in Hwf. specialize (Hwf kv Hin).
    now apply andb_true_iff in Hwf as [Hne _].
  - apply Forall_forall. intros kv Hin.
    assert (Hkv : inherited (fst kv) || existsb (has_field inherited) (snd kv)
                  = false).
    { destruct (inherited (fst kv) || existsb (has_field inherited) (snd kv))
        eqn:E; [|reflexivity].
      rewrite <- Hown. symmetry. apply existsb_exists. exists kv.
      split; [exact Hin | exact E]. }
    apply orb_false_iff in Hkv as [Hk Hel].
    split; [exact Hk|]. apply Forall_forall. intros e He Hsub.
    rewrite Forall_forall in IH. specialize (IH kv Hin).
    rewrite Forall_forall in IH. apply (IH e He).
    + rewrite forallb_forall in Hwf. specialize (Hwf kv Hin).
      apply andb_true_iff in Hwf as [_ Hwf].
      rewrite forallb_forall in Hwf. exact (Hwf e He).
    + destruct (has_field inherited e) eqn:E; [|reflexivity].
      rewrite <- Hel. symmetry. apply existsb_exists. exists e.
      split; [exact He | exact E].
Qed.

(** X17: with a predicate that accepts every leaf, [proto_slice] returns
    a tree equal to its argument, provided that the argument is well
    formed (fields in enumeration order, no empty sequence) and that no
    field of it, through fields and their object-valued elements, has a
    name that objects inherit, as it is for every tree that the parser
    returns. *)
Theorem proto_slice_of_everything_is_identity :
  forall T : ProtoObject,
    well_formed (Object T) = true ->
    has_field inherited (Object T) = false ->
    proto_slice T (fun _ _ => true) = Returns T.
Proof.
  intros T Hwf Hown.
  pose proof (slice_all_identity (Object T) Hwf Hown) as E.
  cbn [slice_node] in E. unfold proto_slice.
  destruct (slice_fields _ _ T) as [R|]; [|discriminate].
  injection E as ->. reflexivity.
Qed.

Lemma proto_slice_of_everything_is_identity_witness :
  proto_slice tree_mixed (fun _ _ => true) = Returns tree_mixed.
Proof.
  apply (proto_slice_of_everything_is_identity tree_mixed); reflexivity.
Defined.
(* ------------------------------------------------------------------ *)
(** * The tree-info engine with one attribute *)

Section OneAttributeFacts.
Variable A : Type.
Variable a : str.
Variable attr : attribute A.

Lemma collect_single (vs : list A) :
  collect a (map (fun v => [(a, v)]) vs) = vs.
Proof.
  unfold collect. induction vs as [|v vs IH]; [reflexivity|].
  cbn [map flat_map obj_get]. rewrite eqs_refl, IH. reflexivity.
Qed.

Lemma info_items_single (rec : node -> option (attr_dict A))
  (frec : node -> A) (name : str) (elems : list node) :
  Forall (fun e => is_object e = true ->
                   exists d, rec e = Some d /\ total d = [(a, frec e)])
    elems ->
  forall ii, exists xs,
    info_items [(a, attr)] rec name ii elems = Some xs
    /\ map snd xs
       = map (fun v => [(a, v)]) (elem_values attr frec name ii elems).
Proof.
  induction 1 as [|e elems He _ IH]; intros ii.
  - exists []. split; reflexivity.
  - destruct (IH (S ii)) as (xs & E & Hxs).
    cbn [info_items elem_values]. rewrite E.
    destruct e as [s|fields|items].
    + cbn [info_item map fst snd]. eexists. split; [reflexivity|].
      cbn [map snd]. now rewrite Hxs.
    + destruct (He eq_refl) as (d & Ed & Hd).
      cbn [info_item]. rewrite Ed. eexists. split; [reflexivity|].
      cbn [map snd]. now rewrite Hxs, Hd.
    + destruct (He eq_refl) as (d & Ed & Hd).
      cbn [info_item]. rewrite Ed. eexists. split; [reflexivity|].
      cbn [map snd]. now rewrite Hxs, Hd.
Qed.

Lemma info_list_single (rec : node -> option (attr_dict A))
  (frec : node -> A) (name : str) (elems : list node) :
  Forall (fun e => is_object e = true ->
                   exists d, rec e = Some d /\ total d = [(a, frec e)])
    elems ->
  exists l,
    info_list [(a, attr)] rec name elems = Some l
    /\ total l
       = [(a, aggregator attr (lit "list")
                (elem_values attr frec name 0 elems))].
Proof.
  intros H. destruct (info_items_single rec frec name elems H 0) as (xs & E & Hxs).
  unfold info_list. rewrite E. eexists. split; [reflexivity|].
  cbn [total map fst snd]. now rewrite Hxs, collect_single.
Qed.

Lemma fields_info_single (T : ProtoObject) :
  Forall (fun kv =>
            Forall (fun e => is_object e = true ->
                             exists d,
                               make_proto_info [(a, attr)] e = Some d
                               /\ total d = [(a, fold_info attr e)])
              (snd kv)) T ->
  exists lists,
    all_some
      (map (fun kv =>
              (fst kv,
               info_list [(a, attr)] (make_proto_info [(a, attr)])
                 (fst kv) (snd kv))) T)
    = Some lists
    /\ map (fun nl => total (snd nl)) lists
       = map (fun kv =>
                [(a, aggregator attr (lit "list")
                       (elem_values attr (fold_info attr) (fst kv) 0
                          (snd kv)))]) T.
Proof.
  induction 1 as [|[k elems] T Hk _ (lists & E & Hl)].
  - exists []. split; reflexivity.
  - cbn [snd] in Hk.
    destruct (info_list_single (make_proto_info [(a, attr)])
                (fold_info attr) k elems Hk) as (l & El & Hll).
    cbn [map fst snd all_some]. rewrite El, E.
    eexists. split; [reflexivity|].
    cbn [map snd]. now rewrite Hll, Hl.
Qed.

(** Without lists, the total of the only attribute is the aggregate over
    the fields of the aggregates over their elements. *)
Lemma make_proto_info_single (x : node) :
  no_arrays x = true -> is_object x = true ->
  exists info,
    make_proto_info [(a, attr)] x = Some info
    /\ total info = [(a, fold_info attr x)].
Proof.
  induction x as [s|fields IH|items IH] using node_induction;
    intros Hna Hobj; try discriminate.
  assert (H : Forall (fun kv =>
                Forall (fun e => is_object e = true ->
                                 exists d,
                                   make_proto_info [(a, attr)] e = Some d
                                   /\ total d = [(a, fold_info attr e)])
                  (snd kv)) fields).
  { apply Forall_forall. intros kv Hin. apply Forall_forall. intros e He.
    rewrite Forall_forall in IH. specialize (IH kv Hin).
    rewrite Forall_forall in IH. apply (IH e He).
    cbn [no_arrays] in Hna. rewrite forallb_forall in Hna.
    specialize (Hna kv Hin). rewrite forallb_forall in Hna.
    exact (Hna e He). }
  destruct (fields_info_single fields H) as (lists & E & Hl).
  cbn [make_proto_info]. rewrite E. eexists. split; [reflexivity|].
  unfold info_dict. cbn [total map fst snd fold_info].
  rewrite Hl.
  rewrite <- (map_map
                (fun kv =>
                   aggregator attr (lit "list")
                     (elem_values attr (fold_info attr) (fst kv) 0 (snd kv)))
                (fun v => [(a, v)])).
  now rewrite collect_single.
Qed.

End OneAttributeFacts.

(** ** Depth *)

Lemma depth_fold_max (name : str) (step : nat -> nat) (vs : list nat) :
  (forall depth val,
      depth_step name depth val = Nat.max depth (step val)) ->
  forall d, fold_left (depth_step name) vs d
            = Nat.max d (list_max (map step vs)).
Proof.
  intros Hstep. induction vs as [|v vs IH]; intros d.
  - cbn. lia.
  - cbn [fold_left map list_max fold_right]. rewrite IH, Hstep.
    change (fold_right Nat.max 0 (map step vs))
      with (list_max (map step vs)).
    lia.
Qed.

Lemma depth_step_list (depth val : nat) :
  depth_step (lit "list") depth val = Nat.max depth val.
Proof.
  unfold depth_step. cbn [eqs lit]. change (eqs _ _) with false.
  cbv iota. destruct (depth <? val) eqn:H;
    [apply Nat.ltb_lt in H | apply Nat.ltb_ge in H]; lia.
Qed.

Lemma depth_step_map (depth val : nat) :
  depth_step (lit "map") depth val = Nat.max depth (S val).
Proof.
  unfold depth_step. change (eqs (lit "map") (lit "map")) with true.
  cbv iota. rewrite Nat.add_1_r. destruct (depth <? S val) eqn:H;
    [apply Nat.ltb_lt in H | apply Nat.ltb_ge in H]; lia.
Qed.

Lemma depth_elem_values (rec : node -> nat) (name : str)
  (elems : list node) :
  Forall (fun e => rec e = levels e) elems ->
  forall ii, elem_values depth_attribute rec name ii elems = map levels elems.
Proof.
  induction 1 as [|e elems He _ IH]; intros ii; [reflexivity|].
  cbn [elem_values map]. rewrite IH. f_equal.
  destruct e; [reflexivity | exact He | exact He].
Qed.

Lemma depth_fold_info (x : node) : fold_info depth_attribute x = levels x.
Proof.
  induction x as [s|fields IH|items IH] using node_induction;
    try reflexivity.
  cbn [fold_info levels]. rewrite depth_aggregator_fold.
  rewrite (depth_fold_max (lit "map") S _ depth_step_map). cbn [Nat.max].
  rewrite map_map. f_equal.
  induction IH as [|[k elems] fields Hk _ IHf]; [reflexivity|].
  cbn [map fst snd]. rewrite IHf. f_equal. cbn [snd] in Hk.
  rewrite depth_aggregator_fold.
  rewrite (depth_fold_max (lit "list") (fun v => v) _ depth_step_list).
  cbn [Nat.max]. rewrite map_id.
  now rewrite (depth_elem_values (fold_info depth_attribute) k elems Hk 0).
Qed.

(** X18: for a tree without lists, the root depth total of
    [get_depth_info] is the number of field levels on the longest path of
    the tree: 0 for the empty object, and otherwise one more than the
    largest depth total among the object-valued elements of the fields
    (a string element counting 0). *)
Theorem depth_total_is_number_of_levels :
  forall T : ProtoObject,
    no_arrays (Object T) = true ->
    depth_total T = Some (levels (Object T)).
Proof.
  intros T Hna. unfold depth_total, get_depth_info.
  destruct (make_proto_info_single nat (lit "depth") depth_attribute
              (Object T) Hna eq_refl) as (info & E & Ht).
  rewrite E, Ht. cbn [obj_get]. rewrite eqs_refl.
  now rewrite depth_fold_info.
Qed.

Lemma depth_total_is_number_of_levels_witness :
  depth_total tree_nested = Some (levels (Object tree_nested)).
Proof.
  apply (depth_total_is_number_of_levels tree_nested). reflexivity.
Defined.

(** ** Expand *)

Lemma existsb_map {X Y} (f : X -> Y) (p : Y -> bool) (l : list X) :
  existsb p (map f l) = existsb (fun x => p (f x)) l.
Proof.
  induction l as [|x l IH]; [reflexivity|]. cbn [map existsb].
  now rewrite IH.
Qed.

Lemma existsb_same {X} (p q : X -> bool) (l : list X) :
  Forall (fun x => p x = q x) l -> existsb p l = existsb q l.
Proof.
  induction 1 as [|x l Hx _ IH]; [reflexivity|]. cbn [existsb].
  now rewrite Hx, IH.
Qed.

Lemma expand_elem_values (pattern : str) (rec : node -> bool) (name : str)
  (elems : list node) :
  forall ii,
    existsb (fun info => info)
      (elem_values (expand_attribute pattern) rec name ii elems)
    = existsb (fun e => match e with
                        | Scalar s => eqs name pattern || eqs s pattern
                        | _ => rec e
                        end) elems.
Proof.
  induction elems as [|e elems IH]; intros ii; [reflexivity|].
  cbn [elem_values existsb]. rewrite IH. f_equal.
Qed.

Lemma expand_aggregator (pattern name : str) (infos : list bool) :
  aggregator (expand_attribute pattern) name infos
  = existsb (fun info => info) infos || eqs name pattern.
Proof.
  cbn [aggregator expand_attribute].
  destruct (existsb (fun info => info) infos); reflexivity.
Qed.

Lemma expand_fold_info (pattern : str) (x : node) :
  eqs (lit "map") pattern = false -> eqs (lit "list") pattern = false ->
  fold_info (expand_attribute pattern) x = leaf_matches pattern x.
Proof.
  intros Hmap Hlist.
  induction x as [s|fields IH|items IH] using node_induction;
    try (cbn [fold_info leaf_matches]; rewrite expand_aggregator, Hmap;
         reflexivity).
  cbn [fold_info leaf_matches]. rewrite expand_aggregator, Hmap, orb_false_r.
  rewrite existsb_map. apply existsb_same.
  apply Forall_forall. intros kv Hin.
  rewrite expand_aggregator, Hlist, orb_false_r, expand_elem_values.
  apply existsb_same. rewrite Forall_forall in IH. specialize (IH kv Hin).
  apply Forall_forall. intros e He. rewrite Forall_forall in IH.
  destruct e; [reflexivity | exact (IH _ He) | exact (IH _ He)].
Qed.

(** X19: for a tree without lists and a pattern other than the two
    context names [list] and [map] of the aggregator, the root expand
    total of [get_expand_info] tells whether some string element, reached
    through fields and their object-valued elements, equals the pattern
    or stands in a field whose name equals the pattern.  With the pattern
    [map] the total is true for every tree, and with the pattern [list]
    it is true exactly when the tree has a field. *)
Theorem expand_total_finds_matching_leaves :
  forall (T : ProtoObject) (pattern : str),
    no_arrays (Object T) = true ->
    expand_total T pattern
    = Some (if eqs (lit "map") pattern then true
            else if eqs (lit "list") pattern then nonempty T
                 else leaf_matches pattern (Object T)).
Proof.
  intros T pattern Hna. unfold expand_total, get_expand_info.
  destruct (make_proto_info_single bool (lit "expand") (expand_attribute pattern)
              (Object T) Hna eq_refl) as (info & E & Ht).
  rewrite E, Ht. cbn [obj_get]. rewrite eqs_refl. f_equal.
  destruct (eqs (lit "map") pattern) eqn:Hmap.
  - cbn [fold_info]. rewrite expand_aggregator, Hmap. apply orb_true_r.
  - destruct (eqs (lit "list") pattern) eqn:Hlist.
    + cbn [fold_info]. rewrite expand_aggregator, Hmap, orb_false_r.
      rewrite existsb_map. destruct T as [|kv T]; [reflexivity|].
      cbn [existsb nonempty]. rewrite expand_aggregator, Hlist.
      now rewrite orb_true_r.
    + exact (expand_fold_info pattern (Object T) Hmap Hlist).
Qed.

Lemma expand_total_finds_matching_leaves_witness :
  expand_total tree_nested (lit "x")
  = Some (if eqs (lit "map") (lit "x") then true
          else if eqs (lit "list") (lit "x") then nonempty tree_nested
               else leaf_matches (lit "x") (Object tree_nested)).
Proof.
  apply (expand_total_finds_matching_leaves tree_nested (lit "x")).
  reflexivity.
Defined.
(* ------------------------------------------------------------------ *)
(** * Renaming and splicing fields *)

Section ConvertFold.
Variable rec : option paths -> node -> option (outcome node).
Variable entries : obj (option str * paths).

Let step (retval : option (outcome ProtoObject)) (kv : str * list node)
  : option (outcome ProtoObject) :=
  match retval with
  | Some (Returns retval) =>
      match obj_get (fst kv) entries with
      | Some (Some name, sub) =>
          match convert_list_with (rec (Some sub)) (snd kv) with
          | Some (Returns l) => Some (Returns (obj_set name l retval))
          | Some TypeError => Some TypeError
          | None => None
          end
      | Some (None, sub) =>
          match convert_list_with (rec (Some sub)) (snd kv) with
          | Some (Returns newlist) => Some (Returns (splice newlist retval))
          | Some TypeError => Some TypeError
          | None => None
          end
      | None =>
          if inherited (fst kv) then
            match convert_list_with (rec None) (snd kv) with
            | Some (Returns l) =>
                Some (Returns (obj_set (lit "undefined") l retval))
            | Some TypeError => Some TypeError
            | None => None
            end
          else Some (Returns (obj_set (fst kv) (snd kv) retval))
      end
  | stopped => stopped
  end.



End ConvertFold.

Lemma convert_list_same_from (rec : node -> option (outcome node))
  (elems : list node) :
  Forall (fun e => match e with
                   | Scalar _ => True
                   | Object _ => rec e = Some (Returns e)
                   | Arr _ => False
                   end) elems ->
  forall l,
    fold_left
      (fun retval e =>
         match retval with
         | Some (Returns l) =>
             if is_object e then
               match rec e with
               | Some (Returns c) => Some (Returns (l ++ [c]))
               | Some TypeError => Some TypeError
               | None => None
               end
             else Some (Returns (l ++ [e]))
         | stopped => stopped
         end)
      elems (Some (Returns l))
    = Some (Returns (l ++ elems)).
Proof.
  induction 1 as [|e elems He _ IH]; intros l.
  - cbn [fold_left]. now rewrite app_nil_r.
  - cbn [fold_left]. destruct e as [s|fields|items]; [| |contradiction];
      cbn [is_object].
    + rewrite IH, <- app_assoc. reflexivity.
    + rewrite He, IH, <- app_assoc. reflexivity.
Qed.

Lemma convert_list_same (rec : node -> option (outcome node))
  (elems : list node) :
  Forall (fun e => match e with
                   | Scalar _ => True
                   | Object _ => rec e = Some (Returns e)
                   | Arr _ => False
                   end) elems ->
  convert_list_with rec elems = Some (Returns elems).
Proof.
  intros H. exact (convert_list_same_from rec elems H []).
Qed.




Lemma splice_strings (elems : list node) (retval : ProtoObject) :
  forallb (fun e => negb (is_object e)) elems = true ->
  splice elems retval = retval.
Proof.
  unfold splice. revert retval.
  induction elems as [|e elems IH]; intros retval H; [reflexivity|].
  cbn [forallb] in H. apply andb_true_iff in H as [He H].
  cbn [fold_left]. destruct e; try discriminate. exact (IH retval H).
Qed.

(** A list of strings is converted to itself. *)
Lemma convert_list_strings (rec : node -> option (outcome node))
  (elems : list node) :
  forallb (fun e => negb (is_object e)) elems = true ->
  convert_list_with rec elems = Some (Returns elems).
Proof.
  intros Hstr. apply convert_list_same.
  apply Forall_forall. intros e He. rewrite forallb_forall in Hstr.
  specialize (Hstr e He). destruct e; [exact I | discriminate ..].
Qed.

(** X21: a field whose path entry has [null] as new name and whose
    elements are all strings leaves no trace: [convert] returns what it
    returns for the tree without that field. *)
Theorem convert_drops_strings_under_null :
  forall (T1 T2 : ProtoObject) (key : str) (elems : list node)
         (entries : obj (option str * paths)) (sub : paths),
    obj_get key entries = Some (None, sub) ->
    forallb (fun e => negb (is_object e)) elems = true ->
    convert (T1 ++ (key, elems) :: T2) (Paths entries)
    = convert (T1 ++ T2) (Paths entries).
Proof.
  intros T1 T2 key elems entries sub Hget Hstr.
  unfold convert, convert_fields.
  rewrite !fold_left_app. cbn [fold_left fst snd]. rewrite Hget.
  f_equal.
  match goal with
  | |- _ = fold_left ?F T1 ?a =>
      destruct (fold_left F T1 a) as [[retval|]|]
  end; try reflexivity.
  rewrite (convert_list_strings _ elems Hstr).
  now rewrite splice_strings.
Qed.

Lemma convert_drops_strings_under_null_witness :
  convert ([(lit "intent", [Object [(lit "id", [Scalar (lit "7")])]]);
            (lit "note", [Scalar (lit "n")])]
           ++ (lit "advance", [Scalar (lit "true")]) :: [])
    (discourse_intent_paths)
  = convert ([(lit "intent", [Object [(lit "id", [Scalar (lit "7")])]]);
              (lit "note", [Scalar (lit "n")])] ++ [])
      (discourse_intent_paths).
Proof.
  apply (convert_drops_strings_under_null
           [(lit "intent", [Object [(lit "id", [Scalar (lit "7")])]]);
            (lit "note", [Scalar (lit "n")])]
           [] (lit "advance") [Scalar (lit "true")] _ (Paths []));
    reflexivity.
Defined.
(* ------------------------------------------------------------------ *)
(** * The serializer in flat mode *)

Lemma format_fields_flat (rec rec' : node -> str) (i j : str)
  (proto : ProtoObject) :
  Forall (fun kv => Forall (fun e => rec e = rec' e) (snd kv)) proto ->
  format_fields rec true i proto = format_fields rec' true j proto.
Proof.
  induction 1 as [|[k elems] proto Hk _ IH]; [reflexivity|].
  cbn [format_fields]. rewrite IH. f_equal. cbn [snd] in Hk.
  induction Hk as [|e elems He _ IHe]; [reflexivity|].
  cbn [format_seq]. rewrite IHe. do 2 f_equal.
  destruct e; cbn [format_elem]; [reflexivity | now rewrite He | reflexivity].
Qed.

Lemma format_node_flat (x : node) :
  forall i j, format_node true x i = format_node true x j.
Proof.
  induction x as [s|fields IH|items IH] using node_induction;
    intros i j; try reflexivity.
  cbn [format_node]. apply format_fields_flat.
  apply Forall_forall. intros kv Hin. apply Forall_forall. intros e He.
  rewrite Forall_forall in IH. specialize (IH kv Hin).
  rewrite Forall_forall in IH. exact (IH e He _ _).
Qed.

(** X22: in flat mode [format] does not use its [indent] argument: the
    text it returns is the same for every indent. *)
Theorem format_flat_ignores_indent :
  forall (T : ProtoObject) (indent : str),
    format T true (Some indent) = format T true None.
Proof.
  intros T indent. unfold format. apply format_fields_flat.
  apply Forall_forall. intros kv _. apply Forall_forall. intros e _.
  apply format_node_flat.
Qed.

Lemma no_break_app (a b : str) :
  existsb (N.eqb 10) (a ++ b)
  = existsb (N.eqb 10) a || existsb (N.eqb 10) b.
Proof. apply existsb_app. Qed.

Lemma to_string_one_line (x : node) :
  mentions 10 x = false -> existsb (N.eqb 10) (to_string x) = false.
Proof.
  induction x as [s|fields IH|items IH] using node_induction;
    cbn [mentions to_string]; intros H; [exact H | reflexivity |].
  induction IH as [|e items He _ IHe]; [reflexivity|].
  cbn [existsb] in H. apply orb_false_iff in H as [H1 H2].
  rewrite no_break_app, (He H1). cbn [orb].
  destruct items as [|e' items]; [reflexivity|].
  rewrite no_break_app. cbn [lit existsb orb]. exact (IHe H2).
Qed.

Lemma format_items_one_line (items : list node) :
  existsb (mentions 10) items = false ->
  existsb (N.eqb 10) (format_items items) = false.
Proof.
  induction items as [|x items IH]; [reflexivity|].
  cbn [existsb format_items]. intros H.
  apply orb_false_iff in H as [H1 H2].
  rewrite !no_break_app, (to_string_one_line x H1), (IH H2).
  destruct items; reflexivity.
Qed.

Lemma format_node_one_line (x : node) :
  mentions 10 x = false ->
  forall indent, existsb (N.eqb 10) (format_node true x indent) = false.
Proof.
  induction x as [s|fields IH|items IH] using node_induction;
    intros H indent; try reflexivity.
  cbn [format_node mentions] in *.
  induction IH as [|[k elems] fields Hk _ IHf]; [reflexivity|].
  cbn [existsb fst snd] in H. apply orb_false_iff in H as [H Hrest].
  apply orb_false_iff in H as [Hname Hel].
  cbn [format_fields]. rewrite !no_break_app, (IHf Hrest).
  cbn [lit existsb orb]. rewrite !orb_false_r.
  cbn [snd] in Hk. clear IHf Hrest.
  induction Hk as [|e elems He _ IHe]; [reflexivity|].
  cbn [existsb] in Hel. apply orb_false_iff in Hel as [H1 H2].
  cbn [format_seq]. rewrite !no_break_app, Hname, (IHe H2).
  cbn [existsb orb]. rewrite orb_false_r.
  assert (Hsep : existsb (N.eqb 10)
                   match elems with [] => [] | _ :: _ => lit " " end = false)
    by (destruct elems; reflexivity).
  rewrite Hsep, orb_false_r.
  destruct e as [s|U|items]; cbn [format_elem].
  - rewrite no_break_app. cbn [mentions] in H1. now rewrite H1.
  - rewrite !no_break_app, (He H1). reflexivity.
  - rewrite !no_break_app. cbn [mentions] in H1.
    now rewrite (format_items_one_line items H1).
Qed.

(** X23: when no field name and no string of the tree holds a line break,
    the text that [format] returns in flat mode holds none: the flat text
    is a single line. *)
Theorem format_flat_is_one_line :
  forall (T : ProtoObject) (indent : option str),
    mentions 10 (Object T) = false ->
    existsb (N.eqb 10) (format T true indent) = false.
Proof.
  intros T indent H.
  exact (format_node_one_line (Object T) H
           match indent with Some i => i | None => [] end).
Qed.

Lemma format_flat_is_one_line_witness :
  existsb (N.eqb 10) (format tree_mixed true None) = false.
Proof.
  apply (format_flat_is_one_line tree_mixed None). reflexivity.
Defined.
(* ------------------------------------------------------------------ *)
(** * The parser copies the text *)

Lemma firstn_own_length {T} (n : nat) (l : list T) :
  firstn (length (firstn n l)) l = firstn n l.
Proof.
  rewrite length_firstn. destruct (Nat.le_ge_cases n (length l)) as [H | H].
  - now rewrite Nat.min_l.
  - rewrite Nat.min_r by exact H. now rewrite !firstn_all2.
Qed.

Lemma piece_at (text : str) (ii n : nat) :
  piece_of text (firstn n (skipn ii text)) = true.
Proof.
  unfold piece_of. apply existsb_exists.
  destruct (Nat.le_gt_cases ii (length text)) as [H | H].
  - exists ii. split; [apply in_seq; lia|].
    rewrite firstn_own_length. apply eqs_refl.
  - exists 0. split; [apply in_seq; lia|].
    rewrite (skipn_all2 text) by lia. now rewrite firstn_nil.
Qed.

Lemma parse_string_piece (text : str) (ii : nat) :
  piece_of text (value (parse_string text ii)) = true.
Proof.
  unfold parse_string.
  destruct (negb (eqs (charAt text ii) squote)
            && negb (eqs (charAt text ii) dquote)) eqn:Hq;
    [exact (piece_at text 0 0)|].
  destruct (charAt_quote text ii Hq) as (q & _ & Hnth).
  assert (Hat : charAt text ii = [q]) by (unfold charAt; now rewrite Hnth).
  rewrite Hat. replace (ii + 1) with (S ii) by lia.
  destruct (string_loop [q] (skipn (S ii) text) (S ii) false [q])
    as [v jj] eqn:E.
  assert (Hv : exists n, v = firstn n (skipn ii text)).
  { rewrite (skipn_nth_cons text ii q Hnth).
    destruct (string_loop_spec q _ _ _ _ _ _ E)
      as [[_ ->] | (k & _ & _ & ->)].
    - exists (S (length (skipn (S ii) text))). cbn [firstn app].
      now rewrite firstn_all.
    - exists (S (S k)). reflexivity. }
  destruct Hv as (n & ->).
  destruct (length text <=? jj); [apply piece_at|].
  destruct (eqs (charAt text jj) [q]); apply piece_at.
Qed.

Lemma parse_token_piece (text : str) (ii : nat) (b : bool) :
  piece_of text (value (parse_token text ii b)) = true.
Proof.
  unfold parse_token. cbn [is_defined negb].
  destruct (eqs (charAt text ii) dquote || eqs (charAt text ii) squote).
  - apply parse_string_piece.
  - cbn [value consume_regexp]. rewrite substr_firstn. apply piece_at.
Qed.

Lemma copied_push (text key : str) (v : node) (o : ProtoObject) :
  copied_from text (Object o) = true -> piece_of text key = true ->
  copied_from text v = true ->
  copied_from text (Object (own_push key v o)) = true.
Proof.
  cbn [copied_from]. intros Ho Hk Hv. unfold own_push.
  destruct (obj_has key o) eqn:Hh; cbn [negb].
  - apply forallb_update; [exact Ho|].
    intros l. cbn [fst snd]. intros H.
    apply andb_true_iff in H as [Hn Hl].
    rewrite Hn, forallb_app, Hl. cbn [forallb]. now rewrite Hv.
  - rewrite (update_set key (fun l => l ++ [v]) [] o Hh).
    rewrite (forallb_set _ key _ o Hh), Ho.
    cbn [fst snd app forallb]. now rewrite Hk, Hv.
Qed.

Lemma copied_at_all (text : str) (ff : option (str -> bool)) :
  forall fuel, copied_at text ff fuel.
Proof.
  induction fuel as [|fuel (IHv & IHp & IHb & IHbl & IHl & IHll)];
    [repeat split; intros; discriminate|].
  repeat split.
  - intros ii r. rewrite parse_value_S.
    destruct (eqs (charAt text ii) (lit "{")); [apply IHp|].
    destruct (eqs (charAt text ii) (lit "[")); [apply IHl|].
    cbv zeta. intros E. injection E as <-. cbn [value copied_from].
    apply parse_token_piece.
  - intros ii r. rewrite parse_proto_S. cbv zeta.
    destruct (parse_body fuel text _ ff) as [[res|]|] eqn:Eb;
      try discriminate.
    specialize (IHb _ _ Eb).
    destruct (error res); [intros E; injection E as <-; exact IHb|].
    destruct (eqs (charAt text (consume_comments text ii)) (lit "{"));
      intros E; injection E as <-; exact IHb.
  - intros ii r. rewrite parse_body_S. intros E.
    exact (IHbl _ _ _ E eq_refl).
  - intros ii fields r. rewrite parse_body_loop_S.
    destruct ((ii <? length text) && negb (eqs (charAt text ii) (lit "}")));
      [|intros E Hf; injection E as <-; exact Hf].
    cbv zeta.
    pose proof (parse_token_piece text (consume_comments text ii) true)
      as Hname.
    set (name := parse_token text (consume_comments text ii) true) in *.
    destruct (error name); [intros E Hf; injection E as <-; exact Hf|].
    destruct (parse_value fuel text _ ff) as [[val|]|] eqn:Ev;
      try discriminate.
    destruct (keeps ff _ && negb (obj_has _ fields) && inherited _);
      [discriminate|].
    specialize (IHv _ _ Ev).
    intros E Hf.
    assert (Hf' :
              copied_from text
                (Object (if keeps ff (value name)
                         then own_push (value name) (value val) fields
                         else fields)) = true).
    { destruct (keeps ff _); [|exact Hf].
      apply copied_push; assumption. }
    destruct (error val); [injection E as <-; exact Hf'|].
    destruct (_ =? ii); [injection E as <-; exact Hf'|].
    exact (IHbl _ _ _ E Hf').
  - intros ii r. rewrite parse_list_S. intros E.
    exact (IHll _ _ _ E eq_refl).
  - intros ii items r. rewrite parse_list_loop_S.
    destruct ((ii <? length text) && negb (eqs (charAt text ii) (lit "]")));
      [|intros E Hi; injection E as <-; rewrite parse_list_end_value;
        exact Hi].
    cbv zeta.
    destruct (parse_value fuel text ii ff) as [[item|]|] eqn:Ev;
      try discriminate.
    specialize (IHv _ _ Ev).
    destruct (error item); [intros E Hi; injection E as <-; exact Hi|].
    assert (Hi' : forallb (copied_from text) items = true ->
                  forallb (copied_from text) (items ++ [value item]) = true).
    { intros Hi. rewrite forallb_app, Hi. cbn [forallb]. now rewrite IHv. }
    destruct (ii =? _).
    + intros E Hi. injection E as <-. rewrite parse_list_end_value.
      exact (Hi' Hi).
    + intros E Hi. exact (IHll _ _ _ E (Hi' Hi)).
Qed.

(** X24: the parser only copies: every field name and every string of
    the value that [parse_proto] returns, with or without error, is a
    contiguous piece of the input text, taken as it stands (the quotes
    and the backslashes of a quoted string included). *)
Theorem parser_copies_the_text :
  forall (text : str) (ii : nat) (filter_func : option (str -> bool))
         (res : result node),
    parse_proto (fuel_for text) text ii filter_func = Some (Returns res) ->
    copied_from text (value res) = true.
Proof.
  intros text ii ff res E.
  destruct (copied_at_all text ff (fuel_for text)) as (_ & Hp & _).
  exact (Hp _ _ E).
Qed.

Lemma parser_copies_the_text_witness :
  copied_from text_mixed (Object tree_mixed) = true.
Proof.
  apply (parser_copies_the_text text_mixed 0 None
           {| value := Object tree_mixed; position := 29; error := None |}).
  vm_compute. reflexivity.
Defined.
(** ** Every call ends *)

Lemma inherited_piece (text key : str) :
  inherited key = true -> piece_of text key = true ->
  holds_inherited text = true.
Proof.
  unfold inherited, holds_inherited. intros Hi Hp.
  apply existsb_exists in Hi as (name & Hin & Heq).
  apply eqs_true in Heq. subst name.
  apply existsb_exists. exists key. split; assumption.
Qed.

Lemma thrown_at_all (text : str) (ff : option (str -> bool)) :
  forall fuel, thrown_at text ff fuel.
Proof.
  induction fuel as [|fuel (IHv & IHp & IHb & IHbl & IHl & IHll)];
    [repeat split; intros; discriminate|].
  repeat split.
  - intros ii. rewrite parse_value_S.
    destruct (eqs (charAt text ii) (lit "{")); [apply IHp|].
    destruct (eqs (charAt text ii) (lit "[")); [apply IHl|].
    discriminate.
  - intros ii. rewrite parse_proto_S. cbv zeta.
    destruct (parse_body fuel text _ ff) as [[res|]|] eqn:Eb;
      [|intros _; exact (IHb _ Eb)|discriminate].
    destruct (error res); [discriminate|].
    destruct (eqs (charAt text (consume_comments text ii)) (lit "{"));
      discriminate.
  - intros ii. rewrite parse_body_S. apply IHbl.
  - intros ii fields. rewrite parse_body_loop_S.
    destruct ((ii <? length text) && negb (eqs (charAt text ii) (lit "}")));
      [|discriminate].
    cbv zeta.
    pose proof (parse_token_piece text (consume_comments text ii) true)
      as Hname.
    set (name := parse_token text (consume_comments text ii) true) in *.
    destruct (error name); [discriminate|].
    destruct (parse_value fuel text _ ff) as [[val|]|] eqn:Ev;
      [|intros _; exact (IHv _ Ev)|discriminate].
    destruct (keeps ff (value name) && negb (obj_has (value name) fields)
              && inherited (value name)) eqn:Ethrow.
    + intros _. apply andb_true_iff in Ethrow as [_ Hi].
      exact (inherited_piece text (value name) Hi Hname).
    + destruct (error val); [discriminate|].
      destruct (_ =? ii); [discriminate|]. apply IHbl.
  - intros ii. rewrite parse_list_S. apply IHll.
  - intros ii items. rewrite parse_list_loop_S.
    destruct ((ii <? length text) && negb (eqs (charAt text ii) (lit "]")));
      [|discriminate].
    cbv zeta.
    destruct (parse_value fuel text ii ff) as [[item|]|] eqn:Ev;
      [|intros _; exact (IHv _ Ev)|discriminate].
    destruct (error item); [discriminate|].
    destruct (ii =? _); [discriminate|]. apply IHll.
Qed.

(** X1: every call of [parse_proto], [parse_body], [parse_value] and
    [parse_list] ends, on every text, from every position and with every
    filter: the loops of the parser end, since every round moves the
    cursor forward or stops.  The call returns at a position that is not
    before the start and not past the end of the text (the start itself
    when the start is already past the end), or it throws the TypeError
    of a push, and this only when the text holds one of the names that
    objects inherit; on every other text the call returns. *)
Theorem parser_ends_inside_text :
  forall (text : str) (ii : nat) (filter_func : option (str -> bool)),
    ends_inside text ii (parse_proto (fuel_for text) text ii filter_func)
    /\ ends_inside text ii (parse_body (fuel_for text) text ii filter_func)
    /\ ends_inside text ii (parse_value (fuel_for text) text ii filter_func)
    /\ ends_inside text ii (parse_list (fuel_for text) text ii filter_func).
Proof.
  intros text ii ff.
  destruct (total_at_all text ff (fuel_for text))
    as (Hv & Hp & Hb & _ & Hl & _).
  destruct (bounded_at_all text ff (fuel_for text))
    as (Bv & Bp & Bb & _ & Bl & _).
  destruct (thrown_at_all text ff (fuel_for text))
    as (Tv & Tp & Tb & _ & Tl & _).
  unfold fuel_for, within, ends_inside in *.
  repeat split.
  - destruct (Hp ii) as ([res|] & E & Hge); [right; lia| |];
      rewrite E; [split; [exact Hge | exact (Bp _ _ E)] | exact (Tp _ E)].
  - destruct (Hb ii) as ([res|] & E & Hge); [lia| |];
      rewrite E; [split; [exact Hge | exact (Bb _ _ E)] | exact (Tb _ E)].
  - destruct (Hv ii) as ([res|] & E & Hge); [lia| |];
      rewrite E; [split; [exact Hge | exact (Bv _ _ E)] | exact (Tv _ E)].
  - destruct (Hl ii) as ([res|] & E & Hge); [right; lia| |];
      rewrite E; [split; [exact Hge | exact (Bl _ _ E)] | exact (Tl _ E)].
Qed.
(* ------------------------------------------------------------------ *)
(** * Flat texts are read back *)

Lemma format_elem_flat (rec : node -> str) (indent : str) (e : node) :
  rec e = format_node true e [] ->
  format_elem rec true indent e = separator e ++ flat_val e.
Proof.
  intros Hrec. destruct e as [s|U|items]; cbn [format_elem separator flat_val].
  - reflexivity.
  - rewrite Hrec. reflexivity.
  - reflexivity.
Qed.

Lemma flat_items_cons (ke : str * node) (items : list (str * node)) :
  flat_items (ke :: items) = flat_item ke ++ flat_items items.
Proof. reflexivity. Qed.

Lemma format_seq_flat (rec : node -> str) (indent key : str)
  (elems : list node) :
  (forall e, rec e = format_node true e []) ->
  nonempty elems = true ->
  format_seq rec true indent key elems ++ lit " "
  = flat_items (map (pair key) elems).
Proof.
  intros Hrec. induction elems as [|e elems IH]; [discriminate|]. intros _.
  cbn [format_seq map]. rewrite flat_items_cons.
  unfold flat_item. cbn [fst snd app].
  rewrite (format_elem_flat rec indent e (Hrec e)), <- !app_assoc.
  do 3 f_equal. destruct elems as [|e' elems].
  - reflexivity.
  - rewrite <- (IH eq_refl). reflexivity.
Qed.

Lemma flat_items_app (a b : list (str * node)) :
  flat_items (a ++ b) = flat_items a ++ flat_items b.
Proof. unfold flat_items. now rewrite map_app, concat_app. Qed.

Lemma format_fields_flat_items (rec : node -> str) (indent : str)
  (T : ProtoObject) :
  (forall e, rec e = format_node true e []) ->
  forallb (fun kv => nonempty (snd kv)) T = true ->
  format_fields rec true indent T = flat_items (flatten T).
Proof.
  intros Hrec. induction T as [|[k elems] T IH]; [reflexivity|].
  cbn [forallb snd]. intros H. apply andb_true_iff in H as [Hne H].
  cbn [format_fields]. unfold flatten. cbn [flat_map fst snd].
  fold (flatten T). rewrite flat_items_app, <- (IH H), app_assoc.
  now rewrite (format_seq_flat rec indent k elems Hrec Hne).
Qed.

(** ** One round of the body loop on a flat text *)

Lemma flat_val_head (e : node) :
  printable e = true ->
  exists c rest, flat_val e = c :: rest /\ stop_char c = true
                 /\ (is_sub_proto e = true -> c = 123%N).
Proof.
  destruct e as [s|fields|items]; intros H.
  - cbn [printable] in H. apply andb_true_iff in H as [Hl Hn].
    destruct (lexeme_head_facts false s Hl Hn) as (c & s' & -> & Hs & _).
    exists c, s'. repeat split; [assumption | discriminate].
  - eexists. eexists. split; [reflexivity|]. split; reflexivity.
  - eexists. eexists. split; [reflexivity|]. split; [reflexivity|].
    discriminate.
Qed.

(** The name and the separator of a flat item. *)
Lemma read_flat_name (text key rest : str) (e : node) (i1 : nat) :
  lexeme name_re key = true -> nonempty key = true -> printable e = true ->
  skipn i1 text = key ++ separator e ++ flat_val e ++ rest ->
  exists p,
    parse_token text i1 true
    = {| value := key; position := p; error := None |}
    /\ (let i3 := consume_comments text p in
        let i4 := if eqs (charAt text i3) (lit ":") then S i3 else i3 in
        consume_comments text i4) = i1 + length key + length (separator e)
    /\ skipn (i1 + length key + length (separator e)) text
       = flat_val e ++ rest.
Proof.
  intros Hl Hn He H.
  destruct (flat_val_head e He) as (c & vrest & Ev & Hc & Hobj).
  pose proof (skipn_app_at _ _ _ _ H) as H1.
  pose proof (skipn_app_at _ _ _ _ H1) as H2.
  assert (Hv : starts stop_char (flat_val e ++ rest) = true)
    by (rewrite Ev; exact Hc).
  change (lit ":") with [58%N].
  destruct (is_sub_proto e) eqn:Esub.
  - assert (Es : separator e = [32%N])
      by (destruct e; try discriminate; reflexivity).
    rewrite Es in *.
    destruct (parse_token_lexeme text key [32%N] (flat_val e ++ rest)
                i1 true Hl Hn H eq_refl Hv eq_refl) as (p & Et & Hp & Hcc).
    exists p. split; [exact Et|]. split; [|exact H2]. cbv zeta.
    rewrite Hcc. rewrite Ev, (Hobj eq_refl) in H2.
    rewrite (charAt_not _ _ _ _ _ H2) by discriminate.
    apply (consume_comments_here _ _ _ H2). reflexivity.
  - assert (Es : separator e = [58%N; 32%N])
      by (destruct e; try discriminate; reflexivity).
    rewrite Es in *.
    assert (Hr : starts stop_char
                   ([58%N; 32%N] ++ flat_val e ++ rest) = true)
      by reflexivity.
    destruct (parse_token_lexeme text key []
                ([58%N; 32%N] ++ flat_val e ++ rest)
                i1 true Hl Hn H eq_refl Hr eq_refl) as (p & Et & Hp & Hcc).
    exists p. split; [exact Et|]. split; [|exact H2]. cbv zeta.
    rewrite Hcc. cbn [length] in *. rewrite Nat.add_0_r.
    cbn [app] in H1.
    rewrite (charAt_at _ _ _ _ H1).
    pose proof (skipn_app_at text [58%N] _ _ H1) as H3.
    replace (S (i1 + length key)) with (i1 + length key + length [58%N])
      by (simpl; lia).
    rewrite (consume_comments_run text [32%N] _ _ H3 eq_refl Hv).
    simpl. lia.
Qed.

Lemma flat_items_head (ke : str * node) (items : list (str * node)) :
  item_ok ke = true ->
  exists c rest, flat_items (ke :: items) = c :: rest
                 /\ stop_char c = true /\ c <> 44%N /\ c <> 125%N.
Proof.
  destruct ke as [k e]. unfold item_ok. cbn [fst snd]. intros H.
  apply andb_true_iff in H as [H _].
  apply andb_true_iff in H as [H _]. apply andb_true_iff in H as [Hl Hn].
  destruct (lexeme_head_facts true k Hl Hn)
    as (c & k' & -> & Hs & H1 & _ & _ & H4 & _).
  exists c. eexists. rewrite flat_items_cons. unfold flat_item.
  cbn [fst snd app]. split; [reflexivity|]. auto.
Qed.

(** What follows a flat element: a space, and then the next name, or
    white space before a closing brace or the end of the text. *)
Lemma after_flat_element (wsT tail : str) (items : list (str * node)) :
  forallb item_ok items = true -> forallb is_space wsT = true ->
  starts (fun c => N.eqb c 125) tail = true ->
  exists w next,
    lit " " ++ flat_items items ++ wsT ++ tail = (lit " " ++ w) ++ next
    /\ forallb is_space (lit " " ++ w) = true
    /\ starts stop_char next = true
    /\ starts (fun c => negb (N.eqb c 44)) next = true
    /\ length (flat_items items ++ wsT) + length tail
       = length w + length next
    /\ match items with
       | [] => next = tail
       | _ => w = [] /\ next = flat_items items ++ wsT ++ tail
       end.
Proof.
  intros Hok Hw Ht. destruct items as [|ke items].
  - exists wsT, tail. cbn [flat_items map concat app].
    split; [reflexivity|]. split; [exact Hw|].
    assert (Hs : forall p : N -> bool, p 125%N = true ->
                 starts p tail = true).
    { intros p Hp. destruct tail as [|c tail]; [reflexivity|].
      simpl in Ht. apply N.eqb_eq in Ht. subst c. exact Hp. }
    split; [now apply Hs|]. split; [now apply Hs|].
    split; reflexivity.
  - cbn [forallb] in Hok. apply andb_true_iff in Hok as [Hke _].
    destruct (flat_items_head ke items Hke) as (c & rest & Eb & Hs & Hc & _).
    exists [], (flat_items (ke :: items) ++ wsT ++ tail).
    split; [reflexivity|]. split; [reflexivity|].
    rewrite Eb. cbn [app starts].
    split; [exact Hs|]. split; [now apply negb_true_iff, N.eqb_neq|].
    split; [|split; reflexivity].
    cbn [length]. rewrite !length_app. cbn [length]. lia.
Qed.

(** The body loop reads flat items back and stops before a closing brace
    or at the end of the text. *)
Lemma body_loop_flat (items : list (str * node)) :
  Forall (fun ke => reads_back_flat (snd ke)) items ->
  forallb item_ok items = true -> items <> [] ->
  forall ws wsT tail acc fuel text ii r,
    forallb is_space ws = true -> forallb is_space wsT = true ->
    starts (fun c => N.eqb c 125) tail = true ->
    skipn ii text = ws ++ flat_items items ++ wsT ++ tail ->
    parse_body_loop fuel text None ii acc = Some r ->
    r = Returns {| value := Object (push_all items acc);
                   position := ii + length ws + length (flat_items items)
                               + length wsT;
                   error := None |}.
Proof.
  induction items as [|[k e] items IH]; intros Hrb Hok Hne; [congruence|].
  clear Hne. intros ws wsT tail acc fuel text ii r Hw HwT Ht H E.
  inversion Hrb as [|? ? Hre Hrb']; subst. cbn [snd] in Hre.
  cbn [forallb] in Hok. apply andb_true_iff in Hok as [Hke Hok].
  pose proof Hke as Hke'. unfold item_ok in Hke'. cbn [fst snd] in Hke'.
  apply andb_true_iff in Hke' as [Hke' Hinh].
  apply negb_true_iff in Hinh.
  apply andb_true_iff in Hke' as [Hke' He].
  apply andb_true_iff in Hke' as [Hl Hn].
  destruct fuel as [|fuel]; [discriminate|].
  rewrite parse_body_loop_S in E.
  rewrite flat_items_cons in H. unfold flat_item in H. cbn [fst snd] in H.
  rewrite <- !app_assoc in H.
  destruct (lexeme_head_facts true k Hl Hn)
    as (c & k' & Ek & Hcs & Hc1 & _).
  assert (Hcond : (ii <? length text)
                  && negb (eqs (charAt text ii) (lit "}")) = true).
  { rewrite Ek in H. cbn [app] in H.
    exact (loop_goes_on _ _ _ _ _ H Hw Hc1). }
  rewrite Hcond in E. cbv zeta in E.
  assert (Hk : starts stop_char
                 (k ++ separator e ++ flat_val e ++ lit " "
                  ++ flat_items items ++ wsT ++ tail) = true)
    by (rewrite Ek; exact Hcs).
  rewrite (consume_comments_run _ _ _ _ H Hw Hk) in E.
  pose proof (skipn_app_at _ _ _ _ H) as H1.
  destruct (read_flat_name _ _ _ _ _ Hl Hn He H1) as (p & Et & Hi5 & H5).
  rewrite Et in E. cbn [error value position] in E.
  cbv zeta in Hi5. rewrite Hi5 in E.
  set (i5 := ii + length ws + length k + length (separator e)) in *.
  destruct (parse_value fuel text i5 None) as [val|] eqn:Ev; [|discriminate].
  destruct (after_flat_element wsT tail items Hok HwT Ht)
    as (w & next & Enext & Hwn & Hnext & Hcomma & Hlen & Hcase).
  rewrite Enext in H5.
  destruct (Hre fuel text i5 (lit " " ++ w) next val He H5 Hwn
              Hnext eq_refl Ev) as (pv & -> & Hpv & Hcc).
  rewrite Hinh, andb_false_r in E.
  cbn [error value position] in E.
  assert (Hk1 : 1 <= length k) by (rewrite Ek; simpl; lia).
  assert (Hpv0 : (pv =? 0) = false) by (apply Nat.eqb_neq; unfold i5 in *; lia).
  rewrite Hpv0, Hcc in E. cbn [keeps] in E.
  set (i7 := i5 + length (flat_val e) + length (lit " " ++ w)) in *.
  assert (H7 : skipn i7 text = next).
  { pose proof (skipn_app_at _ _ _ _ H5) as H6.
    exact (skipn_app_at _ _ _ _ H6). }
  assert (Hnc : eqs (charAt text i7) (lit ",") = false).
  { change (lit ",") with [44%N]. destruct next as [|d next'].
    - now rewrite (charAt_nil _ _ H7).
    - simpl in Hcomma. apply negb_true_iff, N.eqb_neq in Hcomma.
      exact (charAt_not _ _ _ _ _ H7 Hcomma). }
  rewrite Hnc in E.
  assert (Hgo : (i7 =? ii) = false)
    by (apply Nat.eqb_neq; unfold i7, i5; lia).
  rewrite Hgo in E.
  assert (Hpos : ii + length ws + length (flat_items ((k, e) :: items))
                 + length wsT
                 = i7 + length next - length tail).
  { rewrite flat_items_cons. unfold flat_item. cbn [fst snd].
    rewrite !length_app in *. unfold i7, i5. cbn [length] in *.
    rewrite !length_app in *. cbn [length] in *. lia. }
  destruct items as [|ke items].
  - subst next. unfold push_all. cbn [fold_left fst snd].
    destruct fuel as [|fuel]; [discriminate|].
    rewrite parse_body_loop_S in E.
    assert (Hstop : (i7 <? length text)
                    && negb (eqs (charAt text i7) (lit "}")) = false).
    { change (lit "}") with [125%N]. destruct tail as [|d tail'].
      - apply skipn_nil_ge in H7. apply andb_false_iff. left.
        apply Nat.ltb_ge. exact H7.
      - simpl in Ht. apply N.eqb_eq in Ht. subst d.
        rewrite (charAt_at _ _ _ _ H7). apply andb_false_r. }
    rewrite Hstop in E. injection E as <-. do 2 f_equal. lia.
  - destruct Hcase as [-> Hcase]. rewrite Hcase in H7.
    rewrite (IH Hrb' Hok ltac:(discriminate) [] wsT tail _ _ _ _ _
               eq_refl HwT Ht H7 E).
    unfold push_all. cbn [fold_left fst snd]. do 2 f_equal.
    rewrite Hpos, Hcase, !length_app. cbn [length]. lia.
Qed.

(** ** Flat values are read back *)

Lemma flat_leaf_reads_back (e : node) :
  is_sub_proto e = false -> reads_back_flat e.
Proof.
  intros Hleaf fuel text ii ws rest r Hp H Hw Hr He E.
  assert (Ev : flat_val e = val_text [] e)
    by (destruct e; [reflexivity | discriminate | reflexivity]).
  rewrite Ev in *.
  exact (printed_reads_back e [] fuel text ii ws rest r Hp eq_refl H Hw Hr
           He E).
Qed.

Lemma flatten_reads_back_flat (fields : obj (list node)) :
  Forall (fun kv => Forall reads_back_flat (snd kv)) fields ->
  Forall (fun ke => reads_back_flat (snd ke)) (flatten fields).
Proof.
  induction 1 as [|[k elems] fields Hk _ IH]; [constructor|].
  unfold flatten. cbn [flat_map fst snd]. apply Forall_app. split; [|exact IH].
  cbn [snd] in Hk. clear - Hk.
  induction Hk as [|e elems He _ IHe]; constructor; assumption.
Qed.

Lemma flat_object_reads_back (fields : obj (list node)) :
  Forall (fun kv => Forall reads_back_flat (snd kv)) fields ->
  reads_back_flat (Object fields).
Proof.
  intros IH fuel text ii ws rest r Hp H Hw Hr He E.
  cbn [printable] in Hp. apply andb_true_iff in Hp as [Hp Hf].
  apply andb_true_iff in Hp as [Hne Hord].
  destruct (flatten_items_ok fields Hf) as [Hitems Hseqs].
  pose proof (flatten_nonempty fields Hne Hseqs) as Hflat.
  remember (flat_items (flatten fields)) as inner eqn:Einner.
  assert (Ev : flat_val (Object fields)
               = 123%N :: [32%N] ++ inner ++ [32%N] ++ [125%N]).
  { cbn [flat_val format_node].
    rewrite (format_fields_flat_items _ [] fields
               (fun e => format_node_flat e _ _) Hseqs).
    rewrite Einner. change (lit "{ ") with [123%N; 32%N].
    change (lit " }") with [32%N; 125%N].
    cbn [app]. reflexivity. }
  rewrite Ev in *. cbn [app] in H. rewrite <- ?app_assoc in H.
  destruct fuel as [|fuel]; [discriminate|].
  rewrite parse_value_S in E. change (lit "{") with [123%N] in E.
  rewrite (charAt_at _ _ _ _ H) in E.
  destruct fuel as [|fuel]; [discriminate|].
  rewrite parse_proto_S in E. cbv zeta in E.
  rewrite (consume_comments_here _ _ _ H eq_refl) in E.
  change (lit "{") with [123%N] in E. rewrite (charAt_at _ _ _ _ H) in E.
  destruct fuel as [|fuel]; [discriminate|].
  rewrite parse_body_S in E.
  pose proof (skipn_app_at text [123%N] _ ii H) as H1.
  replace (ii + length [123%N]) with (S ii) in H1 by (cbn [length]; lia).
  destruct (parse_body_loop fuel text None (S ii) []) as [body|] eqn:Eb;
    [|discriminate].
  rewrite Einner in H1.
  assert (H1' : skipn (S ii) text
                = [32%N] ++ flat_items (flatten fields) ++ [32%N]
                  ++ [125%N] ++ ws ++ rest)
    by exact H1.
  pose proof (body_loop_flat (flatten fields)
                (flatten_reads_back_flat fields IH)
                Hitems Hflat [32%N] [32%N] ([125%N] ++ ws ++ rest) []
                fuel text (S ii) body eq_refl eq_refl eq_refl H1' Eb) as ->.
  rewrite <- Einner in *.
  cbn [error value position] in E.
  rewrite (push_all_flatten fields [] Hord Hseqs) in E.
  change ([] ++ fields) with fields in E.
  remember (S ii + length [32%N] + length inner + length [32%N]) as pb
    eqn:Epb.
  assert (H3 : skipn pb text = 125%N :: ws ++ rest).
  { rewrite Epb.
    pose proof (skipn_app_at _ _ _ _ H1') as Ha.
    pose proof (skipn_app_at _ _ _ _ Ha) as Hb.
    exact (skipn_app_at _ _ _ _ Hb). }
  rewrite (consume_comments_here _ _ _ H3 eq_refl) in E.
  change (lit "}") with [125%N] in E. rewrite (charAt_at _ _ _ _ H3) in E.
  cbn [negb] in E.
  pose proof (skipn_app_at text [125%N] _ _ H3) as H4.
  replace (pb + length [125%N]) with (S pb) in H4 by (cbn [length]; lia).
  assert (Hcc : consume_comments text (S pb) = S pb + length ws)
    by exact (consume_comments_run _ _ _ _ H4 Hw Hr).
  rewrite Hcc in E.
  injection E as <-. eexists. split; [reflexivity|].
  assert (Hlen : S pb + length ws
                 = ii + length (123%N :: [32%N] ++ inner ++ [32%N]
                                ++ [125%N])
                   + length ws).
  { rewrite Epb. cbn [length]. rewrite !length_app. cbn [length]. lia. }
  rewrite <- Hlen. split; [lia|].
  apply consume_comments_here with (rest := rest); [|exact Hr].
  exact (skipn_app_at _ _ _ _ H4).
Qed.

(** [parse_value] reads every printable element back from its flat
    text. *)
Lemma flat_reads_back (e : node) : reads_back_flat e.
Proof.
  induction e as [s|fields IH|items IH] using node_induction.
  - now apply flat_leaf_reads_back.
  - apply flat_object_reads_back. exact IH.
  - now apply flat_leaf_reads_back.
Qed.

Lemma format_flat_items (T : ProtoObject) :
  forallb (fun kv => nonempty (snd kv)) T = true ->
  format T true None = flat_items (flatten T).
Proof.
  intros H. unfold format.
  exact (format_fields_flat_items _ [] T (fun e => format_node_flat e _ _) H).
Qed.

Lemma flat_then_parse (T : ProtoObject) :
  proto_printable T = true ->
  parse_proto (fuel_for (format T true None)) (format T true None) 0 None
  = Some (Returns {| value := Object T;
                     position := length (format T true None);
                     error := None |}).
Proof.
  intros Hp. unfold proto_printable in Hp.
  apply andb_true_iff in Hp as [Hord Hf].
  destruct (flatten_items_ok T Hf) as [Hitems Hseqs].
  rewrite (format_flat_items T Hseqs).
  destruct T as [|kv T]; [vm_compute; reflexivity|].
  assert (Hflat : flatten (kv :: T) <> [])
    by (apply flatten_nonempty; [reflexivity | exact Hseqs]).
  remember (flatten (kv :: T)) as items eqn:Eitems.
  remember (flat_items items) as text eqn:Etext.
  destruct (proj1 (parse_total text 0 None)) as (res & E).
  rewrite E. f_equal. rewrite fuel_for_S, parse_proto_S in E. cbv zeta in E.
  assert (H : skipn 0 text = [] ++ flat_items items ++ [] ++ [])
    by (rewrite Etext, !app_nil_r; reflexivity).
  destruct items as [|[k e] items'] eqn:Ei; [congruence|].
  pose proof Hitems as Hk. cbn [forallb] in Hk.
  apply andb_true_iff in Hk as [Hk _].
  destruct (flat_items_head (k, e) items' Hk)
    as (c & rest & Eh & Hcs & _ & _).
  pose proof Hk as Hk'. unfold item_ok in Hk'. cbn [fst snd] in Hk'.
  apply andb_true_iff in Hk' as [Hk' _].
  apply andb_true_iff in Hk' as [Hk' _].
  apply andb_true_iff in Hk' as [Hl Hn].
  destruct (lexeme_head_facts true k Hl Hn)
    as (c' & k' & Ek & _ & _ & Hc2 & _).
  assert (Hcc' : c = c').
  { rewrite flat_items_cons in Eh. unfold flat_item in Eh.
    cbn [fst snd] in Eh. rewrite Ek in Eh. cbn [app] in Eh. congruence. }
  subst c'.
  assert (H0 : skipn 0 text = c :: rest)
    by (rewrite H, !app_nil_r; cbn [app]; exact Eh).
  assert (Hst : starts stop_char (c :: rest) = true) by exact Hcs.
  rewrite (consume_comments_here _ _ _ H0 Hst) in E.
  change (lit "{") with [123%N] in E.
  rewrite (charAt_not _ _ _ _ _ H0 Hc2) in E.
  rewrite parse_body_S in E.
  destruct (parse_body_loop (4 * length text + 2) text None 0 [])
    as [body|] eqn:Eb; [|discriminate].
  rewrite <- Ei in *.
  pose proof (body_loop_flat items
                (proj2 (Forall_forall _ _)
                   (fun ke _ => flat_reads_back (snd ke)))
                Hitems Hflat [] [] [] [] _ text 0 body
                eq_refl eq_refl eq_refl H Eb) as Hbody.
  rewrite Hbody in E. cbn [error] in E. injection E as <-.
  rewrite Eitems, (push_all_flatten (kv :: T) [] Hord Hseqs).
  cbn [app]. do 2 f_equal. rewrite <- Eitems, <- Etext.
  cbn [length]. lia.
Qed.

(** X25: the round trip holds in flat mode as well: when [parse_proto]
    returns the tree [T] without error and [T] has no empty field name,
    no empty scalar, no nested object without a field and only scalars in
    its lists, then parsing [format(T, true)] returns [T] again, without
    error, at the end of the flat text. *)
Theorem flat_format_parse_roundtrip :
  forall (s : str) (res : result node) (T : ProtoObject),
    parse_proto (fuel_for s) s 0 None = Some (Returns res) ->
    error res = None ->
    value res = Object T ->
    plain_proto T = true ->
    parse_proto (fuel_for (format T true None)) (format T true None) 0 None
    = Some (Returns {| value := Object T;
                       position := length (format T true None);
                       error := None |}).
Proof.
  intros s res T E He Hv Hplain. apply flat_then_parse.
  apply parsed_plain_proto; [|exact Hplain].
  rewrite <- Hv.
  exact (proj1 (proj2 (parsed_at_all s None (fuel_for s))) 0 res E He).
Qed.

Lemma flat_format_parse_roundtrip_witness :
  parse_proto (fuel_for (format tree_mixed true None))
    (format tree_mixed true None) 0 None
  = Some (Returns {| value := Object tree_mixed;
                     position := length (format tree_mixed true None);
                     error := None |}).
Proof.
  apply (flat_format_parse_roundtrip text_mixed
           {| value := Object tree_mixed; position := 29; error := None |}
           tree_mixed).
  - vm_compute. reflexivity.
  - reflexivity.
  - reflexivity.
  - vm_compute. reflexivity.
Defined.
(* ------------------------------------------------------------------ *)
(** * One item, with or without a colon *)

Lemma gap_app (a b : str) :
  forall c, gap c a = true -> gap c (a ++ b) = gap false b.
Proof.
  induction a as [|x a IH]; intros c H.
  - destruct c; [discriminate | reflexivity].
  - cbn [gap app] in *. destruct c; [exact (IH _ H)|].
    destruct (N.eqb x 35); [exact (IH _ H)|].
    apply andb_true_iff in H as [Hx H]. rewrite Hx. exact (IH _ H).
Qed.

(** A stretch of white space and comments does not start with a
    character of a token. *)
Lemma gap_not_class (b : bool) (g rest : str) :
  gap false g = true ->
  nonempty g = true
  \/ starts (fun c => negb (token_class b c)) rest = true ->
  starts (fun c => negb (token_class b c)) (g ++ rest) = true.
Proof.
  destruct g as [|c g]; [intros _ [H | H]; [discriminate | exact H]|].
  intros H _. cbn [app starts]. cbn [gap] in H.
  destruct (token_class b c) eqn:Hc; [|reflexivity].
  assert (Hn : name_re c = true)
    by (destruct b; [exact Hc | now apply token_re_name_re]).
  apply name_re_stop in Hn. unfold stop_char in Hn.
  apply andb_true_iff in Hn as [Hs Hh]. apply negb_true_iff in Hs, Hh.
  rewrite Hh, Hs in H. discriminate.
Qed.

(** A lexeme followed by white space and comments and then a stop
    character is read as it is; [consume_comments] then stands on the
    stop character. *)
Lemma parse_token_before_gap (text s g rest : str) (ii : nat) (b : bool) :
  lexeme (token_class b) s = true -> nonempty s = true ->
  skipn ii text = s ++ g ++ rest ->
  gap false g = true -> starts stop_char rest = true ->
  starts (fun c => negb (token_class b c)) (g ++ rest) = true ->
  exists p,
    parse_token text ii b = {| value := s; position := p; error := None |}
    /\ ii + length s <= p
    /\ consume_comments text p = ii + length s + length g.
Proof.
  intros Hl Hn H Hg Hr He.
  pose proof (skipn_app_at _ _ _ _ H) as H2.
  unfold lexeme in Hl. destruct (quoted_ok s) eqn:Hq.
  - exists (consume_comments text (ii + length s)).
    rewrite (consume_comments_gap _ _ _ _ H2 Hg Hr).
    pose proof (skipn_app_at _ _ _ _ H2) as H3.
    rewrite (consume_comments_here _ _ _ H3 Hr).
    split; [|split; [lia | reflexivity]].
    unfold parse_token. cbn [is_defined negb].
    destruct s as [|q s']; [discriminate|].
    rewrite (charAt_head _ _ _ _ H).
    assert (E : eqs [q] dquote || eqs [q] squote = true).
    { cbn [quoted_ok] in Hq. apply andb_true_iff in Hq as [Hq _].
      unfold dquote, squote. now rewrite !eqs_single. }
    rewrite E, (parse_string_quoted _ _ _ _ Hq H).
    now rewrite (consume_comments_gap _ _ _ _ H2 Hg Hr).
  - rewrite orb_false_r in Hl. exists (ii + length s).
    split; [|split; [lia | exact (consume_comments_gap _ _ _ _ H2 Hg Hr)]].
    unfold parse_token. cbn [is_defined negb].
    destruct s as [|c s'] eqn:Es; [discriminate|]. rewrite <- Es in *.
    assert (Hc : charAt text ii = [c]).
    { apply (charAt_head text (s' ++ g ++ rest)). rewrite H, Es.
      reflexivity. }
    assert (Hnq : eqs [c] dquote || eqs [c] squote = false).
    { apply (token_class_not_quote b). rewrite Es in Hl. simpl in Hl.
      now apply andb_true_iff in Hl as [Hl _]. }
    rewrite Hc, Hnq. fold (token_class b).
    now rewrite (consume_regexp_run _ _ _ _ _ H Hl He).
Qed.

(** The name of an item and what separates it from its value, which
    starts with the character [c]. *)
Lemma read_item_name (text k g1 g2 rest : str) (colon : bool) (c : N) :
  lexeme name_re k = true -> nonempty k = true ->
  gap false g1 = true -> gap false g2 = true ->
  colon = true \/ nonempty (g1 ++ g2) = true ->
  stop_char c = true -> c <> 58%N ->
  skipn 0 text
  = k ++ g1 ++ (if colon then lit ":" else []) ++ g2 ++ c :: rest ->
  exists p,
    parse_token text 0 true
    = {| value := k; position := p; error := None |}
    /\ (let i3 := consume_comments text p in
        let i4 := if eqs (charAt text i3) (lit ":") then S i3 else i3 in
        consume_comments text i4)
       = length (k ++ g1 ++ (if colon then lit ":" else []) ++ g2)
    /\ skipn (length (k ++ g1 ++ (if colon then lit ":" else []) ++ g2)) text
       = c :: rest.
Proof.
  intros Hl Hn Hg1 Hg2 Hsep Hc Hcol H.
  assert (Hrest : starts stop_char (c :: rest) = true) by exact Hc.
  change (lit ":") with [58%N] in *.
  destruct colon.
  - assert (Hr : starts stop_char ([58%N] ++ g2 ++ c :: rest) = true)
      by reflexivity.
    assert (He : starts (fun x => negb (token_class true x))
                   (g1 ++ [58%N] ++ g2 ++ c :: rest) = true)
      by (apply gap_not_class; [exact Hg1 | right; reflexivity]).
    destruct (parse_token_before_gap text k g1 ([58%N] ++ g2 ++ c :: rest)
                0 true Hl Hn H Hg1 Hr He) as (p & Et & Hp & Hcc).
    exists p. split; [exact Et|]. cbv zeta. rewrite Hcc.
    pose proof (skipn_app_at _ _ _ _ H) as H1.
    pose proof (skipn_app_at _ _ _ _ H1) as H2.
    cbn [app] in H2. rewrite (charAt_at _ _ _ _ H2).
    pose proof (skipn_app_at text [58%N] _ _ H2) as H3.
    replace (0 + length k + length g1 + length [58%N])
      with (S (0 + length k + length g1)) in H3 by (cbn [length]; lia).
    rewrite (consume_comments_gap _ _ _ _ H3 Hg2 Hrest).
    rewrite !length_app. cbn [length]. split; [lia|].
    pose proof (skipn_app_at _ _ _ _ H3) as H4.
    rewrite <- H4. f_equal. lia.
  - destruct Hsep as [Hsep | Hsep]; [discriminate|].
    cbn [app] in H. rewrite (app_assoc g1 g2) in H.
    assert (Hg : gap false (g1 ++ g2) = true)
      by (rewrite (gap_app g1 g2 false Hg1); exact Hg2).
    assert (He : starts (fun x => negb (token_class true x))
                   ((g1 ++ g2) ++ c :: rest) = true)
      by (apply gap_not_class; [exact Hg | left; exact Hsep]).
    destruct (parse_token_before_gap text k (g1 ++ g2) (c :: rest)
                0 true Hl Hn H Hg Hrest He) as (p & Et & Hp & Hcc).
    exists p. split; [exact Et|]. cbv zeta. rewrite Hcc.
    pose proof (skipn_app_at _ _ _ _ H) as H1.
    pose proof (skipn_app_at _ _ _ _ H1) as H2.
    rewrite (charAt_not _ _ _ _ _ H2 Hcol).
    rewrite (consume_comments_here _ _ _ H2 Hrest).
    cbn [app]. rewrite !length_app. split; [lia|].
    rewrite <- H2, length_app. f_equal; lia.
Qed.

(** X26: one item is read with or without a colon between its name and
    its value, with white space and comments after the name, after the
    colon and after the value, and with or without a comma at the end:
    for a non-empty name [k] and a non-empty scalar value [v] (each a run
    of token characters or a quoted string) every such text parses,
    without error and to its end, to the object [{k: [v]}], unless [k] is
    a name that objects inherit: then the push throws a TypeError.
    Without a colon something must separate the name from the value. *)
Theorem item_with_or_without_colon :
  forall (k v g1 g2 g3 : str) (colon comma : bool),
    lexeme name_re k = true -> nonempty k = true ->
    lexeme token_re v = true -> nonempty v = true ->
    gap false g1 = true -> gap false g2 = true -> gap false g3 = true ->
    colon = true \/ nonempty (g1 ++ g2) = true ->
    let text :=
      k ++ g1 ++ (if colon then lit ":" else []) ++ g2 ++ v ++ g3
      ++ (if comma then lit "," else []) in
    parse_proto (fuel_for text) text 0 None
    = if inherited k then Some TypeError
      else Some (Returns {| value := Object [(k, [Scalar v])];
                            position := length text;
                            error := None |}).
Proof.
  intros k v g1 g2 g3 colon comma Hk Hkn Hv Hvn Hg1 Hg2 Hg3 Hsep.
  cbv zeta.
  destruct (lexeme_head_facts true k Hk Hkn)
    as (ck & k' & Ek & Hks & Hk1 & Hk2 & _).
  destruct (lexeme_head_facts false v Hv Hvn)
    as (cv & v' & Ev & Hvs & _ & Hv2 & Hv3 & _ & Hv5).
  destruct (Hv5 eq_refl) as [Hv6 _].
  set (m := if comma then _ else _).
  assert (Em : m = if comma then [44%N] else []) by reflexivity.
  clearbody m.
  set (c := if colon then _ else _).
  remember (k ++ g1 ++ c ++ g2 ++ v ++ g3 ++ m) as text eqn:Etext.
  assert (Htext : skipn 0 text
                  = k ++ g1 ++ c ++ g2 ++ cv :: (v' ++ g3 ++ m))
    by (rewrite Etext, Ev; reflexivity).
  destruct (read_item_name text k g1 g2 (v' ++ g3 ++ m) colon cv
              Hk Hkn Hg1 Hg2 Hsep Hvs Hv3 Htext) as (p & Et & Hi5 & H5).
  fold c in Hi5, H5. clearbody c.
  remember (length (k ++ g1 ++ c ++ g2)) as i5 eqn:Ei5.
  assert (H5' : skipn i5 text = v ++ g3 ++ m)
    by (rewrite H5, Ev; reflexivity).
  assert (Hm : starts stop_char m = true)
    by (rewrite Em; destruct comma; reflexivity).
  assert (Hm' : starts (fun x => negb (token_class false x)) m = true)
    by (rewrite Em; destruct comma; reflexivity).
  destruct (parse_token_before_gap text v g3 m i5 false Hv Hvn H5' Hg3 Hm
              (gap_not_class false g3 m Hg3 (or_intror Hm')))
    as (pv & Etv & Hpv & Hcc).
  assert (Hvlen : 1 <= length v) by (rewrite Ev; cbn [length]; lia).
  remember (i5 + length v + length g3) as i7 eqn:Ei7.
  assert (H7 : skipn i7 text = m).
  { rewrite Ei7.
    exact (skipn_app_at _ _ _ _ (skipn_app_at _ _ _ _ H5')). }
  assert (Hlen : length text = i7 + length m).
  { rewrite Etext, Ei7, Ei5, !length_app. lia. }
  assert (H0 : skipn 0 text
               = ck :: (k' ++ g1 ++ c ++ g2 ++ cv :: (v' ++ g3 ++ m)))
    by (rewrite Htext, Ek; reflexivity).
  assert (Hcc0 : consume_comments text 0 = 0)
    by exact (consume_comments_here text _ 0 H0 Hks).
  unfold fuel_for.
  replace (4 * length text + 4) with (S (S (S (S (4 * length text)))))
    by lia.
  rewrite parse_proto_S. cbv zeta. rewrite Hcc0.
  change (lit "{") with [123%N]. rewrite (charAt_not _ _ _ _ _ H0 Hk2).
  rewrite parse_body_S, parse_body_loop_S.
  rewrite (loop_goes_on text [] _ 0 ck H0 eq_refl Hk1).
  cbv zeta in Hi5 |- *. rewrite Hcc0, Et. cbn [error value position].
  rewrite Hi5.
  rewrite parse_value_S.
  change (lit "{") with [123%N]. rewrite (charAt_not _ _ _ _ _ H5 Hv2).
  change (lit "[") with [91%N]. rewrite (charAt_not _ _ _ _ _ H5 Hv6).
  cbv zeta. rewrite Etv.
  cbn [error value position keeps obj_has existsb negb andb].
  destruct (inherited k); [reflexivity|].
  assert (Hpv0 : (pv =? 0) = false) by (apply Nat.eqb_neq; lia).
  rewrite Hpv0, Hcc, <- ?Ei7.
  rewrite (push_new_field k (Scalar v) [] eq_refl). cbn [app].
  assert (Hi8 : (if eqs (charAt text i7) (lit ",")
                 then consume_comments text (S i7) else i7)
                = length text).
  { change (lit ",") with [44%N]. rewrite Hlen, Em. destruct comma.
    - rewrite Em in H7.
      rewrite (charAt_at _ _ _ _ H7).
      pose proof (skipn_app_at text [44%N] [] i7 H7) as H8.
      cbn [length] in *.
      replace (i7 + 1) with (S i7) in * by lia.
      exact (consume_comments_here _ _ _ H8 eq_refl).
    - rewrite Em in H7. rewrite (charAt_nil _ _ H7). cbn [eqs length]. lia. }
  rewrite Hi8.
  assert (Hgo : (length text =? 0) = false) by (apply Nat.eqb_neq; lia).
  rewrite Hgo, parse_body_loop_S, Nat.ltb_irrefl. reflexivity.
Qed.

Lemma item_with_or_without_colon_witness :
  let text :=
    lit "name" ++ (lit " # which" ++ newline) ++ (if false then lit ":" else [])
    ++ lit "  " ++ quoted "a b" ++ lit " " ++ (if true then lit "," else []) in
  parse_proto (fuel_for text) text 0 None
  = if inherited (lit "name") then Some TypeError
    else Some (Returns
                 {| value := Object [(lit "name", [Scalar (quoted "a b")])];
                    position := length text;
                    error := None |}).
Proof.
  apply (item_with_or_without_colon (lit "name") (quoted "a b")
           (lit " # which" ++ newline) (lit "  ") (lit " ") false true);
    try reflexivity.
  right. reflexivity.
Defined.
(** ** Searching by pattern *)

Lemma is_letter_lower (c : N) : is_letter (lower_unit c) = is_letter c.
Proof.
  unfold lower_unit. destruct (in_range 65 90 c) eqn:E; [|reflexivity].
  unfold is_letter. rewrite E. unfold in_range in *.
  apply andb_true_iff in E as [E1 E2].
  apply N.leb_le in E1. apply N.leb_le in E2.
  destruct (N.leb_spec 97 (c + 32)), (N.leb_spec (c + 32) 122);
    cbn [andb orb]; solve [apply orb_true_r | lia].
Qed.

Lemma letter_not_break (c : N) : is_letter c = true -> N.eqb c 10 = false.
Proof.
  unfold is_letter, in_range. intros H. apply N.eqb_neq. intros ->.
  discriminate.
Qed.

Lemma letter_ascii (c : N) : is_letter c = true -> N.ltb c 128 = true.
Proof.
  unfold is_letter, in_range. intros H. apply N.ltb_lt.
  apply orb_true_iff in H as [H|H]; apply andb_true_iff in H as [_ H];
    apply N.leb_le in H; lia.
Qed.

(** The digits of a number are neither letters nor beyond ASCII. *)
Lemma uint_str_plain (d : Decimal.uint) :
  forallb (fun c => negb (is_letter c) && N.ltb c 128) (uint_str d) = true.
Proof.
  induction d; cbn [uint_str forallb]; try reflexivity; rewrite IHd;
    reflexivity.
Qed.

Lemma letters_end_lines_app (x y : str) :
  forallb (fun c => negb (is_letter c)) x = true ->
  letters_end_lines y = true -> letters_end_lines (x ++ y) = true.
Proof.
  induction x as [|a x IH]; intros Hx Hy; [exact Hy|].
  cbn [forallb] in Hx. apply andb_true_iff in Hx as [Ha Hx].
  cbn [app letters_end_lines]. rewrite Ha, (IH Hx Hy). reflexivity.
Qed.

(** A text in which every letter ends its line contains no word. *)
Lemma includes_no_word (a b : N) (p text : str) :
  is_letter a = true -> is_letter b = true ->
  letters_end_lines text = true -> includes text (a :: b :: p) = false.
Proof.
  intros Ha Hb. induction text as [|x text IH]; intros H; [reflexivity|].
  cbn [letters_end_lines] in H. apply andb_true_iff in H as [Hx H].
  cbn [includes starts_with]. rewrite (IH H), orb_false_r.
  destruct (N.eqb_spec a x) as [->|]; [|reflexivity].
  rewrite Ha in Hx. cbn [negb orb] in Hx.
  destruct text as [|y text]; [discriminate|].
  apply N.eqb_eq in Hx. subst y. cbn [starts_with andb].
  now rewrite (letter_not_break b Hb).
Qed.

(** The text that [format] makes of a string: one line per character. *)
Lemma format_string_lines (rec : node -> str) (s : str) :
  forall i : nat,
    is_ascii s = true ->
    let text :=
      format_fields rec false []
        ((fix walk (i : nat) (l : list (list node)) : list (str * list node) :=
            match l with
            | [] => []
            | x :: l' => (number_to_string (N.of_nat i), x) :: walk (S i) l'
            end) i (map (fun c => [Scalar [c]]) s)) in
    is_ascii text = true
    /\ letters_end_lines (map lower_unit text) = true.
Proof.
  induction s as [|c s IH]; intros i Hs; [split; reflexivity|].
  unfold is_ascii in Hs. cbn [forallb] in Hs.
  apply andb_true_iff in Hs as [Hc Hs].
  destruct (IH (S i) Hs) as [IH1 IH2]. cbv zeta in IH1, IH2. cbv zeta.
  cbn [map format_fields format_seq format_elem app].
  pose proof (uint_str_plain (N.to_uint (N.of_nat i))) as Hd.
  fold (number_to_string (N.of_nat i)) in Hd.
  rewrite forallb_forall in Hd.
  split.
  - unfold is_ascii. rewrite forallb_app. apply andb_true_iff. split.
    + rewrite forallb_app. apply andb_true_iff. split.
      * apply forallb_forall. intros x Hx.
        now destruct (proj1 (andb_true_iff _ _) (Hd x Hx)).
      * cbn. rewrite Hc. reflexivity.
    + exact IH1.
  - rewrite <- !app_assoc. rewrite map_app.
    apply letters_end_lines_app.
    + apply forallb_forall. intros x Hx. apply in_map_iff in Hx as (y & <- & Hy).
      rewrite is_letter_lower.
      now destruct (proj1 (andb_true_iff _ _) (Hd y Hy)).
    + change (lit ": ") with [58%N; 32%N]. change newline with [10%N].
      cbn [app map]. change (lower_unit 58) with 58%N.
      change (lower_unit 32) with 32%N. change (lower_unit 10) with 10%N.
      cbn [letters_end_lines]. change (is_letter 58) with false.
      change (is_letter 32) with false. change (is_letter 10) with false.
      cbn [negb orb andb N.eqb Pos.eqb]. rewrite orb_true_r. exact IH2.
Qed.

(** No string value matches a word. *)
Lemma word_matches_no_string (a b : N) (p name s : str) :
  forallb is_letter (a :: b :: p) = true -> is_ascii s = true ->
  matches_formatted (a :: b :: p) name (Scalar s) = Some false.
Proof.
  intros Hp Hs. unfold matches_formatted, format_value, as_proto, indexed.
  unfold format.
  destruct (format_string_lines (fun e => format_node false e ([] ++ lit "  "))
              s 0 Hs) as [H1 H2].
  cbv zeta in H1, H2. unfold matches_pattern, toLowerCase. rewrite H1.
  assert (Hpa : is_ascii (a :: b :: p) = true).
  { unfold is_ascii. apply forallb_forall. intros x Hx.
    rewrite forallb_forall in Hp. exact (letter_ascii x (Hp x Hx)). }
  rewrite Hpa. f_equal. cbn [map forallb] in Hp |- *.
  apply andb_true_iff in Hp as [Ha Hp]. apply andb_true_iff in Hp as [Hb _].
  apply includes_no_word; [now rewrite is_letter_lower
                          |now rewrite is_letter_lower|exact H2].
Qed.

Lemma word_calls_modelled (a b : N) (p : str) (x : node) :
  forallb is_letter (a :: b :: p) = true ->
  no_arrays x = true -> ascii_values x = true ->
  calls_modelled (matches_formatted (a :: b :: p)) x = true.
Proof.
  intros Hp.
  induction x as [s|fields IH|items IH] using node_induction;
    intros Hna Has; try reflexivity.
  cbn [calls_modelled no_arrays ascii_values] in *.
  apply forallb_forall. intros kv Hin. apply forallb_forall. intros e He.
  rewrite forallb_forall in Hna, Has.
  specialize (Hna kv Hin). specialize (Has kv Hin).
  rewrite forallb_forall in Hna, Has.
  specialize (Hna e He). specialize (Has e He).
  rewrite Forall_forall in IH. specialize (IH kv Hin).
  rewrite Forall_forall in IH. specialize (IH e He).
  destruct e as [s|o|l]; [|exact (IH Hna Has)|discriminate].
  now rewrite (word_matches_no_string a b p (fst kv) s Hp Has).
Qed.

Lemma word_slices_nothing (a b : N) (p : str) (x : node) :
  forallb is_letter (a :: b :: p) = true ->
  no_arrays x = true -> ascii_values x = true ->
  slice_node (fun name val =>
                match matches_formatted (a :: b :: p) name val with
                | Some r => r
                | None => false
                end) x
  = slice_node (fun _ _ => false) x.
Proof.
  intros Hp.
  induction x as [s|fields IH|items IH] using node_induction;
    intros Hna Has; try reflexivity.
  cbn [slice_node no_arrays ascii_values] in *.
  match goal with
  | |- match ?x with _ => _ end = match ?y with _ => _ end =>
      assert (Hsame : x = y); [|now rewrite Hsame]
  end.
  unfold slice_fields.
  apply fold_left_same. intros acc kv Hin.
  apply fold_left_same. intros [acc'|] e He; [|reflexivity].
  rewrite forallb_forall in Hna, Has.
  specialize (Hna kv Hin). specialize (Has kv Hin).
  rewrite forallb_forall in Hna, Has.
  specialize (Hna e He). specialize (Has e He).
  rewrite Forall_forall in IH. specialize (IH kv Hin).
  rewrite Forall_forall in IH. specialize (IH e He).
  destruct e as [s|o|l]; [|now rewrite (IH Hna Has)|discriminate].
  cbn [is_sub_proto].
  now rewrite (word_matches_no_string a b p (fst kv) s Hp Has).
Qed.

(** X27: [slice_by_pattern] finds no word.  [format] called on a string
    value lists its characters one per line ([0: h], [1: i], ...), so a
    pattern of two or more letters occurs in no formatted value: for a
    tree without lists whose values are ASCII strings the result is the
    same as that of [proto_slice] with a predicate that rejects every
    leaf, whatever the values are. *)
Theorem slice_by_pattern_finds_no_word :
  forall (proto : ProtoObject) (pattern : str),
    no_arrays (Object proto) = true ->
    ascii_values (Object proto) = true ->
    forallb is_letter pattern = true -> 2 <= length pattern ->
    slice_by_pattern proto pattern
    = Some (proto_slice proto (fun _ _ => false)).
Proof.
  intros proto pattern Hna Has Hp Hlen.
  destruct pattern as [|a [|b p]]; cbn [length] in Hlen; try lia.
  unfold slice_by_pattern.
  rewrite (word_calls_modelled a b p (Object proto) Hp Hna Has).
  f_equal.
  pose proof (word_slices_nothing a b p (Object proto) Hp Hna Has) as H.
  cbn [slice_node] in H. unfold proto_slice.
  destruct (slice_fields _ _ proto) as [R|];
    destruct (slice_fields _ _ proto) as [R'|];
    try discriminate; [|reflexivity].
  injection H as ->. reflexivity.
Qed.

Lemma slice_by_pattern_finds_no_word_witness :
  slice_by_pattern tree_words (lit "hello")
  = Some (Returns [(lit "sub", [Object []])]).
Proof.
  rewrite (slice_by_pattern_finds_no_word tree_words (lit "hello"));
    [reflexivity|reflexivity|reflexivity|reflexivity|cbn; lia].
Defined.
